(** * The procedural sound engine of Master Mind (src/app.js, [SoundEngine])

    A shallow embedding of the [SoundEngine] closure of [src/app.js]
    (lines 42-317) together with the part of the browser it talks to: the
    Web Audio nodes it creates, the interval timers it installs and the
    clock.  The engine's private variables ([ctx], [muted],
    [activeOscillators], ...) form a record; every engine function is a
    computation in a small state-and-exception monad over the pair of that
    record and the browser state, so that [try { ... } catch (e) { }] and
    the mutation of the shared arrays read as they do in the source.

    Conventions.
    - Audio times, durations, frequencies and volumes are the source's
      numbers, as rationals: [0.05] is fifty milliseconds of audio time.
    - Timer periods and the wall clock are in milliseconds ([N]), as the
      arguments of [setInterval] are; the audio clock [c.currentTime] reads
      the same instant in seconds.
    - A Web Audio source node (oscillator or buffer source) is named by its
      index in the browser's table of sources; a gain node by its index in
      the table of gains; an interval timer by the positive handle
      [setInterval] returned.
    - Any call into the Web Audio API may throw: the browser state carries
      the list of outcomes of the calls still to come ([faults]: [true]
      means that call throws), and a call consumes its head. *)

From Stdlib Require Import String List NArith PArith ZArith QArith Bool Lia Lqa.
Import ListNotations.

Set Implicit Arguments.

(* ------------------------------------------------------------------ *)
(** ** Web Audio objects *)

Inductive OscillatorType := sine | square | sawtooth | triangle.

(** One scheduled change of an [AudioParam] (value, time). *)
Inductive Automation :=
| setValueAtTime (v t : Q)
| linearRampToValueAtTime (v t : Q)
| exponentialRampToValueAtTime (v t : Q).

(** The closures the engine assigns to [o.onended].
    [FilterActive o] is
    [() => { activeOscillators = activeOscillators.filter(x => x !== o); }];
    [FilterBg os] is the same on [bgOscillators], keeping the elements that
    differ from every member of [os]. *)
Inductive Handler :=
| FilterActive (o : nat)
| FilterBg (os : list nat).

Inductive SourceKind := OscillatorNode | AudioBufferSourceNode.

(** A scheduled source: an [OscillatorNode] or an [AudioBufferSourceNode]. *)
Record Source := mkSource {
  s_kind : SourceKind;
  s_type : OscillatorType;           (* o.type, 'sine' when never assigned *)
  s_frequency : list Automation;     (* calls made on o.frequency, in order *)
  s_buffer : option Q;               (* noise.buffer: its length in frames *)
  s_out : option nat;                (* the gain node it is connected to *)
  s_start : option Q;                (* argument of start(), once called *)
  s_stop : option Q;                 (* time of the last stop() applied *)
  s_onended : option Handler;
  s_ended : bool                     (* the ended event has been dispatched *)
}.

Record Gain := mkGain {
  g_gain : list Automation;          (* calls made on g.gain, in order *)
  g_out : bool                       (* connected to c.destination *)
}.

Inductive ContextState := suspended | running.

(** What a recurring timer calls: [() => this.heartbeat()] or the closure
    [playNote] of one [startBgMusic] call, which captured that call's
    context [c] and [type]. *)
Inductive Callback :=
| cbHeartbeat
| cbPlayNote (c : nat) (type : string).

Record Timer := mkTimer {
  t_id : positive;
  t_callback : Callback;
  t_interval : N;
  t_due : N
}.

(** The browser: clock (ms), outcomes of the coming Web Audio calls, the
    device's sample rate, the audio contexts constructed so far, the nodes
    and the live interval timers. *)
Record Browser := mkBrowser {
  clock : N;
  faults : list bool;
  sampleRate : Q;
  contexts : list ContextState;
  sources : list Source;
  gains : list Gain;
  timers : list Timer;
  next_timer : positive
}.

(** Value of the property [this.currentMusicType]: never assigned
    ([Undefined]), [null], or the string passed to [startBgMusic]. *)
Inductive MusicType := Undefined | Null | Str (s : string).

(** The private variables of the closure (lines 43-51) and the one public
    data property.  [bgGain] is declared in the source and never used. *)
Record Engine := mkEngine {
  ctx : option nat;
  muted : bool;
  activeOscillators : list nat;
  bgOscillators : list nat;
  bgPlaying : bool;
  heartbeatInterval : option positive;
  bgInterval : option positive;
  bgStep : N;
  currentMusicType : MusicType
}.

Record World := mkWorld { eng : Engine; env : Browser }.

(* ------------------------------------------------------------------ *)
(** ** Field updates *)

Definition set_clock (x : N) (b : Browser) : Browser :=
  mkBrowser x (faults b) (sampleRate b) (contexts b) (sources b) (gains b)
            (timers b) (next_timer b).
Definition set_faults (x : list bool) (b : Browser) : Browser :=
  mkBrowser (clock b) x (sampleRate b) (contexts b) (sources b) (gains b)
            (timers b) (next_timer b).
Definition set_contexts (x : list ContextState) (b : Browser) : Browser :=
  mkBrowser (clock b) (faults b) (sampleRate b) x (sources b) (gains b)
            (timers b) (next_timer b).
Definition set_sources (x : list Source) (b : Browser) : Browser :=
  mkBrowser (clock b) (faults b) (sampleRate b) (contexts b) x (gains b)
            (timers b) (next_timer b).
Definition set_gains (x : list Gain) (b : Browser) : Browser :=
  mkBrowser (clock b) (faults b) (sampleRate b) (contexts b) (sources b) x
            (timers b) (next_timer b).
Definition set_timers (x : list Timer) (b : Browser) : Browser :=
  mkBrowser (clock b) (faults b) (sampleRate b) (contexts b) (sources b)
            (gains b) x (next_timer b).
Definition set_next_timer (x : positive) (b : Browser) : Browser :=
  mkBrowser (clock b) (faults b) (sampleRate b) (contexts b) (sources b)
            (gains b) (timers b) x.

Definition set_ctx (x : option nat) (e : Engine) : Engine :=
  mkEngine x (muted e) (activeOscillators e) (bgOscillators e) (bgPlaying e)
           (heartbeatInterval e) (bgInterval e) (bgStep e) (currentMusicType e).
Definition set_muted (x : bool) (e : Engine) : Engine :=
  mkEngine (ctx e) x (activeOscillators e) (bgOscillators e) (bgPlaying e)
           (heartbeatInterval e) (bgInterval e) (bgStep e) (currentMusicType e).
Definition set_activeOscillators (x : list nat) (e : Engine) : Engine :=
  mkEngine (ctx e) (muted e) x (bgOscillators e) (bgPlaying e)
           (heartbeatInterval e) (bgInterval e) (bgStep e) (currentMusicType e).
Definition set_bgOscillators (x : list nat) (e : Engine) : Engine :=
  mkEngine (ctx e) (muted e) (activeOscillators e) x (bgPlaying e)
           (heartbeatInterval e) (bgInterval e) (bgStep e) (currentMusicType e).
Definition set_bgPlaying (x : bool) (e : Engine) : Engine :=
  mkEngine (ctx e) (muted e) (activeOscillators e) (bgOscillators e) x
           (heartbeatInterval e) (bgInterval e) (bgStep e) (currentMusicType e).
Definition set_heartbeatInterval (x : option positive) (e : Engine) : Engine :=
  mkEngine (ctx e) (muted e) (activeOscillators e) (bgOscillators e)
           (bgPlaying e) x (bgInterval e) (bgStep e) (currentMusicType e).
Definition set_bgInterval (x : option positive) (e : Engine) : Engine :=
  mkEngine (ctx e) (muted e) (activeOscillators e) (bgOscillators e)
           (bgPlaying e) (heartbeatInterval e) x (bgStep e) (currentMusicType e).
Definition set_bgStep (x : N) (e : Engine) : Engine :=
  mkEngine (ctx e) (muted e) (activeOscillators e) (bgOscillators e)
           (bgPlaying e) (heartbeatInterval e) (bgInterval e) x
           (currentMusicType e).
Definition set_currentMusicType (x : MusicType) (e : Engine) : Engine :=
  mkEngine (ctx e) (muted e) (activeOscillators e) (bgOscillators e)
           (bgPlaying e) (heartbeatInterval e) (bgInterval e) (bgStep e) x.

Definition on_eng (f : Engine -> Engine) (w : World) : World :=
  mkWorld (f (eng w)) (env w).
Definition on_env (f : Browser -> Browser) (w : World) : World :=
  mkWorld (eng w) (f (env w)).

(* ------------------------------------------------------------------ *)
(** ** The monad of JavaScript statements

    A statement runs on the world and completes normally with a value or
    abruptly by throwing; the changes made before a throw stay. *)

Inductive Completion (A : Type) := Normal (a : A) | Throw.
Arguments Throw {A}.

Definition JS (A : Type) := World -> Completion A * World.

Definition ret {A} (a : A) : JS A := fun w => (Normal a, w).
Definition throw {A} : JS A := fun w => (Throw, w).
Definition bind {A B} (m : JS A) (k : A -> JS B) : JS B :=
  fun w => match m w with
           | (Normal a, w') => k a w'
           | (Throw, w') => (Throw, w')
           end.

Declare Scope js_scope.
Delimit Scope js_scope with js.
Bind Scope js_scope with JS.
Notation "x <- m ;; k" := (bind m (fun x => k))
  (at level 61, m at next level, right associativity) : js_scope.
Notation "m ;; k" := (bind m (fun _ => k))
  (at level 61, right associativity) : js_scope.
Open Scope js_scope.

(** [try { m } catch (e) { }] *)
Definition tryCatch {A} (m : JS A) : JS unit :=
  fun w => (Normal tt, snd (m w)).

Definition getE {A} (f : Engine -> A) : JS A := fun w => (Normal (f (eng w)), w).
Definition modE (f : Engine -> Engine) : JS unit := fun w => (Normal tt, on_eng f w).
Definition getB {A} (f : Browser -> A) : JS A := fun w => (Normal (f (env w)), w).
Definition modB (f : Browser -> Browser) : JS unit := fun w => (Normal tt, on_env f w).

(** [l.forEach((x, i) => body)], the index starting at [i]. *)
Fixpoint forEach {A} (l : list A) (i : nat) (body : A -> nat -> JS unit) : JS unit :=
  match l with
  | [] => ret tt
  | x :: l' => body x i ;; forEach l' (S i) body
  end.

(* ------------------------------------------------------------------ *)
(** ** The browser's side: Web Audio calls and timers *)

(** Every call into the Web Audio API starts here: it throws when the
    browser says so. *)
Definition api : JS unit := fun w =>
  (if hd false (faults (env w)) then Throw else Normal tt,
   on_env (set_faults (tl (faults (env w)))) w).

(** In-place change of the node of index [i]; the table is left as it is
    when there is no such node. *)
Fixpoint upd {A} (i : nat) (f : A -> A) (l : list A) : list A :=
  match l, i with
  | [], _ => []
  | x :: l', O => f x :: l'
  | x :: l', S i' => x :: upd i' f l'
  end.

Definition new_oscillator : Source :=
  mkSource OscillatorNode sine [] None None None None None false.
Definition new_bufferSource : Source :=
  mkSource AudioBufferSourceNode sine [] None None None None None false.
Definition new_gain : Gain := mkGain [] false.

Definition with_type (x : OscillatorType) (s : Source) : Source :=
  mkSource (s_kind s) x (s_frequency s) (s_buffer s) (s_out s) (s_start s)
           (s_stop s) (s_onended s) (s_ended s).
Definition with_frequency (x : list Automation) (s : Source) : Source :=
  mkSource (s_kind s) (s_type s) x (s_buffer s) (s_out s) (s_start s)
           (s_stop s) (s_onended s) (s_ended s).
Definition with_buffer (x : option Q) (s : Source) : Source :=
  mkSource (s_kind s) (s_type s) (s_frequency s) x (s_out s) (s_start s)
           (s_stop s) (s_onended s) (s_ended s).
Definition with_out (x : option nat) (s : Source) : Source :=
  mkSource (s_kind s) (s_type s) (s_frequency s) (s_buffer s) x (s_start s)
           (s_stop s) (s_onended s) (s_ended s).
Definition with_start (x : option Q) (s : Source) : Source :=
  mkSource (s_kind s) (s_type s) (s_frequency s) (s_buffer s) (s_out s) x
           (s_stop s) (s_onended s) (s_ended s).
Definition with_stop (x : option Q) (s : Source) : Source :=
  mkSource (s_kind s) (s_type s) (s_frequency s) (s_buffer s) (s_out s)
           (s_start s) x (s_onended s) (s_ended s).
Definition with_onended (x : option Handler) (s : Source) : Source :=
  mkSource (s_kind s) (s_type s) (s_frequency s) (s_buffer s) (s_out s)
           (s_start s) (s_stop s) x (s_ended s).
Definition with_ended (x : bool) (s : Source) : Source :=
  mkSource (s_kind s) (s_type s) (s_frequency s) (s_buffer s) (s_out s)
           (s_start s) (s_stop s) (s_onended s) x.

Definition upd_source (o : nat) (f : Source -> Source) : JS unit :=
  modB (fun b => set_sources (upd o f (sources b)) b).
Definition upd_gain (g : nat) (f : Gain -> Gain) : JS unit :=
  modB (fun b => set_gains (upd g f (gains b)) b).

(** The node behind a reference; a reference the engine holds always
    names a node, [new_oscillator] stands for the impossible miss. *)
Definition source (o : nat) : JS Source :=
  getB (fun b => nth o (sources b) new_oscillator).

(** [new (window.AudioContext || window.webkitAudioContext)()] *)
Definition newAudioContext : JS nat :=
  api ;;
  c <- getB (fun b => length (contexts b)) ;;
  modB (fun b => set_contexts (contexts b ++ [running]) b) ;;
  ret c.

(** [c.state] *)
Definition state (c : nat) : JS ContextState :=
  getB (fun b => nth c (contexts b) running).

(** [c.resume()] *)
Definition resume (c : nat) : JS unit :=
  api ;;
  modB (fun b => set_contexts (upd c (fun _ => running) (contexts b)) b).

(** [c.currentTime], in seconds. *)
Definition seconds (ms : N) : Q := Z.of_N ms # 1000.
Definition currentTime (c : nat) : JS Q :=
  getB (fun b => seconds (clock b)).

(** [c.sampleRate] *)
Definition getSampleRate (c : nat) : JS Q := getB sampleRate.

(** [c.createOscillator()], [c.createBufferSource()], [c.createGain()] *)
Definition createOscillator (c : nat) : JS nat :=
  api ;;
  o <- getB (fun b => length (sources b)) ;;
  modB (fun b => set_sources (sources b ++ [new_oscillator]) b) ;;
  ret o.
Definition createBufferSource (c : nat) : JS nat :=
  api ;;
  o <- getB (fun b => length (sources b)) ;;
  modB (fun b => set_sources (sources b ++ [new_bufferSource]) b) ;;
  ret o.
Definition createGain (c : nat) : JS nat :=
  api ;;
  g <- getB (fun b => length (gains b)) ;;
  modB (fun b => set_gains (gains b ++ [new_gain]) b) ;;
  ret g.

(** [c.createBuffer(1, bufSize, c.sampleRate)] followed by
    [buffer.getChannelData(0)] and the loop that fills the channel with
    [Math.random() * 2 - 1]: the samples are not modelled, a buffer is its
    length. *)
Definition createBuffer (c : nat) (bufSize rate : Q) : JS Q := api ;; ret bufSize.
Definition getChannelData (buffer : Q) : JS unit := api.

(** [o.frequency.<call>(v, t)] and [g.gain.<call>(v, t)] *)
Definition frequency (o : nat) (a : Automation) : JS unit :=
  api ;; upd_source o (fun s => with_frequency (s_frequency s ++ [a]) s).
Definition gain (g : nat) (a : Automation) : JS unit :=
  api ;; upd_gain g (fun x => mkGain (g_gain x ++ [a]) (g_out x)).

(** [o.connect(g)] and [g.connect(c.destination)] *)
Definition connect (o g : nat) : JS unit :=
  api ;; upd_source o (with_out (Some g)).
Definition connect_destination (g : nat) : JS unit :=
  api ;; upd_gain g (fun x => mkGain (g_gain x) true).

(** [o.start(when)]: a second [start] on a node is an InvalidStateError. *)
Definition start (o : nat) (when : Q) : JS unit :=
  api ;;
  s <- source o ;;
  match s_start s with
  | Some _ => throw
  | None => upd_source o (with_start (Some when))
  end.

(** [o.stop(when)] and [o.stop()]: an InvalidStateError before [start];
    without effect on a node that has ended; otherwise the node stops at
    [when], at once when no time is given. *)
Definition stop (o : nat) (when : option Q) : JS unit :=
  api ;;
  s <- source o ;;
  now <- getB (fun b => seconds (clock b)) ;;
  match s_start s with
  | None => throw
  | Some _ =>
      if s_ended s then ret tt
      else upd_source o (with_stop (Some (match when with Some t => t | None => now end)))
  end.

(** Property assignments: [o.type = x], [noise.buffer = x], [o.onended = x]. *)
Definition set_type (o : nat) (x : OscillatorType) : JS unit :=
  upd_source o (with_type x).
Definition set_buffer (o : nat) (x : Q) : JS unit :=
  upd_source o (with_buffer (Some x)).
Definition set_onended (o : nat) (h : Handler) : JS unit :=
  upd_source o (with_onended (Some h)).

(** [setInterval(cb, ms)] returns a fresh positive handle;
    [clearInterval(id)] removes the timer of that handle, if any. *)
Definition setInterval (cb : Callback) (ms : N) : JS positive :=
  id <- getB next_timer ;;
  modB (fun b => set_next_timer (Pos.succ id)
                  (set_timers (timers b ++ [mkTimer id cb ms (clock b + ms)]) b)) ;;
  ret id.
Definition clearInterval (id : positive) : JS unit :=
  modB (fun b => set_timers (filter (fun t => negb (Pos.eqb (t_id t) id)) (timers b)) b).

(* ------------------------------------------------------------------ *)
(** ** The engine (src/app.js, lines 53-316) *)

Local Open Scope Q_scope.

(** A JavaScript index used as a number. *)
Definition num (i : nat) : Q := inject_Z (Z.of_nat i).

Definition push_active (o : nat) : JS unit :=
  modE (fun e => set_activeOscillators (activeOscillators e ++ [o]) e).
Definition push_bg (os : list nat) : JS unit :=
  modE (fun e => set_bgOscillators (bgOscillators e ++ os) e).

(** [getCtx] (lines 53-57) *)
Definition getCtx : JS nat :=
  c0 <- getE ctx ;;
  c <- match c0 with
       | Some c => ret c
       | None => c <- newAudioContext ;; modE (set_ctx (Some c)) ;; ret c
       end ;;
  st <- state c ;;
  match st with suspended => resume c | running => ret tt end ;;
  ret c.

(** [osc(type, freq, duration, volume = 0.1, rampFreq = null)]
    (lines 59-77); [None] is an argument left out. *)
Definition osc (type : OscillatorType) (freq duration : Q)
    (volume rampFreq : option Q) : JS unit :=
  let volume := match volume with Some v => v | None => 0.1 end in
  m <- getE muted ;;
  if m then ret tt else
  tryCatch (
    c <- getCtx ;;
    o <- createOscillator c ;;
    g <- createGain c ;;
    set_type o type ;;
    t <- currentTime c ;;
    frequency o (setValueAtTime freq t) ;;
    match rampFreq with
    | Some r => frequency o (exponentialRampToValueAtTime r (t + duration))
    | None => ret tt
    end ;;
    gain g (setValueAtTime volume t) ;;
    gain g (exponentialRampToValueAtTime 0.001 (t + duration)) ;;
    connect o g ;;
    connect_destination g ;;
    start o t ;;
    stop o (Some (t + duration)) ;;
    push_active o ;;
    set_onended o (FilterActive o)).

(** [click] (line 88) *)
Definition click : JS unit := osc sine 1000 0.05 (Some 0.08) None.

(** [correct] (lines 91-111) *)
Definition correct : JS unit :=
  m <- getE muted ;;
  if m then ret tt else
  tryCatch (
    c <- getCtx ;;
    t <- currentTime c ;;
    forEach [523; 784] 0 (fun f i =>
      o <- createOscillator c ;;
      g <- createGain c ;;
      set_type o sine ;;
      frequency o (setValueAtTime f t) ;;
      gain g (setValueAtTime 0.12 (t + num i * 0.08)) ;;
      gain g (exponentialRampToValueAtTime 0.001 (t + num i * 0.08 + 0.12)) ;;
      connect o g ;; connect_destination g ;;
      start o (t + num i * 0.08) ;;
      stop o (Some (t + num i * 0.08 + 0.12)) ;;
      push_active o ;;
      set_onended o (FilterActive o))).

(** [wrong], [tick] (lines 114, 117) *)
Definition wrong : JS unit := osc sawtooth 200 0.25 (Some 0.1) None.
Definition tick : JS unit := osc sine 800 0.03 (Some 0.06) None.

(** [heartbeat] (lines 120-139) *)
Definition heartbeat : JS unit :=
  m <- getE muted ;;
  if m then ret tt else
  tryCatch (
    c <- getCtx ;;
    t <- currentTime c ;;
    forEach [0; 0.15] 0 (fun delay _ =>
      o <- createOscillator c ;;
      g <- createGain c ;;
      set_type o sine ;;
      frequency o (setValueAtTime 60 (t + delay)) ;;
      gain g (setValueAtTime 0.2 (t + delay)) ;;
      gain g (exponentialRampToValueAtTime 0.001 (t + delay + 0.15)) ;;
      connect o g ;; connect_destination g ;;
      start o (t + delay) ;;
      stop o (Some (t + delay + 0.15)) ;;
      push_active o ;;
      set_onended o (FilterActive o))).

(** [startHeartbeatLoop], [stopHeartbeatLoop] (lines 142-149).  A timer
    handle is a positive number, hence truthy. *)
Definition startHeartbeatLoop : JS unit :=
  h <- getE heartbeatInterval ;;
  match h with
  | Some _ => ret tt
  | None =>
      heartbeat ;;
      id <- setInterval cbHeartbeat 800 ;;
      modE (set_heartbeatInterval (Some id))
  end.

Definition stopHeartbeatLoop : JS unit :=
  h <- getE heartbeatInterval ;;
  match h with
  | Some id => clearInterval id ;; modE (set_heartbeatInterval None)
  | None => ret tt
  end.

(** [lightBeep], [goBurst], [falseStart] (lines 152, 155, 158) *)
Definition lightBeep : JS unit := osc sine 440 0.1 (Some 0.1) None.
Definition goBurst : JS unit := osc sine 1200 0.3 (Some 0.15) (Some 600).
Definition falseStart : JS unit := osc square 150 0.5 (Some 0.12) None.

(** [fanfare] (lines 161-181) *)
Definition fanfare : JS unit :=
  m <- getE muted ;;
  if m then ret tt else
  tryCatch (
    c <- getCtx ;;
    t <- currentTime c ;;
    forEach [523; 659; 784; 1047] 0 (fun f i =>
      o <- createOscillator c ;;
      g <- createGain c ;;
      set_type o sine ;;
      frequency o (setValueAtTime f t) ;;
      gain g (setValueAtTime 0 t) ;;
      gain g (linearRampToValueAtTime 0.12 (t + num i * 0.12 + 0.01)) ;;
      gain g (exponentialRampToValueAtTime 0.001 (t + num i * 0.12 + 0.2)) ;;
      connect o g ;; connect_destination g ;;
      start o (t + num i * 0.12) ;;
      stop o (Some (t + num i * 0.12 + 0.2)) ;;
      push_active o ;;
      set_onended o (FilterActive o))).

(** The constants of [startBgMusic] (lines 196-212). *)
Definition lobbySequence : list Q :=
  [130.81; 164.81; 196.00; 261.63;
   98.00; 146.83; 196.00; 246.94;
   110.00; 164.81; 220.00; 261.63;
   87.31; 130.81; 196.00; 220.00].
Definition suspenseSequence : list Q :=
  [55.00; 82.41;
   110.00; 130.81;
   55.00; 73.42;
   110.00; 146.83].
Definition sequence (type : string) : list Q :=
  if String.eqb type "lobby" then lobbySequence else suspenseSequence.
Definition interval (type : string) : N :=
  if String.eqb type "lobby" then 250%N else 1500%N.

(** [playGuitarPluck(f, vol, dcy)] (lines 218-262) *)
Definition playGuitarPluck (c : nat) (f vol dcy : Q) : JS unit :=
  o <- createOscillator c ;;
  g <- createGain c ;;
  set_type o triangle ;;
  t <- currentTime c ;;
  frequency o (setValueAtTime f t) ;;
  oh <- createOscillator c ;;
  gh <- createGain c ;;
  set_type oh triangle ;;
  frequency oh (setValueAtTime (f * 2) t) ;;
  let attack := 0.01 in
  gain g (setValueAtTime 0 t) ;;
  gain g (linearRampToValueAtTime vol (t + attack)) ;;
  gain g (exponentialRampToValueAtTime 0.001 (t + dcy)) ;;
  gain gh (setValueAtTime 0 t) ;;
  gain gh (linearRampToValueAtTime (vol * 0.4) (t + attack)) ;;
  gain gh (exponentialRampToValueAtTime 0.001 (t + dcy * 0.8)) ;;
  rate <- getSampleRate c ;;
  let bufSize := rate * 0.02 in
  buffer <- createBuffer c bufSize rate ;;
  getChannelData buffer ;;
  noise <- createBufferSource c ;;
  nGain <- createGain c ;;
  set_buffer noise buffer ;;
  gain nGain (setValueAtTime (vol * 0.2) t) ;;
  gain nGain (exponentialRampToValueAtTime 0.001 (t + 0.02)) ;;
  connect o g ;; connect_destination g ;;
  connect oh gh ;; connect_destination gh ;;
  connect noise nGain ;; connect_destination nGain ;;
  start o t ;; stop o (Some (t + dcy)) ;;
  start oh t ;; stop oh (Some (t + dcy)) ;;
  start noise t ;;
  push_bg [o; oh] ;;
  set_onended o (FilterBg [o; oh]).

(** [playNote], the closure of lines 214-295, with the [c] and [type] it
    captured from its [startBgMusic] call. *)
Definition playNote (c : nat) (type : string) : JS unit :=
  m <- getE muted ;;
  p <- getE bgPlaying ;;
  if m || negb p then ret tt else
  step <- getE bgStep ;;
  let freq := nth (N.to_nat (step mod N.of_nat (length (sequence type))))
                  (sequence type) 0 in
  (if String.eqb type "lobby" then
     playGuitarPluck c freq 0.04 3.0
   else
     o <- createOscillator c ;;
     g <- createGain c ;;
     set_type o sine ;;
     t <- currentTime c ;;
     frequency o (setValueAtTime freq t) ;;
     (if (step mod 4 =? 0)%N then
        highO <- createOscillator c ;;
        highG <- createGain c ;;
        set_type highO sine ;;
        frequency highO (setValueAtTime (freq * 4) t) ;;
        gain highG (setValueAtTime 0 t) ;;
        gain highG (linearRampToValueAtTime 0.015 (t + 1.0)) ;;
        gain highG (exponentialRampToValueAtTime 0.001 (t + 4.0)) ;;
        connect highO highG ;; connect_destination highG ;;
        start highO t ;; stop highO (Some (t + 4.0))
      else ret tt) ;;
     gain g (setValueAtTime 0 t) ;;
     gain g (linearRampToValueAtTime 0.05 (t + 0.2)) ;;
     gain g (exponentialRampToValueAtTime 0.001 (t + 4.0)) ;;
     connect o g ;; connect_destination g ;;
     start o t ;; stop o (Some (t + 4.0)) ;;
     push_bg [o] ;;
     set_onended o (FilterBg [o])) ;;
  modE (fun e => set_bgStep (bgStep e + 1)%N e).

(** [stopBgMusic] (lines 301-307) *)
Definition stopBgMusic : JS unit :=
  i <- getE bgInterval ;;
  match i with
  | Some id => clearInterval id ;; modE (set_bgInterval None)
  | None => ret tt
  end ;;
  os <- getE bgOscillators ;;
  forEach os 0 (fun o _ => tryCatch (stop o None)) ;;
  modE (set_bgOscillators []) ;;
  modE (set_bgPlaying false) ;;
  modE (set_currentMusicType Null).

Definition same_type (m : MusicType) (type : string) : bool :=
  match m with Str s => String.eqb s type | _ => false end.

(** [startBgMusic(type = 'lobby')] (lines 184-300) *)
Definition startBgMusic (type : option string) : JS unit :=
  let type := match type with Some s => s | None => "lobby"%string end in
  m <- getE muted ;;
  if m then ret tt else
  p <- getE bgPlaying ;;
  cur <- getE currentMusicType ;;
  if p && same_type cur type then ret tt else
  (if p then stopBgMusic else ret tt) ;;
  tryCatch (
    c <- getCtx ;;
    modE (set_bgPlaying true) ;;
    modE (set_currentMusicType (Str type)) ;;
    modE (set_bgStep 0%N) ;;
    playNote c type ;;
    id <- setInterval (cbPlayNote c type) (interval type) ;;
    modE (set_bgInterval (Some id))).

(** [stopAll] (lines 310-315) *)
Definition stopAll : JS unit :=
  stopHeartbeatLoop ;;
  stopBgMusic ;;
  os <- getE activeOscillators ;;
  forEach os 0 (fun o _ => tryCatch (stop o None)) ;;
  modE (set_activeOscillators []).

(** [toggleMute] (lines 81-85) and the getter [muted] (line 80) *)
Definition toggleMute : JS bool :=
  modE (fun e => set_muted (negb (muted e)) e) ;;
  m <- getE muted ;;
  (if m then stopAll else ret tt) ;;
  getE muted.

Definition get_muted : JS bool := getE muted.

Close Scope Q_scope.

(* ------------------------------------------------------------------ *)
(** ** The event loop: ended events, timers, the passing of time *)

(** A task of the event loop: an exception that escapes a callback is
    reported on the console and goes no further. *)
Definition task (m : JS unit) : JS unit := tryCatch m.

Definition run_handler (h : Handler) : JS unit :=
  match h with
  | FilterActive o =>
      modE (fun e => set_activeOscillators
                       (filter (fun x => negb (Nat.eqb x o)) (activeOscillators e)) e)
  | FilterBg os =>
      modE (fun e => set_bgOscillators
                       (filter (fun x => forallb (fun o => negb (Nat.eqb x o)) os)
                               (bgOscillators e)) e)
  end.

(** Has the started source [s] played to its end at audio time [now]:
    its stop time has come, or its buffer has run out. *)
Definition ended_by (rate now : Q) (s : Source) : bool :=
  match s_start s with
  | None => false
  | Some t0 =>
      match s_stop s with Some t => Qle_bool t now | None => false end
      || match s_kind s, s_buffer s with
         | AudioBufferSourceNode, Some len => Qle_bool (t0 + len / rate)%Q now
         | _, _ => false
         end
  end.

(** The ended event of source [o], dispatched once. *)
Definition dispatch (o : nat) : JS unit :=
  s <- source o ;;
  now <- getB (fun b => seconds (clock b)) ;;
  rate <- getB sampleRate ;;
  if negb (s_ended s) && ended_by rate now s then
    upd_source o (with_ended true) ;;
    match s_onended s with
    | Some h => task (run_handler h)
    | None => ret tt
    end
  else ret tt.

Definition dispatch_ended : JS unit :=
  n <- getB (fun b => length (sources b)) ;;
  forEach (seq 0 n) 0 (fun o _ => dispatch o).

Definition run_callback (cb : Callback) : JS unit :=
  match cb with
  | cbHeartbeat => heartbeat
  | cbPlayNote c type => playNote c type
  end.

Definition rearm (id : positive) (b : Browser) : Browser :=
  set_timers (map (fun t => if Pos.eqb (t_id t) id
                            then mkTimer (t_id t) (t_callback t) (t_interval t)
                                         (t_due t + t_interval t)
                            else t) (timers b)) b.

(** The timer of handle [id] fires if it is live and due. *)
Definition fire (id : positive) : JS unit :=
  ot <- getB (fun b => find (fun t => Pos.eqb (t_id t) id) (timers b)) ;;
  now <- getB clock ;;
  match ot with
  | Some t =>
      if (t_due t <=? now)%N then
        modB (rearm id) ;; task (run_callback (t_callback t))
      else ret tt
  | None => ret tt
  end.

Definition fire_timers : JS unit :=
  ids <- getB (fun b => map t_id (timers b)) ;;
  forEach ids 0 (fun id _ => fire id).

(** One millisecond passes: the ended events that are due are dispatched,
    then the timers that are due fire, oldest first. *)
Definition millisecond (w : World) : World :=
  snd ((modB (fun b => set_clock (clock b + 1)%N b) ;;
        dispatch_ended ;;
        fire_timers) w).

Definition elapse (ms : N) (w : World) : World := N.iter ms millisecond w.

(** The browser suspends the audio contexts (power saving). *)
Definition suspend (w : World) : World :=
  on_env (fun b => set_contexts (map (fun _ => suspended) (contexts b)) b) w.

(** ** Traces of the engine *)

(** The public methods of [SoundEngine]. *)
Inductive Method :=
| toggleMute' | click' | correct' | wrong' | tick' | heartbeat'
| startHeartbeatLoop' | stopHeartbeatLoop' | lightBeep' | goBurst'
| falseStart' | fanfare' | startBgMusic' (type : option string)
| stopBgMusic' | stopAll'.

Definition invoke (m : Method) : JS unit :=
  match m with
  | toggleMute' => toggleMute ;; ret tt
  | click' => click
  | correct' => correct
  | wrong' => wrong
  | tick' => tick
  | heartbeat' => heartbeat
  | startHeartbeatLoop' => startHeartbeatLoop
  | stopHeartbeatLoop' => stopHeartbeatLoop
  | lightBeep' => lightBeep
  | goBurst' => goBurst
  | falseStart' => falseStart
  | fanfare' => fanfare
  | startBgMusic' type => startBgMusic type
  | stopBgMusic' => stopBgMusic
  | stopAll' => stopAll
  end.

(** What can happen to an engine: the game calls a method, time passes,
    the browser suspends the audio context. *)
Inductive Event :=
| Call (m : Method)
| Elapse (ms : N)
| Suspend.

Definition step (w : World) (e : Event) : World :=
  match e with
  | Call m => snd (invoke m w)
  | Elapse ms => elapse ms w
  | Suspend => suspend w
  end.

Definition run (es : list Event) (w : World) : World := fold_left step es w.

(** The engine when the page has loaded (lines 43-51), in a browser with
    the given sample rate and the given outcomes of the Web Audio calls to
    come. *)
Definition init_engine : Engine :=
  mkEngine None false [] [] false None None 0%N Undefined.
Definition init (rate : Q) (fs : list bool) : World :=
  mkWorld init_engine (mkBrowser 0%N fs rate [] [] [] [] 1%positive).

(** The states an engine can be in. *)
Definition reachable (w : World) : Prop :=
  exists rate fs es, w = run es (init rate fs).

(* ================================================================== *)
(** * Reasoning about the engine *)

(** ** Running a statement symbolically

    The combinators, the browser's calls and the field updates unfold under
    [cbn] once they are applied to a world. *)

Arguments bind {A B} m k _ /.
Arguments ret {A} a _ /.
Arguments throw {A} _ /.
Arguments tryCatch {A} m _ /.
Arguments task m _ /.
Arguments getE {A} f _ /.
Arguments modE f _ /.
Arguments getB {A} f _ /.
Arguments modB f _ /.
Arguments api _ /.
Arguments on_eng f w /.
Arguments on_env f w /.
Arguments upd_source o f _ /.
Arguments upd_gain g f _ /.
Arguments source o _ /.
Arguments newAudioContext _ /.
Arguments state c _ /.
Arguments resume c _ /.
Arguments currentTime c _ /.
Arguments getSampleRate c _ /.
Arguments createOscillator c _ /.
Arguments createBufferSource c _ /.
Arguments createGain c _ /.
Arguments createBuffer c bufSize rate _ /.
Arguments getChannelData buffer _ /.
Arguments frequency o a _ /.
Arguments gain g a _ /.
Arguments connect o g _ /.
Arguments connect_destination g _ /.
Arguments start o when _ /.
Arguments stop o when _ /.
Arguments set_type o x _ /.
Arguments set_buffer o x _ /.
Arguments set_onended o h _ /.
Arguments setInterval cb ms _ /.
Arguments clearInterval id _ /.
Arguments push_active o _ /.
Arguments push_bg os _ /.
Arguments run_handler h _ /.
Arguments set_clock x b /.
Arguments set_faults x b /.
Arguments set_contexts x b /.
Arguments set_sources x b /.
Arguments set_gains x b /.
Arguments set_timers x b /.
Arguments set_next_timer x b /.
Arguments set_ctx x e /.
Arguments set_muted x e /.
Arguments set_activeOscillators x e /.
Arguments set_bgOscillators x e /.
Arguments set_bgPlaying x e /.
Arguments set_heartbeatInterval x e /.
Arguments set_bgInterval x e /.
Arguments set_bgStep x e /.
Arguments set_currentMusicType x e /.
Arguments with_type x s /.
Arguments with_frequency x s /.
Arguments with_buffer x s /.
Arguments with_out x s /.
Arguments with_start x s /.
Arguments with_stop x s /.
Arguments with_onended x s /.
Arguments with_ended x s /.

(** ** Tables of nodes *)

Section Tables.
Context {A : Type}.
Implicit Types (l r : list A) (f : A -> A).

Lemma upd_length i f l : length (upd i f l) = length l.
Proof.
  revert i; induction l as [|x l IH]; intros [|i]; simpl; auto.
Qed.

Lemma upd_app_plus l r k f :
  upd (length l + k) f (l ++ r) = l ++ upd k f r.
Proof. induction l; simpl; [reflexivity | f_equal; auto]. Qed.

Lemma upd_app_0 l r f : upd (length l) f (l ++ r) = l ++ upd 0 f r.
Proof. rewrite <- (Nat.add_0_r (length l)) at 1. apply upd_app_plus. Qed.

Lemma nth_app_0 l r d : nth (length l) (l ++ r) d = nth 0 r d.
Proof. rewrite <- (Nat.add_0_r (length l)) at 1. apply app_nth2_plus. Qed.

Lemma nth_upd_same i f l d :
  i < length l -> nth i (upd i f l) d = f (nth i l d).
Proof.
  revert i; induction l as [|x l IH]; intros [|i] H; simpl in *;
    try lia; auto.
  apply IH; lia.
Qed.

Lemma nth_upd_other i j f l d : i <> j -> nth j (upd i f l) d = nth j l d.
Proof.
  revert i j; induction l as [|x l IH]; intros [|i] [|j] H; simpl;
    try congruence; auto.
Qed.

Lemma map_upd {B} (p : A -> B) i f l :
  (forall x, p (f x) = p x) -> map p (upd i f l) = map p l.
Proof.
  intros H; revert i; induction l as [|x l IH]; intros [|i]; simpl;
    rewrite ?H, ?IH; auto.
Qed.
End Tables.

(** Bringing a table back to the shape [old ++ fresh nodes]. *)
Ltac norm :=
  repeat (rewrite ?upd_app_plus, ?upd_app_0, ?nth_app_0, ?app_nth2_plus,
            ?length_app, <- ?app_assoc; cbn).

(** The next Web Audio call throws or it does not. *)
Ltac fault :=
  match goal with
  | |- context [hd false ?fs] => destruct (hd false fs)
  end.

Ltac execute := repeat (norm; try fault).

(** ** What holds after a statement, however it completes *)

Definition preserves {A} (P : World -> Prop) (m : JS A) : Prop :=
  forall w, P w -> P (snd (m w)).

Section Preserves.
Context (P : World -> Prop).

Lemma preserves_ret {A} (a : A) : preserves P (ret a).
Proof. intros w H; exact H. Qed.

Lemma preserves_bind {A B} (m : JS A) (k : A -> JS B) :
  preserves P m -> (forall a, preserves P (k a)) -> preserves P (bind m k).
Proof.
  intros Hm Hk w H. specialize (Hm w H). unfold bind.
  destruct (m w) as [[a|] w1]; simpl in *; auto. now apply Hk.
Qed.

Lemma preserves_tryCatch {A} (m : JS A) :
  preserves P m -> preserves P (tryCatch m).
Proof. intros Hm w H. exact (Hm w H). Qed.

Lemma preserves_forEach {A} (l : list A) body :
  (forall x i, preserves P (body x i)) ->
  forall i, preserves P (forEach l i body).
Proof.
  intros Hb; induction l as [|x l IH]; intros i; simpl.
  - apply preserves_ret.
  - apply preserves_bind; auto.
Qed.

Lemma preserves_getE {A} (f : Engine -> A) : preserves P (getE f).
Proof. intros w H; exact H. Qed.

Lemma preserves_getB {A} (f : Browser -> A) : preserves P (getB f).
Proof. intros w H; exact H. Qed.
End Preserves.

(** A relation between the worlds before and after holds of a statement. *)
Definition relates {A} (R : World -> World -> Prop) (m : JS A) : Prop :=
  forall w, R w (snd (m w)).

Section Relates.
Context (R : World -> World -> Prop).
Hypothesis R_refl : forall w, R w w.
Hypothesis R_trans : forall a b c, R a b -> R b c -> R a c.

Lemma relates_ret {A} (a : A) : relates R (ret a).
Proof. intros w; apply R_refl. Qed.

Lemma relates_bind {A B} (m : JS A) (k : A -> JS B) :
  relates R m -> (forall a, relates R (k a)) -> relates R (bind m k).
Proof.
  intros Hm Hk w. specialize (Hm w). unfold bind.
  destruct (m w) as [[a|] w1]; simpl in *; auto.
  eapply R_trans; [exact Hm | apply Hk].
Qed.

Lemma relates_tryCatch {A} (m : JS A) : relates R m -> relates R (tryCatch m).
Proof. intros Hm w. exact (Hm w). Qed.

Lemma relates_forEach {A} (l : list A) body :
  (forall x i, relates R (body x i)) ->
  forall i, relates R (forEach l i body).
Proof.
  intros Hb; induction l as [|x l IH]; intros i; simpl.
  - apply relates_ret.
  - apply relates_bind; auto.
Qed.

Lemma relates_getE {A} (f : Engine -> A) : relates R (getE f).
Proof. intros w; apply R_refl. Qed.

Lemma relates_getB {A} (f : Browser -> A) : relates R (getB f).
Proof. intros w; apply R_refl. Qed.
End Relates.

(** ** Voices and registries *)

(** The node behind a reference. *)
Definition node (w : World) (o : nat) : Source :=
  nth o (sources (env w)) new_oscillator.

Definition started (s : Source) : bool :=
  match s_start s with Some _ => true | None => false end.

Definition is_oscillator (s : Source) : bool :=
  match s_kind s with OscillatorNode => true | AudioBufferSourceNode => false end.

Definition is_triangle (s : Source) : bool :=
  match s_type s with triangle => true | _ => false end.

(** The voices of the lobby music: the two triangle oscillators of a
    plucked string and its noise burst.  Nothing else in the engine uses a
    triangle wave or a buffer source. *)
Definition lobby_voice (s : Source) : bool :=
  is_triangle s || negb (is_oscillator s).

(** A voice of a one-shot effect, once it is scheduled. *)
Definition effect_voice (s : Source) : bool :=
  started s && negb (lobby_voice s).

(** A voice of the background music the sequencer keeps track of. *)
Definition bg_voice (s : Source) : bool :=
  started s && is_oscillator s.

(** The part of a scheduled node that neither stopping nor ending changes. *)
Definition static (s : Source) : SourceKind * OscillatorType * bool * list Automation :=
  (s_kind s, s_type s, started s, s_frequency s).

Definition statics (w : World) :
  list (SourceKind * OscillatorType * bool * list Automation) :=
  map static (sources (env w)).

Lemma started_static s s' : static s = static s' -> started s = started s'.
Proof. unfold static; congruence. Qed.

Lemma frequency_static s s' :
  static s = static s' -> s_frequency s = s_frequency s'.
Proof. unfold static; congruence. Qed.

Lemma lobby_voice_static s s' :
  static s = static s' -> lobby_voice s = lobby_voice s'.
Proof.
  unfold static. intros H.
  assert (Hk : s_kind s = s_kind s') by congruence.
  assert (Ht : s_type s = s_type s') by congruence.
  unfold lobby_voice, is_triangle, is_oscillator. now rewrite Hk, Ht.
Qed.

Lemma effect_voice_static s s' :
  static s = static s' -> effect_voice s = effect_voice s'.
Proof.
  intros H; unfold effect_voice.
  now rewrite (started_static H), (lobby_voice_static H).
Qed.

Lemma static_nth l l' o :
  map static l = map static l' ->
  static (nth o l new_oscillator) = static (nth o l' new_oscillator).
Proof.
  intros H.
  rewrite <- (map_nth static l new_oscillator o),
          <- (map_nth static l' new_oscillator o).
  now rewrite H.
Qed.

Lemma started_in_range l o :
  started (nth o l new_oscillator) = true -> o < length l.
Proof.
  intros H. destruct (Nat.lt_ge_cases o (length l)) as [|Hge]; auto.
  rewrite (nth_overflow _ _ Hge) in H. discriminate.
Qed.

Lemma effect_voice_started s : effect_voice s = true -> started s = true.
Proof. unfold effect_voice; intros H; now apply andb_prop in H. Qed.

Lemma bg_voice_started s : bg_voice s = true -> started s = true.
Proof. unfold bg_voice; intros H; now apply andb_prop in H. Qed.

Lemma bg_voice_static s s' : static s = static s' -> bg_voice s = bg_voice s'.
Proof.
  unfold static. intros H.
  assert (Hk : s_kind s = s_kind s') by congruence.
  assert (Hs : started s = started s') by congruence.
  unfold bg_voice, is_oscillator. now rewrite Hk, Hs.
Qed.

(** The references of a registry name scheduled voices, those of the
    effect registry voices of one-shot effects. *)
Definition registries_ok (w : World) : Prop :=
  Forall (fun o => effect_voice (node w o) = true) (activeOscillators (eng w)) /\
  Forall (fun o => bg_voice (node w o) = true) (bgOscillators (eng w)).

(** ** Timers and handles *)

Definition is_heartbeat_timer (t : Timer) : bool :=
  match t_callback t with cbHeartbeat => true | cbPlayNote _ _ => false end.

Definition heartbeat_timers (w : World) : list Timer :=
  filter is_heartbeat_timer (timers (env w)).
Definition bg_timers (w : World) : list Timer :=
  filter (fun t => negb (is_heartbeat_timer t)) (timers (env w)).

(** The live timers are the ones the engine holds a handle of: at most one
    heartbeat trigger, of period 800 ms, and at most one sequencer; handles
    are fresh when they are handed out. *)
Record timers_ok (w : World) : Prop := mkTimersOk {
  to_fresh : Forall (fun t => (t_id t < next_timer (env w))%positive)
                    (timers (env w));
  to_heartbeat :
    match heartbeatInterval (eng w) with
    | None => heartbeat_timers w = []
    | Some i => exists due, heartbeat_timers w = [mkTimer i cbHeartbeat 800 due]
    end;
  to_bg :
    match bgInterval (eng w) with
    | None => bg_timers w = []
    | Some i => exists c type due,
        bg_timers w = [mkTimer i (cbPlayNote c type) (interval type) due]
    end;
  to_distinct : forall i, heartbeatInterval (eng w) = Some i ->
                          bgInterval (eng w) <> Some i
}.

Lemma timers_ok_ext w w' :
  heartbeatInterval (eng w') = heartbeatInterval (eng w) ->
  bgInterval (eng w') = bgInterval (eng w) ->
  timers (env w') = timers (env w) ->
  next_timer (env w') = next_timer (env w) ->
  timers_ok w -> timers_ok w'.
Proof.
  intros H1 H2 H3 H4 [T1 T2 T3 T4].
  constructor; unfold heartbeat_timers, bg_timers in *;
    rewrite ?H1, ?H2, ?H3, ?H4; auto.
Qed.

(** ** The invariant of the engine *)

Record Inv (w : World) : Prop := mkInv {
  inv_muted : muted (eng w) = true ->
              activeOscillators (eng w) = [] /\ bgOscillators (eng w) = [] /\
              bgPlaying (eng w) = false;
  inv_playing : bgPlaying (eng w) = false -> bgInterval (eng w) = None;
  inv_timers : timers_ok w;
  inv_registries : registries_ok w
}.

(** ** Two ways a world moves on

    [Grows]: nodes are created and configured, scheduled voices are
    registered; what existed is untouched.  Every synthesis recipe does
    that, whether it completes or throws half way. *)
Record Grows (w w' : World) : Prop := mkGrows {
  gr_muted : muted (eng w') = muted (eng w);
  gr_bgPlaying : bgPlaying (eng w') = bgPlaying (eng w);
  gr_heartbeatInterval : heartbeatInterval (eng w') = heartbeatInterval (eng w);
  gr_bgInterval : bgInterval (eng w') = bgInterval (eng w);
  gr_currentMusicType : currentMusicType (eng w') = currentMusicType (eng w);
  gr_timers : timers (env w') = timers (env w);
  gr_next_timer : next_timer (env w') = next_timer (env w);
  gr_clock : clock (env w') = clock (env w);
  gr_sampleRate : sampleRate (env w') = sampleRate (env w);
  gr_sources : exists new, sources (env w') = sources (env w) ++ new;
  gr_active : exists la,
      activeOscillators (eng w') = activeOscillators (eng w) ++ la /\
      Forall (fun o => length (sources (env w)) <= o /\
                       effect_voice (node w' o) = true) la;
  gr_bg : exists lb,
      bgOscillators (eng w') = bgOscillators (eng w) ++ lb /\
      Forall (fun o => length (sources (env w)) <= o /\
                       bg_voice (node w' o) = true) lb
}.

(** [Settles]: scheduled voices are stopped or end, references leave the
    registries; no node is created, no timer is touched. *)
Record Settles (w w' : World) : Prop := mkSettles {
  se_ctx : ctx (eng w') = ctx (eng w);
  se_muted : muted (eng w') = muted (eng w);
  se_bgPlaying : bgPlaying (eng w') = bgPlaying (eng w);
  se_heartbeatInterval : heartbeatInterval (eng w') = heartbeatInterval (eng w);
  se_bgInterval : bgInterval (eng w') = bgInterval (eng w);
  se_bgStep : bgStep (eng w') = bgStep (eng w);
  se_currentMusicType : currentMusicType (eng w') = currentMusicType (eng w);
  se_timers : timers (env w') = timers (env w);
  se_next_timer : next_timer (env w') = next_timer (env w);
  se_clock : clock (env w') = clock (env w);
  se_sampleRate : sampleRate (env w') = sampleRate (env w);
  se_contexts : contexts (env w') = contexts (env w);
  se_statics : statics w' = statics w;
  se_active : incl (activeOscillators (eng w')) (activeOscillators (eng w));
  se_bg : incl (bgOscillators (eng w')) (bgOscillators (eng w))
}.

Lemma node_app_old w l o :
  started (node w o) = true ->
  nth o (sources (env w) ++ l) new_oscillator = node w o.
Proof.
  intros H. apply app_nth1. now apply started_in_range.
Qed.

Lemma Grows_refl w : Grows w w.
Proof.
  constructor; auto.
  - exists []; now rewrite app_nil_r.
  - exists []; now rewrite app_nil_r.
  - exists []; now rewrite app_nil_r.
Qed.

Lemma Grows_node w w' o :
  Grows w w' -> started (node w o) = true -> node w' o = node w o.
Proof.
  intros [_ _ _ _ _ _ _ _ _ [new E] _ _] H.
  unfold node at 1. rewrite E. now apply node_app_old.
Qed.

Lemma Grows_length w w' :
  Grows w w' -> length (sources (env w)) <= length (sources (env w')).
Proof.
  intros [_ _ _ _ _ _ _ _ _ [new E] _ _]. rewrite E, length_app. lia.
Qed.

Lemma Grows_trans a b c : Grows a b -> Grows b c -> Grows a c.
Proof.
  intros Hab Hbc.
  pose proof (Grows_length Hab) as Hlen.
  destruct Hab as [? ? ? ? ? ? ? ? ? [n1 E1] [la1 [A1 F1]] [lb1 [B1 G1]]].
  pose proof (fun o => @Grows_node b c o Hbc) as Hnode.
  destruct Hbc as [? ? ? ? ? ? ? ? ? [n2 E2] [la2 [A2 F2]] [lb2 [B2 G2]]].
  constructor; try congruence.
  - exists (n1 ++ n2). now rewrite E2, E1, app_assoc.
  - exists (la1 ++ la2). split; [now rewrite A2, A1, app_assoc|].
    apply Forall_app; split.
    + eapply Forall_impl; [|exact F1]. intros o [Ho Hv]; split; auto.
      rewrite Hnode; auto. now apply effect_voice_started.
    + eapply Forall_impl; [|exact F2]. intros o [Ho Hv]; split; auto; lia.
  - exists (lb1 ++ lb2). split; [now rewrite B2, B1, app_assoc|].
    apply Forall_app; split.
    + eapply Forall_impl; [|exact G1]. intros o [Ho Hv]; split; auto.
      rewrite Hnode; auto. now apply bg_voice_started.
    + eapply Forall_impl; [|exact G2]. intros o [Ho Hv]; split; auto; lia.
Qed.

Lemma Settles_refl w : Settles w w.
Proof. constructor; auto using incl_refl. Qed.

Lemma Settles_trans a b c : Settles a b -> Settles b c -> Settles a c.
Proof.
  intros [] []; constructor; try congruence; eauto using incl_tran.
Qed.

Lemma Settles_node w w' o : Settles w w' -> static (node w' o) = static (node w o).
Proof. intros H. apply static_nth. exact (se_statics H). Qed.

(** The invariant survives both. *)
Lemma Grows_Inv w w' : Grows w w' -> muted (eng w) = false -> Inv w -> Inv w'.
Proof.
  intros G Hm [I1 I2 T [R1 R2]].
  pose proof (fun o => @Grows_node w w' o G) as Hnode.
  destruct G as [g1 g2 g3 g4 g5 g6 g7 g8 g9 [n E] [la [A F]] [lb [B G]]].
  constructor.
  - rewrite g1, Hm. discriminate.
  - rewrite g2, g4. exact I2.
  - now apply (@timers_ok_ext w).
  - split.
    + rewrite A. apply Forall_app; split.
      * eapply Forall_impl; [|exact R1]. intros o Ho; cbv beta in *.
        rewrite Hnode; auto. now apply effect_voice_started.
      * eapply Forall_impl; [|exact F]. now intros o [_ Ho].
    + rewrite B. apply Forall_app; split.
      * eapply Forall_impl; [|exact R2]. intros o Ho; cbv beta in *.
        rewrite Hnode; auto. now apply bg_voice_started.
      * eapply Forall_impl; [|exact G]. now intros o [_ Ho].
Qed.

Lemma Settles_Inv w w' : Settles w w' -> Inv w -> Inv w'.
Proof.
  intros S [I1 I2 T [R1 R2]].
  pose proof (fun o => @Settles_node w w' o S) as Hnode.
  destruct S as [s0 s1 s2 s3 s4 s5 s6 s7 s8 s9 s10 s11 s12 s13 s14].
  constructor.
  - rewrite s1, s2. intros Hm. destruct (I1 Hm) as (Ea & Eb & Ep).
    rewrite Ea in s13. rewrite Eb in s14.
    repeat split; auto using incl_l_nil.
  - rewrite s2, s4. exact I2.
  - now apply (@timers_ok_ext w).
  - split.
    + apply Forall_forall. intros o Ho.
      rewrite (effect_voice_static (Hnode o)).
      rewrite Forall_forall in R1. auto.
    + apply Forall_forall. intros o Ho.
      rewrite (bg_voice_static (Hnode o)).
      rewrite Forall_forall in R2. auto.
Qed.

Definition Grows_bind {A B} (m : JS A) (k : A -> JS B) :=
  @relates_bind Grows Grows_trans A B m k.
Definition Grows_ret {A} (a : A) := @relates_ret Grows Grows_refl A a.
Definition Grows_getE {A} (f : Engine -> A) := @relates_getE Grows Grows_refl A f.
Definition Grows_forEach {A} (l : list A) body :=
  @relates_forEach Grows Grows_refl Grows_trans A l body.
Definition Settles_bind {A B} (m : JS A) (k : A -> JS B) :=
  @relates_bind Settles Settles_trans A B m k.
Definition Settles_ret {A} (a : A) := @relates_ret Settles Settles_refl A a.
Definition Settles_forEach {A} (l : list A) body :=
  @relates_forEach Settles Settles_refl Settles_trans A l body.

(** ** The synthesis recipes grow the world *)

Ltac expose w := destruct w as [e [clk fs rate cs l gs ts nt]].

Ltac grows_registry :=
  first [ exists []; split; [now rewrite app_nil_r | constructor]
        | eexists; split; [reflexivity|];
          repeat constructor; cbn; try lia;
          unfold node; cbn; norm; try reflexivity ].

Ltac grows_leaf :=
  constructor; cbn;
  [ reflexivity ..
  | first [exists []; now rewrite app_nil_r | eexists; reflexivity]
  | grows_registry
  | grows_registry ].

Lemma getCtx_Grows : relates Grows getCtx.
Proof.
  intros w. expose w. unfold getCtx. cbn.
  destruct (ctx e); cbn.
  - destruct (nth n cs running); cbn; execute; grows_leaf.
  - execute; [grows_leaf|].
    destruct (nth (length cs) (cs ++ [running]) running); execute; grows_leaf.
Qed.

Lemma osc_Grows ty f d v r :
  ty <> triangle -> relates Grows (osc ty f d v r).
Proof.
  intros Hty. unfold osc.
  apply Grows_bind; [apply Grows_getE |].
  intros [|]; [apply Grows_ret|].
  apply relates_tryCatch.
  apply Grows_bind; [apply getCtx_Grows |].
  intros c w. expose w. destruct r; execute; try grows_leaf.
  all: destruct ty; try reflexivity; congruence.
Qed.

Lemma correct_Grows : relates Grows correct.
Proof.
  unfold correct.
  apply Grows_bind; [apply Grows_getE |].
  intros [|]; [apply Grows_ret|].
  apply relates_tryCatch.
  apply Grows_bind; [apply getCtx_Grows |]. intros c.
  apply Grows_bind; [intros w; apply Grows_refl |]. intros t.
  apply Grows_forEach. intros f i w. expose w. execute; grows_leaf.
Qed.

Lemma heartbeat_Grows : relates Grows heartbeat.
Proof.
  unfold heartbeat.
  apply Grows_bind; [apply Grows_getE |].
  intros [|]; [apply Grows_ret|].
  apply relates_tryCatch.
  apply Grows_bind; [apply getCtx_Grows |]. intros c.
  apply Grows_bind; [intros w; apply Grows_refl |]. intros t.
  apply Grows_forEach. intros f i w. expose w. execute; grows_leaf.
Qed.

Lemma fanfare_Grows : relates Grows fanfare.
Proof.
  unfold fanfare.
  apply Grows_bind; [apply Grows_getE |].
  intros [|]; [apply Grows_ret|].
  apply relates_tryCatch.
  apply Grows_bind; [apply getCtx_Grows |]. intros c.
  apply Grows_bind; [intros w; apply Grows_refl |]. intros t.
  apply Grows_forEach. intros f i w. expose w. execute; grows_leaf.
Qed.

Lemma playGuitarPluck_Grows c f vol dcy :
  relates Grows (playGuitarPluck c f vol dcy).
Proof.
  intros w. expose w. unfold playGuitarPluck. execute; grows_leaf.
Qed.

Lemma playNote_Grows c type : relates Grows (playNote c type).
Proof.
  unfold playNote.
  apply Grows_bind; [apply Grows_getE |]. intros m.
  apply Grows_bind; [apply Grows_getE |]. intros p.
  destruct (m || negb p); [apply Grows_ret|].
  apply Grows_bind; [apply Grows_getE |]. intros step.
  apply Grows_bind.
  - destruct (String.eqb type "lobby"); [apply playGuitarPluck_Grows|].
    intros w. expose w. destruct (step mod 4 =? 0)%N; execute; grows_leaf.
  - intros _ w. expose w. cbn. grows_leaf.
Qed.

(** ** Stopping and ending settle the world *)

Ltac settles_leaf :=
  constructor; cbn; try reflexivity;
  try apply incl_refl; try apply incl_filter;
  try (unfold statics; cbn; apply map_upd; reflexivity).

Lemma stop_Settles o when : relates Settles (stop o when).
Proof.
  intros w. expose w. cbn. fault; cbn; [settles_leaf|].
  destruct (s_start (nth o l new_oscillator)); cbn; [|settles_leaf].
  destruct (s_ended (nth o l new_oscillator)); cbn; settles_leaf.
Qed.

Lemma stop_each_Settles os i :
  relates Settles (forEach os i (fun o _ => tryCatch (stop o None))).
Proof.
  apply Settles_forEach. intros o _. apply relates_tryCatch, stop_Settles.
Qed.

Lemma dispatch_Settles o : relates Settles (dispatch o).
Proof.
  intros w. expose w. unfold dispatch. cbn.
  destruct (negb (s_ended (nth o l new_oscillator)) &&
            ended_by rate (seconds clk) (nth o l new_oscillator)); cbn;
    [|settles_leaf].
  destruct (s_onended (nth o l new_oscillator)) as [[x|xs]|]; cbn; settles_leaf.
Qed.

Lemma dispatch_ended_Settles : relates Settles dispatch_ended.
Proof.
  unfold dispatch_ended.
  apply Settles_bind; [intros w; apply Settles_refl|]. intros n.
  apply Settles_forEach. intros o _. apply dispatch_Settles.
Qed.

(** ** The engine's methods never throw *)

Lemma forEach_normal {A} (l : list A) body :
  (forall x i w, fst (body x i w) = Normal tt) ->
  forall i w, fst (forEach l i body w) = Normal tt.
Proof.
  intros Hb; induction l as [|x l IH]; intros i w; simpl; auto.
  specialize (Hb x i w). destruct (body x i w) as [[[]|] w1]; simpl in *.
  - apply IH.
  - discriminate.
Qed.

(** Force-stopping the voices of a registry, one [try { o.stop(); }
    catch (e) { }] each. *)
Definition stop_each (os : list nat) (w : World) : World :=
  snd (forEach os 0 (fun o _ => tryCatch (stop o None)) w).

Lemma stop_each_eq os w :
  forEach os 0 (fun o _ => tryCatch (stop o None)) w = (Normal tt, stop_each os w).
Proof.
  unfold stop_each.
  pose proof (@forEach_normal _ os (fun o _ => tryCatch (stop o None))
                (fun _ _ _ => eq_refl) 0 w) as H.
  destruct (forEach os 0 _ w) as [r w1]; simpl in *. now subst.
Qed.

Lemma stop_each_Settles' os w : Settles w (stop_each os w).
Proof. apply stop_each_Settles. Qed.

(** [clearInterval] of a handle the engine may hold. *)
Definition cancel (h : option positive) (b : Browser) : Browser :=
  match h with
  | Some id => set_timers (filter (fun t => negb (Pos.eqb (t_id t) id)) (timers b)) b
  | None => b
  end.

Definition heartbeat_stopped (w : World) : World :=
  on_env (cancel (heartbeatInterval (eng w))) (on_eng (set_heartbeatInterval None) w).

Definition bg_cancelled (w : World) : World :=
  on_env (cancel (bgInterval (eng w))) (on_eng (set_bgInterval None) w).

Definition bg_idle (e : Engine) : Engine :=
  set_currentMusicType Null (set_bgPlaying false (set_bgOscillators [] e)).

Lemma stopHeartbeatLoop_eq w :
  stopHeartbeatLoop w = (Normal tt, heartbeat_stopped w).
Proof.
  destruct w as [[c m a b p [h|] i n t] []];
    unfold stopHeartbeatLoop, heartbeat_stopped; reflexivity.
Qed.

Lemma stopBgMusic_eq w :
  stopBgMusic w =
  (Normal tt, on_eng bg_idle (stop_each (bgOscillators (eng w)) (bg_cancelled w))).
Proof.
  destruct w as [[c m a b p h [i|] n t] []];
    unfold stopBgMusic, bg_cancelled; cbn; rewrite stop_each_eq; reflexivity.
Qed.

Lemma stopAll_eq w :
  stopAll w =
  (Normal tt,
   let w1 := snd (stopBgMusic (heartbeat_stopped w)) in
   on_eng (set_activeOscillators []) (stop_each (activeOscillators (eng w1)) w1)).
Proof.
  unfold stopAll, bind. rewrite stopHeartbeatLoop_eq, stopBgMusic_eq.
  cbn [getE snd]. rewrite stop_each_eq. reflexivity.
Qed.

(** ** Timers under [setInterval], [clearInterval] and re-arming *)

Lemma filter_comm {A} (f g : A -> bool) l :
  filter f (filter g l) = filter g (filter f l).
Proof.
  induction l as [|x l IH]; simpl; auto.
  destruct (g x) eqn:G, (f x) eqn:F; simpl; rewrite ?G, ?F, IH; auto.
Qed.

Lemma Forall_filter_keep {A} (P : A -> Prop) f l :
  Forall P l -> Forall P (filter f l).
Proof.
  rewrite !Forall_forall. intros H x Hx. apply filter_In in Hx. now apply H.
Qed.

Ltac expose_all w :=
  destruct w as [[c m a b p h i n t] [clk fs rate cs l gs ts nt]].

Lemma keep_other_timer (i j : positive) (t : Timer) :
  t_id t = j -> j <> i ->
  filter (fun t => negb (Pos.eqb (t_id t) i)) [t] = [t].
Proof.
  intros E H. simpl. rewrite E.
  destruct (Pos.eqb_spec j i); [contradiction | reflexivity].
Qed.

Lemma drop_own_timer (i : positive) (t : Timer) :
  t_id t = i -> filter (fun t => negb (Pos.eqb (t_id t) i)) [t] = [].
Proof. intros E. simpl. now rewrite E, Pos.eqb_refl. Qed.

Lemma heartbeat_stopped_timers_ok w :
  timers_ok w -> timers_ok (heartbeat_stopped w).
Proof.
  expose_all w. intros [T1 T2 T3 T4].
  unfold heartbeat_stopped, heartbeat_timers, bg_timers in *. cbn in *.
  destruct h as [hb|]; cbn.
  - destruct T2 as [due T2]. constructor; cbn.
    + now apply Forall_filter_keep.
    + unfold heartbeat_timers; cbn. rewrite filter_comm, T2.
      now apply drop_own_timer.
    + unfold bg_timers; cbn. rewrite filter_comm.
      destruct i as [j|].
      * destruct T3 as (c0 & ty & d & T3). exists c0, ty, d. rewrite T3.
        apply keep_other_timer with (j := j); auto.
        intros ->. now apply (T4 hb).
      * now rewrite T3.
    + discriminate.
  - constructor; cbn; auto.
Qed.

Lemma bg_cancelled_timers_ok w :
  timers_ok w -> timers_ok (bg_cancelled w).
Proof.
  expose_all w. intros [T1 T2 T3 T4].
  unfold bg_cancelled, heartbeat_timers, bg_timers in *. cbn in *.
  destruct i as [bg|]; cbn.
  - destruct T3 as (c0 & ty & d & T3). constructor; cbn.
    + now apply Forall_filter_keep.
    + unfold heartbeat_timers; cbn. rewrite filter_comm.
      destruct h as [j|].
      * destruct T2 as [due T2]. exists due. rewrite T2.
        apply keep_other_timer with (j := j); auto.
        intros ->. now apply (T4 bg).
      * now rewrite T2.
    + unfold bg_timers; cbn. rewrite filter_comm, T3.
      now apply drop_own_timer.
    + discriminate.
  - constructor; cbn; auto.
Qed.

(** The timer table when both handles are dropped. *)
Lemma no_handle_no_timer w :
  timers_ok w -> heartbeatInterval (eng w) = None -> bgInterval (eng w) = None ->
  timers (env w) = [].
Proof.
  intros [_ T2 T3 _] H1 H2. rewrite H1 in T2. rewrite H2 in T3.
  unfold heartbeat_timers, bg_timers in *.
  destruct (timers (env w)) as [|t ts]; auto. simpl in *.
  destruct (is_heartbeat_timer t); simpl in *; discriminate.
Qed.

(** A fresh timer for a handle that was free. *)
Definition install (cb : Callback) (ms : N) (b : Browser) : Browser :=
  set_next_timer (Pos.succ (next_timer b))
    (set_timers (timers b ++ [mkTimer (next_timer b) cb ms (clock b + ms)]) b).

Lemma fresh_not_in_use (ts : list Timer) (nt : positive) (f : Timer -> bool) t :
  Forall (fun t => (t_id t < nt)%positive) ts ->
  filter f ts = [t] -> t_id t <> nt.
Proof.
  intros F E.
  assert (In t (filter f ts)) as Hin by (rewrite E; now left).
  apply filter_In in Hin. rewrite Forall_forall in F.
  specialize (F t (proj1 Hin)). lia.
Qed.

Lemma install_heartbeat_ok w :
  timers_ok w -> heartbeatInterval (eng w) = None ->
  timers_ok (on_eng (set_heartbeatInterval (Some (next_timer (env w))))
               (on_env (install cbHeartbeat 800) w)).
Proof.
  expose_all w. intros [T1 T2 T3 T4] H.
  unfold heartbeat_timers, bg_timers in *. cbn in *. subst h.
  constructor; cbn.
  - apply Forall_app; split.
    + eapply Forall_impl; [|exact T1]. cbn. intros; lia.
    + repeat constructor. cbn. lia.
  - unfold heartbeat_timers; cbn. rewrite filter_app, T2. cbn. eauto.
  - unfold bg_timers; cbn. rewrite filter_app. cbn. rewrite app_nil_r. exact T3.
  - intros j [= <-]. destruct i as [j|]; [|discriminate].
    destruct T3 as (c0 & ty & d & T3). intros [= ->].
    exact (@fresh_not_in_use _ _ _ _ T1 T3 eq_refl).
Qed.

Lemma install_bg_ok w c0 type :
  timers_ok w -> bgInterval (eng w) = None ->
  timers_ok (on_eng (set_bgInterval (Some (next_timer (env w))))
               (on_env (install (cbPlayNote c0 type) (interval type)) w)).
Proof.
  expose_all w. intros [T1 T2 T3 T4] H.
  unfold heartbeat_timers, bg_timers in *. cbn in *. subst i.
  constructor; cbn.
  - apply Forall_app; split.
    + eapply Forall_impl; [|exact T1]. cbn. intros; lia.
    + repeat constructor. cbn. lia.
  - unfold heartbeat_timers; cbn. rewrite filter_app. cbn. rewrite app_nil_r. exact T2.
  - unfold bg_timers; cbn. rewrite filter_app, T3. cbn. eauto.
  - intros j E [= <-]. subst h. destruct T2 as [d T2].
    exact (@fresh_not_in_use _ _ _ _ T1 T2 eq_refl).
Qed.

Lemma rearm_filter (f : Timer -> bool) id ts :
  (forall t d, f (mkTimer (t_id t) (t_callback t) (t_interval t) d) = f t) ->
  filter f (map (fun t => if Pos.eqb (t_id t) id
                          then mkTimer (t_id t) (t_callback t) (t_interval t)
                                       (t_due t + t_interval t)
                          else t) ts) =
  map (fun t => if Pos.eqb (t_id t) id
                then mkTimer (t_id t) (t_callback t) (t_interval t)
                             (t_due t + t_interval t)
                else t) (filter f ts).
Proof.
  intros Hf. induction ts as [|t ts IH]; simpl; auto.
  destruct (Pos.eqb (t_id t) id) eqn:E; rewrite ?Hf;
    destruct (f t); simpl; rewrite ?E, IH; auto.
Qed.

Lemma rearm_timers_ok id w : timers_ok w -> timers_ok (on_env (rearm id) w).
Proof.
  expose_all w. intros [T1 T2 T3 T4].
  unfold heartbeat_timers, bg_timers, rearm in *. cbn in *.
  constructor; cbn; auto.
  - apply Forall_map. eapply Forall_impl; [|exact T1].
    intros t0 Ht. now destruct (Pos.eqb (t_id t0) id).
  - unfold heartbeat_timers; cbn. rewrite rearm_filter by reflexivity.
    destruct h as [j|].
    + destruct T2 as [d T2]. rewrite T2. cbn.
      destruct (Pos.eqb j id); eauto.
    + now rewrite T2.
  - unfold bg_timers; cbn. rewrite rearm_filter by reflexivity.
    destruct i as [j|].
    + destruct T3 as (c0 & ty & d & T3). rewrite T3. cbn.
      destruct (Pos.eqb j id); eauto.
    + now rewrite T3.
Qed.

(** ** Every method and every event keeps the invariant *)

Lemma Inv_init rate fs : Inv (init rate fs).
Proof.
  constructor; cbn; try discriminate; auto.
  - constructor; cbn; try discriminate; auto.
  - split; constructor.
Qed.

Lemma Inv_stop_each os w : Inv w -> Inv (stop_each os w).
Proof. apply Settles_Inv, stop_each_Settles'. Qed.

Lemma Inv_heartbeat_stopped w : Inv w -> Inv (heartbeat_stopped w).
Proof.
  intros [I1 I2 T R]. apply heartbeat_stopped_timers_ok in T.
  expose_all w. destruct h; constructor; cbn in *; auto.
Qed.

Lemma Inv_bg_cancelled w : Inv w -> Inv (bg_cancelled w).
Proof.
  intros [I1 I2 T R]. apply bg_cancelled_timers_ok in T.
  expose_all w. destruct i; constructor; cbn in *; auto.
Qed.

Lemma bgInterval_bg_cancelled w : bgInterval (eng (bg_cancelled w)) = None.
Proof. expose_all w. now destruct i. Qed.

Lemma Inv_bg_idle w :
  Inv w -> bgInterval (eng w) = None -> Inv (on_eng bg_idle w).
Proof.
  intros [I1 I2 T [R1 R2]] H. expose_all w. cbn in *. subst i.
  constructor; cbn; auto.
  - intros Hm. destruct (I1 Hm) as (-> & _). auto.
  - revert T; apply timers_ok_ext; reflexivity.
  - split; [exact R1 | constructor].
Qed.

Lemma Inv_stopBgMusic : preserves Inv stopBgMusic.
Proof.
  intros w I. rewrite stopBgMusic_eq. cbn [snd].
  apply Inv_bg_idle.
  - now apply Inv_stop_each, Inv_bg_cancelled.
  - rewrite (se_bgInterval (stop_each_Settles' _ _)).
    apply bgInterval_bg_cancelled.
Qed.

Lemma Inv_stopHeartbeatLoop : preserves Inv stopHeartbeatLoop.
Proof.
  intros w I. rewrite stopHeartbeatLoop_eq. now apply Inv_heartbeat_stopped.
Qed.

Lemma Inv_no_active w : Inv w -> Inv (on_eng (set_activeOscillators []) w).
Proof.
  intros [I1 I2 T [R1 R2]]. expose_all w. cbn in *.
  constructor; cbn; auto.
  - intros Hm. destruct (I1 Hm) as (_ & -> & ->). auto.
  - revert T; apply timers_ok_ext; reflexivity.
  - split; [constructor | exact R2].
Qed.

Lemma Inv_stopAll : preserves Inv stopAll.
Proof.
  intros w I. rewrite stopAll_eq. cbn [snd]. cbv zeta.
  apply Inv_no_active, Inv_stop_each, Inv_stopBgMusic, Inv_heartbeat_stopped, I.
Qed.

(** What [stopAll] leaves of the engine's own variables. *)
Lemma stopAll_engine w :
  let e := eng (snd (stopAll w)) in
  activeOscillators e = [] /\ bgOscillators e = [] /\
  heartbeatInterval e = None /\ bgInterval e = None /\
  bgPlaying e = false /\ currentMusicType e = Null /\
  muted e = muted (eng w) /\ ctx e = ctx (eng w).
Proof.
  rewrite stopAll_eq. cbn [snd]. cbv zeta. rewrite stopBgMusic_eq. cbn [snd].
  set (w1 := stop_each _ (bg_cancelled (heartbeat_stopped w))).
  set (w2 := stop_each _ (on_eng bg_idle w1)).
  assert (S2 : Settles (on_eng bg_idle w1) w2) by apply stop_each_Settles'.
  assert (S1 : Settles (bg_cancelled (heartbeat_stopped w)) w1)
    by apply stop_each_Settles'.
  destruct S2 as [a0 a1 a2 a3 a4 a5 a6 _ _ _ _ _ _ _ a14].
  destruct S1 as [b0 b1 b2 b3 b4 b5 b6 _ _ _ _ _ _ _ _].
  cbn in *. rewrite a3, a4, a2, a6, a1, a0, b3, b4, b1, b0.
  repeat split; auto using incl_l_nil.
  all: expose_all w; now destruct h, i.
Qed.

Lemma Grows_preserves_Inv {A} (m : JS A) :
  relates Grows m -> (forall w, muted (eng w) = true -> snd (m w) = w) ->
  preserves Inv m.
Proof.
  intros G Hm w I. destruct (muted (eng w)) eqn:E.
  - now rewrite Hm.
  - eapply Grows_Inv; eauto.
Qed.

(** The shape of every one-shot effect:
    [if (muted) return; try { body } catch (e) { }]. *)
Lemma guarded_eq (body : JS unit) w :
  (m <- getE muted ;; if m then ret tt else tryCatch body) w =
  (Normal tt, if muted (eng w) then w else snd (body w)).
Proof. cbn. now destruct (muted (eng w)). Qed.

Lemma osc_eq ty f d v r w :
  osc ty f d v r w = (Normal tt, snd (osc ty f d v r w)).
Proof. unfold osc. now rewrite guarded_eq. Qed.

Lemma correct_eq w : correct w = (Normal tt, snd (correct w)).
Proof. unfold correct. now rewrite guarded_eq. Qed.

Lemma heartbeat_eq w : heartbeat w = (Normal tt, snd (heartbeat w)).
Proof. unfold heartbeat. now rewrite guarded_eq. Qed.

Lemma fanfare_eq w : fanfare w = (Normal tt, snd (fanfare w)).
Proof. unfold fanfare. now rewrite guarded_eq. Qed.

Lemma osc_muted ty f d v r w :
  muted (eng w) = true -> osc ty f d v r w = (Normal tt, w).
Proof. intros H. unfold osc. now rewrite guarded_eq, H. Qed.

Lemma correct_muted w : muted (eng w) = true -> correct w = (Normal tt, w).
Proof. intros H. unfold correct. now rewrite guarded_eq, H. Qed.

Lemma heartbeat_muted w : muted (eng w) = true -> heartbeat w = (Normal tt, w).
Proof. intros H. unfold heartbeat. now rewrite guarded_eq, H. Qed.

Lemma fanfare_muted w : muted (eng w) = true -> fanfare w = (Normal tt, w).
Proof. intros H. unfold fanfare. now rewrite guarded_eq, H. Qed.

Lemma playNote_muted c type w :
  muted (eng w) = true -> playNote c type w = (Normal tt, w).
Proof. intros H. unfold playNote. cbn. now rewrite H. Qed.

Lemma startBgMusic_muted type w :
  muted (eng w) = true -> startBgMusic type w = (Normal tt, w).
Proof. intros H. unfold startBgMusic. cbn. now rewrite H. Qed.

Lemma Inv_osc ty f d v r : ty <> triangle -> preserves Inv (osc ty f d v r).
Proof.
  intros H. apply Grows_preserves_Inv; [now apply osc_Grows|].
  intros w Hm. now rewrite osc_muted.
Qed.

Lemma Inv_correct : preserves Inv correct.
Proof.
  apply Grows_preserves_Inv; [apply correct_Grows|].
  intros w Hm. now rewrite correct_muted.
Qed.

Lemma Inv_heartbeat : preserves Inv heartbeat.
Proof.
  apply Grows_preserves_Inv; [apply heartbeat_Grows|].
  intros w Hm. now rewrite heartbeat_muted.
Qed.

Lemma Inv_fanfare : preserves Inv fanfare.
Proof.
  apply Grows_preserves_Inv; [apply fanfare_Grows|].
  intros w Hm. now rewrite fanfare_muted.
Qed.

Lemma Inv_playNote c type : preserves Inv (playNote c type).
Proof.
  apply Grows_preserves_Inv; [apply playNote_Grows|].
  intros w Hm. now rewrite playNote_muted.
Qed.

(** [startHeartbeatLoop], case by case. *)
Definition heartbeat_installed (w : World) : World :=
  on_eng (set_heartbeatInterval (Some (next_timer (env w))))
         (on_env (install cbHeartbeat 800) w).

Lemma startHeartbeatLoop_running w :
  heartbeatInterval (eng w) <> None -> startHeartbeatLoop w = (Normal tt, w).
Proof.
  intros H. unfold startHeartbeatLoop. cbn.
  destruct (heartbeatInterval (eng w)); [reflexivity | contradiction].
Qed.

Lemma startHeartbeatLoop_stopped w :
  heartbeatInterval (eng w) = None ->
  startHeartbeatLoop w = (Normal tt, heartbeat_installed (snd (heartbeat w))).
Proof.
  intros H. unfold startHeartbeatLoop, bind, getE. rewrite H, heartbeat_eq.
  reflexivity.
Qed.

Lemma Inv_heartbeat_installed w :
  Inv w -> heartbeatInterval (eng w) = None -> Inv (heartbeat_installed w).
Proof.
  intros [I1 I2 T R] H. pose proof (install_heartbeat_ok T H) as T'.
  expose_all w. constructor; cbn in *; auto.
Qed.

Lemma Inv_startHeartbeatLoop : preserves Inv startHeartbeatLoop.
Proof.
  intros w I. destruct (heartbeatInterval (eng w)) eqn:H.
  - rewrite startHeartbeatLoop_running; [exact I | congruence].
  - rewrite startHeartbeatLoop_stopped by exact H. cbn [snd].
    apply Inv_heartbeat_installed.
    + now apply Inv_heartbeat.
    + now rewrite (gr_heartbeatInterval (heartbeat_Grows w)).
Qed.

(** [startBgMusic], case by case.  [begin_music] is the body of its
    [try] block. *)
Definition begin_music (type : string) : JS unit :=
  c <- getCtx ;;
  modE (set_bgPlaying true) ;;
  modE (set_currentMusicType (Str type)) ;;
  modE (set_bgStep 0%N) ;;
  playNote c type ;;
  id <- setInterval (cbPlayNote c type) (interval type) ;;
  modE (set_bgInterval (Some id)).

Definition requested (type : option string) : string :=
  match type with Some s => s | None => "lobby"%string end.

Lemma startBgMusic_eq type w :
  startBgMusic type w =
  (Normal tt,
   if muted (eng w) then w
   else if bgPlaying (eng w) && same_type (currentMusicType (eng w)) (requested type)
   then w
   else snd (begin_music (requested type)
               (if bgPlaying (eng w) then snd (stopBgMusic w) else w))).
Proof.
  unfold startBgMusic, begin_music, requested, bind at 1 2 3, getE.
  destruct (muted (eng w)); [reflexivity|].
  destruct (bgPlaying (eng w)) eqn:P; cbn [andb].
  - destruct (same_type _ _); [reflexivity|].
    unfold bind at 1. rewrite stopBgMusic_eq. reflexivity.
  - reflexivity.
Qed.

Definition music_begun (c : nat) (type : string) (w : World) : World :=
  on_eng (fun e => set_bgStep 0%N (set_currentMusicType (Str type)
                                    (set_bgPlaying true e))) w.

Definition music_installed (c : nat) (type : string) (w : World) : World :=
  on_eng (set_bgInterval (Some (next_timer (env w))))
         (on_env (install (cbPlayNote c type) (interval type)) w).

Lemma begin_music_eq type w :
  snd (begin_music type w) =
  match getCtx w with
  | (Normal c, w1) =>
      match playNote c type (music_begun c type w1) with
      | (Normal _, w2) => music_installed c type w2
      | (Throw, w2) => w2
      end
  | (Throw, w1) => w1
  end.
Proof.
  unfold begin_music, bind at 1.
  destruct (getCtx w) as [[c|] w1]; [|reflexivity].
  unfold bind at 1 2 3 4, modE. cbn [fst snd].
  change (on_eng (set_bgStep 0%N) (on_eng (set_currentMusicType (Str type))
            (on_eng (set_bgPlaying true) w1))) with (music_begun c type w1).
  destruct (playNote c type (music_begun c type w1)) as [[[]|] w2]; reflexivity.
Qed.

Lemma Inv_music_begun c0 type w :
  Inv w -> muted (eng w) = false -> bgInterval (eng w) = None ->
  Inv (music_begun c0 type w).
Proof.
  intros [I1 I2 T R] Hm Hi. expose_all w. cbn in *. subst.
  constructor; cbn; auto; try discriminate.
  revert T; apply timers_ok_ext; reflexivity.
Qed.

Lemma Inv_music_installed c0 type w :
  Inv w -> bgPlaying (eng w) = true -> bgInterval (eng w) = None ->
  Inv (music_installed c0 type w).
Proof.
  intros [I1 I2 T R] Hp Hi. pose proof (install_bg_ok c0 type T Hi) as T'.
  expose_all w. cbn in *. subst.
  constructor; cbn; auto; try discriminate.
Qed.

Lemma Inv_begin_music type w :
  Inv w -> muted (eng w) = false -> bgInterval (eng w) = None ->
  Inv (snd (begin_music type w)).
Proof.
  intros I Hm Hi. rewrite begin_music_eq.
  pose proof (getCtx_Grows w) as G.
  destruct (getCtx w) as [[c|] w1]; cbn [snd] in G;
    pose proof (Grows_Inv G Hm I) as I1; [|exact I1].
  assert (Hm1 : muted (eng w1) = false) by now rewrite (gr_muted G).
  assert (Hi1 : bgInterval (eng w1) = None) by now rewrite (gr_bgInterval G).
  pose proof (Inv_music_begun c type I1 Hm1 Hi1) as I2.
  pose proof (playNote_Grows c type (music_begun c type w1)) as G2.
  assert (Hm2 : muted (eng (music_begun c type w1)) = false) by exact Hm1.
  destruct (playNote c type (music_begun c type w1)) as [[[]|] w2];
    cbn [snd] in G2; pose proof (Grows_Inv G2 Hm2 I2) as I3; [|exact I3].
  apply Inv_music_installed; auto.
  - now rewrite (gr_bgPlaying G2).
  - rewrite (gr_bgInterval G2). exact Hi1.
Qed.

Lemma Inv_startBgMusic type : preserves Inv (startBgMusic type).
Proof.
  intros w I. rewrite startBgMusic_eq. cbn [snd].
  destruct (muted (eng w)) eqn:Hm; [exact I|].
  destruct (bgPlaying (eng w)) eqn:Hp; cbn [andb].
  - destruct (same_type _ _); [exact I|].
    apply Inv_begin_music.
    + now apply Inv_stopBgMusic.
    + rewrite stopBgMusic_eq. cbn [snd].
      change (muted (eng (stop_each (bgOscillators (eng w)) (bg_cancelled w))) = false).
      rewrite (se_muted (stop_each_Settles' _ _)). expose_all w. now destruct i.
    + rewrite stopBgMusic_eq. cbn [snd].
      change (bgInterval (eng (stop_each (bgOscillators (eng w)) (bg_cancelled w))) = None).
      rewrite (se_bgInterval (stop_each_Settles' _ _)).
      apply bgInterval_bg_cancelled.
  - apply Inv_begin_music; auto. now apply (inv_playing I).
Qed.

(** The stop methods do not look at the engine's flags. *)
Lemma stop_on_eng f o when w :
  stop o when (on_eng f w) =
  (fst (stop o when w), on_eng f (snd (stop o when w))).
Proof.
  expose w. cbn. fault; cbn; [reflexivity|].
  destruct (s_start (nth o l new_oscillator)); cbn; [|reflexivity].
  destruct (s_ended (nth o l new_oscillator)); reflexivity.
Qed.

Lemma stop_loop_on_eng f os i w :
  snd (forEach os i (fun o _ => tryCatch (stop o None)) (on_eng f w)) =
  on_eng f (snd (forEach os i (fun o _ => tryCatch (stop o None)) w)).
Proof.
  revert i w; induction os as [|o os IH]; intros i w; [reflexivity|].
  cbn [forEach]. unfold bind, tryCatch. rewrite stop_on_eng. cbn [snd].
  apply IH.
Qed.

Lemma stop_each_on_eng f os w :
  stop_each os (on_eng f w) = on_eng f (stop_each os w).
Proof. apply stop_loop_on_eng. Qed.

Lemma stopBgMusic_set_muted x w :
  snd (stopBgMusic (on_eng (set_muted x) w)) =
  on_eng (set_muted x) (snd (stopBgMusic w)).
Proof.
  rewrite !stopBgMusic_eq. cbn [snd].
  replace (bg_cancelled (on_eng (set_muted x) w))
    with (on_eng (set_muted x) (bg_cancelled w))
    by (expose_all w; now destruct i).
  rewrite stop_each_on_eng. reflexivity.
Qed.

Lemma stopAll_set_muted x w :
  snd (stopAll (on_eng (set_muted x) w)) = on_eng (set_muted x) (snd (stopAll w)).
Proof.
  rewrite !stopAll_eq. cbn [snd]. cbv zeta.
  replace (heartbeat_stopped (on_eng (set_muted x) w))
    with (on_eng (set_muted x) (heartbeat_stopped w))
    by (expose_all w; now destruct h).
  rewrite stopBgMusic_set_muted, stop_each_on_eng. reflexivity.
Qed.

Lemma stopAll_normal w : stopAll w = (Normal tt, snd (stopAll w)).
Proof. now rewrite stopAll_eq. Qed.

Lemma toggleMute_eq w :
  toggleMute w =
  (Normal (negb (muted (eng w))),
   if muted (eng w) then on_eng (set_muted false) w
   else on_eng (set_muted true) (snd (stopAll w))).
Proof.
  pose proof (stopAll_normal (on_eng (set_muted true) w)) as E.
  rewrite stopAll_set_muted in E.
  unfold toggleMute. cbn -[stopAll] in E |- *.
  destruct (muted (eng w)) eqn:Hm; cbn -[stopAll]; [reflexivity|].
  rewrite E. reflexivity.
Qed.

Lemma Inv_unmuted w : Inv w -> Inv (on_eng (set_muted false) w).
Proof.
  intros [I1 I2 T R]. expose_all w. cbn in *.
  constructor; cbn; auto; try discriminate.
  revert T; apply timers_ok_ext; reflexivity.
Qed.

Lemma Inv_muted w :
  Inv w -> activeOscillators (eng w) = [] -> bgOscillators (eng w) = [] ->
  bgPlaying (eng w) = false -> Inv (on_eng (set_muted true) w).
Proof.
  intros [I1 I2 T R] Ha Hb Hp. expose_all w. cbn in *.
  constructor; cbn; auto.
  revert T; apply timers_ok_ext; reflexivity.
Qed.

Lemma Inv_toggleMute : preserves Inv toggleMute.
Proof.
  intros w I. rewrite toggleMute_eq. cbn [snd].
  destruct (muted (eng w)).
  - now apply Inv_unmuted.
  - destruct (stopAll_engine w) as (Ha & Hb & _ & _ & Hp & _).
    apply Inv_muted; auto. now apply Inv_stopAll.
Qed.

Lemma Inv_on_env_clock x w :
  Inv w -> Inv (on_env (set_clock x) w).
Proof.
  intros [I1 I2 T R]. expose_all w. cbn in *.
  constructor; cbn; auto.
  revert T; apply timers_ok_ext; reflexivity.
Qed.

Lemma Inv_rearm id w : Inv w -> Inv (on_env (rearm id) w).
Proof.
  intros [I1 I2 T R]. apply (rearm_timers_ok id) in T.
  expose_all w. constructor; cbn in *; auto.
Qed.

Lemma Inv_fire id : preserves Inv (fire id).
Proof.
  unfold fire.
  apply preserves_bind; [apply preserves_getB|]. intros [t0|].
  - apply preserves_bind; [apply preserves_getB|]. intros now.
    destruct (t_due t0 <=? now)%N; [|apply preserves_ret].
    apply preserves_bind; [intros w; apply Inv_rearm|]. intros _.
    apply preserves_tryCatch.
    destruct (t_callback t0); [apply Inv_heartbeat | apply Inv_playNote].
  - apply preserves_bind; [apply preserves_getB|]. intros _.
    apply preserves_ret.
Qed.

Lemma Inv_millisecond w : Inv w -> Inv (millisecond w).
Proof.
  unfold millisecond. revert w.
  change (preserves Inv (modB (fun b => set_clock (clock b + 1)%N b) ;;
                         dispatch_ended ;; fire_timers)).
  apply preserves_bind; [intros w; apply Inv_on_env_clock|]. intros _.
  apply preserves_bind.
  - intros w. apply Settles_Inv, dispatch_ended_Settles.
  - intros _. unfold fire_timers.
    apply preserves_bind; [apply preserves_getB|]. intros ids.
    apply preserves_forEach. intros id _. apply Inv_fire.
Qed.

Lemma Inv_elapse ms w : Inv w -> Inv (elapse ms w).
Proof. apply N.iter_invariant. intros x. apply Inv_millisecond. Qed.

Lemma Inv_suspend w : Inv w -> Inv (suspend w).
Proof.
  intros [I1 I2 T R]. expose_all w. cbn in *.
  constructor; cbn; auto.
  revert T; apply timers_ok_ext; reflexivity.
Qed.

Lemma Inv_invoke m : preserves Inv (invoke m).
Proof.
  destruct m; cbn [invoke];
    try (apply Inv_osc; discriminate).
  - apply preserves_bind; [apply Inv_toggleMute | intros; apply preserves_ret].
  - apply Inv_correct.
  - apply Inv_heartbeat.
  - apply Inv_startHeartbeatLoop.
  - apply Inv_stopHeartbeatLoop.
  - apply Inv_fanfare.
  - apply Inv_startBgMusic.
  - apply Inv_stopBgMusic.
  - apply Inv_stopAll.
Qed.

Lemma Inv_step e w : Inv w -> Inv (step w e).
Proof.
  destruct e; cbn [step].
  - apply Inv_invoke.
  - apply Inv_elapse.
  - apply Inv_suspend.
Qed.

Lemma Inv_run es w : Inv w -> Inv (run es w).
Proof.
  revert w; induction es as [|e es IH]; intros w I; [exact I|].
  apply IH, Inv_step, I.
Qed.

Lemma reachable_Inv w : reachable w -> Inv w.
Proof. intros (rate & fs & es & ->). apply Inv_run, Inv_init. Qed.

(* ================================================================== *)
(** * The properties of the specification *)

(** ** Stop-all *)

(** C1.  After any sequence of events (calls of the engine's methods, with
    time passing and the browser suspending the context in between),
    [stopAll()] returns normally and leaves both registries of voices
    empty, both session handles null, the background flag off and no
    live timer. *)
Theorem stopAll_leaves_nothing (rate : Q) (fs : list bool) (es : list Event) :
  let w := run es (init rate fs) in
  let w' := snd (stopAll w) in
  fst (stopAll w) = Normal tt /\
  activeOscillators (eng w') = [] /\
  bgOscillators (eng w') = [] /\
  heartbeatInterval (eng w') = None /\
  bgInterval (eng w') = None /\
  bgPlaying (eng w') = false /\
  timers (env w') = [].
Proof.
  intros w w'.
  assert (I : Inv w') by (apply Inv_stopAll, Inv_run, Inv_init).
  destruct (stopAll_engine w) as (Ha & Hb & Hh & Hi & Hp & _).
  fold w' in Ha, Hb, Hh, Hi, Hp.
  repeat split; auto.
  - now rewrite stopAll_eq.
  - apply no_handle_no_timer; auto. apply (inv_timers I).
Qed.

(** ** Mute *)

(** C6.  [toggleMute()] flips the mute flag and returns the new value;
    when the engine was unmuted, the call has performed [stopAll()]: both
    registries are empty, both sessions are inactive and no timer is
    live. *)
Theorem toggleMute_flips_and_silences (w : World) (Hw : reachable w) :
  let w' := snd (toggleMute w) in
  fst (toggleMute w) = Normal (negb (muted (eng w))) /\
  muted (eng w') = negb (muted (eng w)) /\
  (muted (eng w) = false ->
   w' = on_eng (set_muted true) (snd (stopAll w)) /\
   activeOscillators (eng w') = [] /\
   bgOscillators (eng w') = [] /\
   heartbeatInterval (eng w') = None /\
   bgInterval (eng w') = None /\
   bgPlaying (eng w') = false /\
   timers (env w') = []).
Proof.
  intros w'. subst w'. rewrite toggleMute_eq. cbn [fst snd].
  split; [reflexivity|]. split; [now destruct (muted (eng w))|].
  intros Hm. rewrite Hm.
  destruct (stopAll_engine w) as (Ha & Hb & Hh & Hi & Hp & _).
  set (w1 := snd (stopAll w)) in *.
  assert (I : Inv w1) by apply Inv_stopAll, reachable_Inv, Hw.
  pose proof (no_handle_no_timer (inv_timers I) Hh Hi) as Ht.
  destruct w1 as [e1 b1]. cbn in *. repeat split; auto.
Qed.

(** The one-shot effects of the effect library. *)
Definition one_shot (m : Method) : bool :=
  match m with
  | click' | correct' | wrong' | tick' | heartbeat' | lightBeep'
  | goBurst' | falseStart' | fanfare' => true
  | _ => false
  end.

(** C7.  While the mute flag is set, a one-shot effect returns at once and
    leaves the world as it was (no node is created, nothing is
    registered); and in every reachable state with the flag set both
    registries are empty. *)
Theorem muted_effects_do_nothing (w : World) (m : Method)
    (Hmuted : muted (eng w) = true) (Hm : one_shot m = true) :
  invoke m w = (Normal tt, w) /\
  (reachable w ->
   activeOscillators (eng w) = [] /\ bgOscillators (eng w) = []).
Proof.
  split.
  - destruct m; try discriminate; cbn [invoke];
      [ apply osc_muted | apply correct_muted | apply osc_muted
      | apply osc_muted | apply heartbeat_muted | apply osc_muted
      | apply osc_muted | apply osc_muted | apply fanfare_muted ];
      exact Hmuted.
  - intros Hw. destruct (inv_muted (reachable_Inv Hw) Hmuted) as (? & ? & _).
    auto.
Qed.

(** ** Background music: asking for the mode that plays *)

(** C4.  When background music plays and [startBgMusic] is called with
    the mode that plays (given or by default), the call changes nothing;
    the sequencer has one recurring trigger exactly when it holds a
    handle, and never more than one. *)
Theorem startBgMusic_same_mode_is_noop (w : World) (type : option string)
    (Hw : reachable w) (Hp : bgPlaying (eng w) = true)
    (Ht : currentMusicType (eng w) = Str (requested type)) :
  startBgMusic type w = (Normal tt, w) /\
  length (bg_timers w) =
    match bgInterval (eng w) with Some _ => 1 | None => 0 end.
Proof.
  split.
  - rewrite startBgMusic_eq, Hp, Ht. cbn [same_type andb].
    rewrite String.eqb_refl. now destruct (muted (eng w)).
  - pose proof (to_bg (inv_timers (reachable_Inv Hw))) as T.
    destruct (bgInterval (eng w)).
    + destruct T as (c & ty & d & ->). reflexivity.
    + now rewrite T.
Qed.

(** Concrete engines used as instances below. *)
Definition fresh : World := init 44100%Q [].
Definition lobby_playing : World :=
  run [Call (startBgMusic' (Some "lobby"%string))] fresh.
Definition busy : World :=
  run [Call startHeartbeatLoop'; Call (startBgMusic' None); Call click';
       Elapse 300] fresh.
Definition muted_engine : World := run [Call click'; Call toggleMute'] fresh.

Lemma reachable_run es : reachable (run es fresh).
Proof. exists 44100%Q, [], es. reflexivity. Defined.

Lemma toggleMute_flips_and_silences_witness :
  reachable busy /\
  fst (toggleMute busy) = Normal true /\
  muted (eng (snd (toggleMute busy))) = true /\
  timers (env busy) <> [] /\
  timers (env (snd (toggleMute busy))) = [].
Proof.
  pose proof (toggleMute_flips_and_silences (reachable_run _ : reachable busy))
    as (H1 & H2 & H3).
  split; [apply reachable_run|].
  split; [exact H1|]. split; [exact H2|].
  split; [vm_compute; discriminate|].
  apply H3. reflexivity.
Defined.

Lemma muted_effects_do_nothing_witness :
  muted (eng muted_engine) = true /\ one_shot correct' = true /\
  invoke correct' muted_engine = (Normal tt, muted_engine) /\
  activeOscillators (eng muted_engine) = [].
Proof.
  assert (Hm : muted (eng muted_engine) = true) by reflexivity.
  destruct (@muted_effects_do_nothing muted_engine correct' Hm eq_refl) as [H1 H2].
  split; [exact Hm|]. split; [reflexivity|]. split; [exact H1|].
  exact (proj1 (H2 (reachable_run _))).
Defined.

Lemma startBgMusic_same_mode_is_noop_witness :
  reachable lobby_playing /\
  bgPlaying (eng lobby_playing) = true /\
  currentMusicType (eng lobby_playing) = Str "lobby" /\
  startBgMusic (Some "lobby"%string) lobby_playing = (Normal tt, lobby_playing) /\
  length (bg_timers lobby_playing) = 1.
Proof.
  assert (Hp : bgPlaying (eng lobby_playing) = true) by reflexivity.
  assert (Ht : currentMusicType (eng lobby_playing) =
               Str (requested (Some "lobby"%string))) by reflexivity.
  destruct (@startBgMusic_same_mode_is_noop lobby_playing (Some "lobby"%string)
              (reachable_run _) Hp Ht) as [H1 H2].
  split; [apply reachable_run|]. split; [exact Hp|]. split; [exact Ht|].
  split; [exact H1 | exact H2].
Defined.

(** ** Background music: stop *)

(** The voice [o] has been silenced by now: it has ended, or its stop time
    has come. *)
Definition force_stopped (w : World) (o : nat) : bool :=
  s_ended (node w o) ||
  match s_stop (node w o) with
  | Some t => Qle_bool t (seconds (clock (env w)))
  | None => false
  end.

Lemma nth_upd {A} i j (f : A -> A) l d :
  nth j (upd i f l) d =
  if Nat.eqb i j && Nat.ltb j (length l) then f (nth j l d) else nth j l d.
Proof.
  destruct (Nat.eqb_spec i j) as [->|Hne]; cbn [andb].
  - destruct (Nat.ltb_spec j (length l)).
    + now apply nth_upd_same.
    + rewrite !nth_overflow; auto. now rewrite upd_length.
  - now apply nth_upd_other.
Qed.

Lemma Qle_bool_refl q : Qle_bool q q = true.
Proof. apply Qle_bool_iff, Qle_refl. Qed.

Lemma preserves_forEach_in (P : World -> Prop) {A} (l : list A) body :
  (forall x i, In x l -> preserves P (body x i)) ->
  forall i, preserves P (forEach l i body).
Proof.
  induction l as [|x l IH]; intros Hb i; simpl.
  - apply preserves_ret.
  - apply preserves_bind; [apply Hb; now left|].
    intros _. apply IH. intros y j Hy. apply Hb. now right.
Qed.

Lemma stop_keeps_faults o when :
  preserves (fun w => faults (env w) = []) (stop o when).
Proof.
  intros w H. expose w. cbn in *. subst fs. cbn.
  destruct (s_start (nth o l new_oscillator)); cbn; auto.
  destruct (s_ended (nth o l new_oscillator)); cbn; auto.
Qed.

Lemma stop_each_keeps_faults os w :
  faults (env w) = [] -> faults (env (stop_each os w)) = [].
Proof.
  revert w. unfold stop_each.
  change (preserves (fun w => faults (env w) = [])
            (forEach os 0 (fun o _ => tryCatch (stop o None)))).
  apply preserves_forEach. intros o _. apply preserves_tryCatch, stop_keeps_faults.
Qed.

Lemma stop_force_stops o w :
  faults (env w) = [] -> started (node w o) = true ->
  force_stopped (snd (stop o None w)) o = true.
Proof.
  intros Hf Hs. pose proof (started_in_range _ _ Hs) as Hr.
  unfold started in Hs. unfold force_stopped, node in *.
  expose w. cbn in *. subst fs. cbn.
  destruct (s_start (nth o l new_oscillator)); [|discriminate]. cbn.
  destruct (s_ended (nth o l new_oscillator)) eqn:E; cbn.
  - now rewrite E.
  - rewrite nth_upd_same by exact Hr. cbn.
    rewrite Qle_bool_refl. apply orb_true_r.
Qed.

Lemma stop_keeps_force_stopped x o :
  preserves (fun w => force_stopped w o = true) (stop x None).
Proof.
  intros w H. unfold force_stopped, node in *.
  expose w. cbn in *. fault; cbn; auto.
  destruct (s_start (nth x l new_oscillator)); cbn; auto.
  destruct (s_ended (nth x l new_oscillator)) eqn:E; cbn; auto.
  rewrite nth_upd.
  destruct (Nat.eqb x o && Nat.ltb o (length l)); auto.
  cbn. rewrite Qle_bool_refl. apply orb_true_r.
Qed.

Lemma stop_loop_cons x os i w :
  snd (forEach (x :: os) i (fun o _ => tryCatch (stop o None)) w) =
  snd (forEach os (S i) (fun o _ => tryCatch (stop o None)) (snd (stop x None w))).
Proof. reflexivity. Qed.

Lemma stop_loop_force_stops os : forall i w,
  faults (env w) = [] ->
  (forall o, In o os -> started (node w o) = true) ->
  forall o, In o os ->
  force_stopped (snd (forEach os i (fun o _ => tryCatch (stop o None)) w)) o = true.
Proof.
  induction os as [|x os IH]; intros i w Hf Hs o Ho; [destruct Ho|].
  rewrite stop_loop_cons.
  assert (Hf1 : faults (env (snd (stop x None w))) = [])
    by now apply stop_keeps_faults.
  assert (Hs1 : forall y, In y os -> started (node (snd (stop x None w)) y) = true).
  { intros y Hy. rewrite (started_static (Settles_node y (stop_Settles x None w))).
    apply Hs. now right. }
  destruct (in_dec Nat.eq_dec o os) as [Hin|Hout]; [now apply IH|].
  destruct Ho as [->|Ho]; [|contradiction].
  assert (H0 : force_stopped (snd (stop o None w)) o = true).
  { apply stop_force_stops; auto. apply Hs. now left. }
  revert H0. generalize (snd (stop o None w)).
  change (preserves (fun w => force_stopped w o = true)
            (forEach os (S i) (fun o _ => tryCatch (stop o None)))).
  apply preserves_forEach. intros y _.
  apply preserves_tryCatch, stop_keeps_force_stopped.
Qed.

Lemma stop_each_force_stops os w :
  faults (env w) = [] ->
  (forall o, In o os -> started (node w o) = true) ->
  forall o, In o os -> force_stopped (stop_each os w) o = true.
Proof. apply stop_loop_force_stops. Qed.

Lemma stop_keeps_node x when o s :
  x <> o -> preserves (fun w => node w o = s) (stop x when).
Proof.
  intros Hne w H. unfold node in *. expose w. cbn in *. fault; cbn; auto.
  destruct (s_start (nth x l new_oscillator)); cbn; auto.
  destruct (s_ended (nth x l new_oscillator)); cbn; auto.
  now rewrite nth_upd_other.
Qed.

Lemma stop_each_keeps_node os o w :
  ~ In o os -> node (stop_each os w) o = node w o.
Proof.
  intros Hout. unfold stop_each. revert w.
  enough (forall s, preserves (fun w => node w o = s)
                      (forEach os 0 (fun o _ => tryCatch (stop o None))))
    as H by (intros w; now apply H).
  intros s. apply preserves_forEach_in. intros x _ Hx.
  apply preserves_tryCatch, stop_keeps_node. intros ->. contradiction.
Qed.

Lemma bg_cancelled_noop w :
  bgInterval (eng w) = None -> bg_cancelled w = w.
Proof. intros H. expose_all w. cbn in H. now subst i. Qed.

Lemma stopBgMusic_twice w :
  stopBgMusic (snd (stopBgMusic w)) = (Normal tt, snd (stopBgMusic w)).
Proof.
  rewrite (stopBgMusic_eq w). cbn [snd].
  set (w1 := stop_each _ (bg_cancelled w)).
  assert (H1 : bgInterval (eng w1) = None).
  { unfold w1. rewrite (se_bgInterval (stop_each_Settles' _ _)).
    apply bgInterval_bg_cancelled. }
  rewrite stopBgMusic_eq. f_equal.
  rewrite bg_cancelled_noop by exact H1.
  destruct w1 as [[] ?]. reflexivity.
Qed.

Lemma bg_cancelled_heartbeat_timers w :
  timers_ok w -> heartbeat_timers (bg_cancelled w) = heartbeat_timers w.
Proof.
  intros [T1 T2 T3 T4]. expose_all w.
  unfold heartbeat_timers, bg_timers, bg_cancelled in *. cbn in *.
  destruct i as [j|]; cbn; auto.
  rewrite filter_comm. destruct h as [k|].
  - destruct T2 as [d ->]. apply keep_other_timer with (j := k); auto.
    intros ->. now apply (T4 j).
  - now rewrite T2.
Qed.

(** What [stopBgMusic] does to a world that satisfies the invariant. *)
Lemma stopBgMusic_effect (w : World) (I : Inv w) :
  let w' := snd (stopBgMusic w) in
  fst (stopBgMusic w) = Normal tt /\
  bgInterval (eng w') = None /\
  bg_timers w' = [] /\
  heartbeat_timers w' = heartbeat_timers w /\
  bgOscillators (eng w') = [] /\
  bgPlaying (eng w') = false /\
  currentMusicType (eng w') = Null /\
  (faults (env w) = [] ->
   forall o, In o (bgOscillators (eng w)) -> force_stopped w' o = true) /\
  (forall o, is_oscillator (node w o) = false -> node w' o = node w o) /\
  stopBgMusic w' = (Normal tt, w').
Proof.
  intros w'.
  assert (I' : Inv w') by now apply Inv_stopBgMusic.
  pose proof (stopBgMusic_twice w) as Htwice. fold w' in Htwice.
  assert (Hn : fst (stopBgMusic w) = Normal tt) by now rewrite stopBgMusic_eq.
  set (w1 := stop_each (bgOscillators (eng w)) (bg_cancelled w)).
  assert (E : w' = on_eng bg_idle w1)
    by (unfold w'; now rewrite stopBgMusic_eq).
  clearbody w'. subst w'.
  assert (S1 : Settles (bg_cancelled w) w1) by apply stop_each_Settles'.
  assert (Hi : bgInterval (eng w1) = None).
  { rewrite (se_bgInterval S1). apply bgInterval_bg_cancelled. }
  split; [exact Hn|]. split; [exact Hi|].
  split.
  { pose proof (to_bg (inv_timers I')) as T. cbn in T. now rewrite Hi in T. }
  split.
  { change (heartbeat_timers (on_eng bg_idle w1)) with (heartbeat_timers w1).
    unfold heartbeat_timers at 1. rewrite (se_timers S1).
    apply bg_cancelled_heartbeat_timers, (inv_timers I). }
  split; [reflexivity|]. split; [reflexivity|]. split; [reflexivity|].
  split.
  { intros Hf o Ho.
    change (force_stopped (on_eng bg_idle w1) o) with (force_stopped w1 o).
    apply stop_each_force_stops; auto.
    - expose_all w. now destruct i.
    - intros y Hy. destruct I as [_ _ _ [_ R]]. rewrite Forall_forall in R.
      apply bg_voice_started.
      replace (node (bg_cancelled w) y) with (node w y)
        by (expose_all w; now destruct i).
      now apply R. }
  split; [|exact Htwice].
  intros o Ho. change (node (on_eng bg_idle w1) o) with (node w1 o).
  unfold w1. rewrite stop_each_keeps_node.
  - expose_all w. now destruct i.
  - intros Hin. destruct I as [_ _ _ [_ R]]. rewrite Forall_forall in R.
    specialize (R o Hin). unfold bg_voice in R. rewrite Ho in R.
    now rewrite andb_false_r in R.
Qed.

(** C2, as the code has it.  In every reachable state [stopBgMusic()]
    returns normally; it cancels the sequencer's recurring trigger and no
    other, force-stops every voice held in the background registry (when
    the browser accepts the [stop()] calls), empties the registry, clears
    the playing flag and sets the mode to null; a node that is not an
    oscillator (the noise burst of a lobby pluck) is left as it was; and a
    second call changes nothing. *)
Theorem stopBgMusic_stops_registry (w : World) (Hw : reachable w) :
  let w' := snd (stopBgMusic w) in
  fst (stopBgMusic w) = Normal tt /\
  bgInterval (eng w') = None /\
  bg_timers w' = [] /\
  heartbeat_timers w' = heartbeat_timers w /\
  bgOscillators (eng w') = [] /\
  bgPlaying (eng w') = false /\
  currentMusicType (eng w') = Null /\
  (faults (env w) = [] ->
   forall o, In o (bgOscillators (eng w)) -> force_stopped w' o = true) /\
  (forall o, is_oscillator (node w o) = false -> node w' o = node w o) /\
  stopBgMusic w' = (Normal tt, w').
Proof. apply stopBgMusic_effect, reachable_Inv, Hw. Qed.

Lemma stopBgMusic_stops_registry_witness :
  reachable lobby_playing /\
  bgOscillators (eng lobby_playing) = [0; 1] /\
  bg_timers lobby_playing <> [] /\
  bg_timers (snd (stopBgMusic lobby_playing)) = [] /\
  force_stopped (snd (stopBgMusic lobby_playing)) 0 = true /\
  force_stopped (snd (stopBgMusic lobby_playing)) 1 = true /\
  node (snd (stopBgMusic lobby_playing)) 2 = node lobby_playing 2.
Proof.
  pose proof (stopBgMusic_stops_registry (reachable_run _ : reachable lobby_playing))
    as (_ & _ & H3 & _ & _ & _ & _ & H8 & H9 & _).
  assert (Hf : faults (env lobby_playing) = []) by (vm_compute; reflexivity).
  assert (Hb : bgOscillators (eng lobby_playing) = [0; 1])
    by (vm_compute; reflexivity).
  assert (Hk : is_oscillator (node lobby_playing 2) = false)
    by (vm_compute; reflexivity).
  specialize (H8 Hf). rewrite Hb in H8.
  split; [apply reachable_run|]. split; [exact Hb|].
  split; [vm_compute; discriminate|]. split; [exact H3|].
  split; [apply H8; left; reflexivity|].
  split; [apply H8; right; left; reflexivity|].
  apply H9, Hk.
Defined.

(** C2 as the specification states it fails: of the three sources one
    lobby step creates, [stopBgMusic()] force-stops the two oscillators it
    tracked; the noise burst, scheduled and connected, is not stopped. *)
Lemma stopBgMusic_leaves_noise_burst :
  let w := lobby_playing in
  let w' := snd (stopBgMusic w) in
  map s_kind (sources (env w)) =
    [OscillatorNode; OscillatorNode; AudioBufferSourceNode] /\
  bgOscillators (eng w) = [0; 1] /\
  force_stopped w' 0 = true /\
  force_stopped w' 1 = true /\
  started (node w' 2) = true /\
  s_stop (node w' 2) = None /\
  force_stopped w' 2 = false.
Proof. vm_compute. repeat split. Qed.

(** The shimmer voice of a suspense step is in no registry either: it
    keeps its scheduled stop time, four seconds after the step. *)
Example stopBgMusic_on_suspense_step :
  let w := run [Call (startBgMusic' (Some "suspense"%string))] fresh in
  let w' := snd (stopBgMusic w) in
  length (sources (env w)) = 2 /\
  bgOscillators (eng w) = [0] /\
  force_stopped w' 0 = true /\
  force_stopped w' 1 = false.
Proof. vm_compute. repeat split. Qed.

(** ** Background music: switching the mode *)

(** When no Web Audio call fails, [getCtx] returns a context and changes
    nothing but [ctx] and the contexts' states. *)
Lemma getCtx_ok w :
  faults (env w) = [] ->
  exists c0 cs',
    getCtx w = (Normal c0, on_env (set_contexts cs') (on_eng (set_ctx (Some c0)) w)).
Proof.
  intros Hf. expose_all w. cbn in Hf. subst fs. unfold getCtx. cbn.
  destruct c as [c0|]; cbn.
  - destruct (nth c0 cs running) eqn:E; cbn.
    + exists c0. eexists. reflexivity.
    + exists c0, cs. reflexivity.
  - rewrite nth_app_0. cbn. exists (length cs). eexists. reflexivity.
Qed.

(** The first step of the suspense sequence: the drone and, the step
    cursor being a multiple of four, the shimmer two octaves above. *)
Definition suspense_drone (n g : nat) (f t : Q) : Source :=
  mkSource OscillatorNode sine [setValueAtTime f t] None (Some g)
           (Some t) (Some (t + 4.0)%Q) (Some (FilterBg [n])) false.
Definition suspense_shimmer (g : nat) (f t : Q) : Source :=
  mkSource OscillatorNode sine [setValueAtTime (f * 4)%Q t] None (Some g)
           (Some t) (Some (t + 4.0)%Q) None false.

Lemma begin_music_suspense w type :
  faults (env w) = [] -> muted (eng w) = false ->
  String.eqb type "lobby" = false ->
  let w' := snd (begin_music type w) in
  let n := length (sources (env w)) in
  let g := length (gains (env w)) in
  let t := seconds (clock (env w)) in
  currentMusicType (eng w') = Str type /\
  bgPlaying (eng w') = true /\
  bgStep (eng w') = 1%N /\
  bgOscillators (eng w') = bgOscillators (eng w) ++ [n] /\
  activeOscillators (eng w') = activeOscillators (eng w) /\
  sources (env w') =
    sources (env w) ++ [suspense_drone n g 55.00%Q t;
                        suspense_shimmer (g + 1) 55.00%Q t] /\
  bgInterval (eng w') = Some (next_timer (env w)) /\
  clock (env w') = clock (env w) /\
  exists c0,
    timers (env w') =
    timers (env w) ++ [mkTimer (next_timer (env w)) (cbPlayNote c0 type)
                               1500 (clock (env w) + 1500)].
Proof.
  intros Hf Hm Ht. expose_all w. cbn in Hf, Hm. subst fs m.
  unfold begin_music, getCtx, playNote, sequence, interval. cbn.
  destruct c as [c0|]; cbn.
  - destruct (nth c0 cs running); cbn; rewrite Ht; norm;
      repeat split; eauto.
  - rewrite nth_app_0. cbn. rewrite Ht. norm. repeat split; eauto.
Qed.

Lemma stop_keeps_eng o when e0 :
  preserves (fun w => eng w = e0) (stop o when).
Proof.
  intros w H. expose w. cbn in *. fault; cbn; auto.
  destruct (s_start (nth o l new_oscillator)); cbn; auto.
  destruct (s_ended (nth o l new_oscillator)); cbn; auto.
Qed.

Lemma stop_each_eng os w : eng (stop_each os w) = eng w.
Proof.
  unfold stop_each. revert w.
  enough (forall e0, preserves (fun w => eng w = e0)
            (forEach os 0 (fun o _ => tryCatch (stop o None)))) as H
    by (intros w; now apply H).
  intros e0. apply preserves_forEach. intros o _.
  apply preserves_tryCatch, stop_keeps_eng.
Qed.

Lemma stopBgMusic_frame w :
  let w1 := snd (stopBgMusic w) in
  muted (eng w1) = muted (eng w) /\
  activeOscillators (eng w1) = activeOscillators (eng w) /\
  clock (env w1) = clock (env w) /\
  next_timer (env w1) = next_timer (env w) /\
  length (sources (env w1)) = length (sources (env w)) /\
  (faults (env w) = [] -> faults (env w1) = []) /\
  (forall o, static (node w1 o) = static (node w o)).
Proof.
  cbv zeta. rewrite stopBgMusic_eq. cbn [snd].
  set (w0 := bg_cancelled w).
  pose proof (stop_each_Settles' (bgOscillators (eng w)) w0) as S.
  assert (E0 : muted (eng w0) = muted (eng w) /\
               activeOscillators (eng w0) = activeOscillators (eng w) /\
               clock (env w0) = clock (env w) /\
               next_timer (env w0) = next_timer (env w) /\
               sources (env w0) = sources (env w) /\
               faults (env w0) = faults (env w))
    by (unfold w0; expose_all w; now destruct i).
  destruct E0 as (E1 & E2 & E3 & E4 & E5 & E6).
  pose proof (stop_each_Settles' (bgOscillators (eng w)) w0) as S1.
  repeat split.
  - cbn. now rewrite (se_muted S).
  - cbn. now rewrite stop_each_eng.
  - cbn. now rewrite (se_clock S).
  - cbn. now rewrite (se_next_timer S).
  - cbn. rewrite <- E5.
    pose proof (se_statics S) as Hst. unfold statics in Hst.
    apply (f_equal (@length _)) in Hst. now rewrite !length_map in Hst.
  - intros Hf. cbn. apply stop_each_keeps_faults. now rewrite E6.
  - intros o. change (node (on_eng bg_idle (stop_each (bgOscillators (eng w)) w0)) o)
      with (node (stop_each (bgOscillators (eng w)) w0) o).
    rewrite (Settles_node o S). unfold node. now rewrite E5.
Qed.

Lemma force_stopped_ext w w' o :
  node w' o = node w o -> clock (env w') = clock (env w) ->
  force_stopped w' o = force_stopped w o.
Proof. intros H1 H2. unfold force_stopped. now rewrite H1, H2. Qed.

(** C3, as the code has it.  From a reachable, unmuted state in which the
    lobby music plays, with no Web Audio call failing,
    [startBgMusic('suspense')] leaves a session of mode suspense whose
    step cursor, reset to 0 before the first step was synthesised, is 1;
    the registry holds the drone of that step (55 Hz) and nothing else;
    no lobby voice is in either registry; the voices the lobby session
    had registered are force-stopped; and the one recurring trigger of
    the sequencer is the suspense one, of period 1500 ms. *)
Theorem lobby_to_suspense (w : World) (Hw : reachable w)
    (Hm : muted (eng w) = false) (Hp : bgPlaying (eng w) = true)
    (Ht : currentMusicType (eng w) = Str "lobby")
    (Hf : faults (env w) = []) :
  let w' := snd (startBgMusic (Some "suspense"%string) w) in
  let drone := length (sources (env w)) in
  fst (startBgMusic (Some "suspense"%string) w) = Normal tt /\
  currentMusicType (eng w') = Str "suspense" /\
  bgPlaying (eng w') = true /\
  bgStep (eng w') = 1%N /\
  bgOscillators (eng w') = [drone] /\
  s_frequency (node w' drone) =
    [setValueAtTime 55.00%Q (seconds (clock (env w)))] /\
  (forall o, In o (activeOscillators (eng w') ++ bgOscillators (eng w')) ->
             lobby_voice (node w' o) = false) /\
  (forall o, In o (bgOscillators (eng w)) -> force_stopped w' o = true) /\
  exists c0,
    bg_timers w' = [mkTimer (next_timer (env w)) (cbPlayNote c0 "suspense")
                            1500 (clock (env w) + 1500)].
Proof.
  intros w' drone. subst drone.
  assert (I' : Inv w') by (apply Inv_startBgMusic, reachable_Inv, Hw).
  assert (E : w' = snd (begin_music "suspense" (snd (stopBgMusic w)))).
  { unfold w'. rewrite startBgMusic_eq. cbn [snd requested].
    rewrite Hm, Hp, Ht. reflexivity. }
  assert (Hn : fst (startBgMusic (Some "suspense"%string) w) = Normal tt)
    by now rewrite startBgMusic_eq.
  clearbody w'.
  destruct (stopBgMusic_effect (reachable_Inv Hw))
    as (_ & _ & B3 & _ & B5 & _ & _ & B8 & _ & _).
  destruct (stopBgMusic_frame w) as (F1 & F2 & F3 & F4 & F5 & F6 & F7).
  set (w1 := snd (stopBgMusic w)) in *.
  destruct (@begin_music_suspense w1 "suspense")
    as (G1 & G2 & G3 & G4 & G5 & G6 & G7 & G8 & c0 & G9); auto; [congruence|].
  rewrite <- E in *. clear E.
  rewrite B5 in G4. rewrite F5 in G4, G6. rewrite F4 in G7, G9. rewrite F3 in G6, G8, G9.
  cbn [app] in G4.
  assert (Hd : node w' (length (sources (env w))) =
               suspense_drone (length (sources (env w))) (length (gains (env w1)))
                              55.00%Q (seconds (clock (env w)))).
  { unfold node. rewrite G6. rewrite <- F5. now rewrite nth_app_0. }
  split; [exact Hn|]. split; [exact G1|]. split; [exact G2|].
  split; [exact G3|]. split; [exact G4|]. split; [now rewrite Hd|].
  split; [|split].
  - intros o Ho. apply in_app_or in Ho. destruct Ho as [Ho|Ho].
    + destruct I' as [_ _ _ [R _]]. rewrite Forall_forall in R.
      specialize (R o Ho). unfold effect_voice in R.
      apply andb_prop in R. destruct R as [_ R].
      now destruct (lobby_voice (node w' o)).
    + rewrite G4 in Ho. destruct Ho as [<-|[]]. now rewrite Hd.
  - intros o Ho. rewrite <- (B8 Hf o Ho). apply force_stopped_ext; [|exact (eq_trans G8 (eq_sym F3))].
    unfold node at 1. rewrite G6. apply app_nth1.
    apply started_in_range. fold (node w1 o).
    rewrite (started_static (F7 o)).
    destruct (reachable_Inv Hw) as [_ _ _ [_ R]]. rewrite Forall_forall in R.
    apply bg_voice_started. now apply R.
  - exists c0. unfold bg_timers. rewrite G9, filter_app.
    fold (bg_timers w1). rewrite B3. reflexivity.
Qed.

(** C3 as the specification states it fails: after the switch the step
    cursor is 1, not 0 (step 0 has been played). *)
Lemma lobby_to_suspense_cursor_is_one :
  let w' := run [Call (startBgMusic' (Some "lobby"%string));
                 Call (startBgMusic' (Some "suspense"%string))] fresh in
  currentMusicType (eng w') = Str "suspense" /\
  bgStep (eng w') = 1%N /\
  N.eqb (bgStep (eng w')) 0 = false.
Proof. vm_compute. repeat split. Qed.

Lemma lobby_to_suspense_witness :
  reachable lobby_playing /\
  muted (eng lobby_playing) = false /\
  bgPlaying (eng lobby_playing) = true /\
  currentMusicType (eng lobby_playing) = Str "lobby" /\
  faults (env lobby_playing) = [] /\
  bgStep (eng (snd (startBgMusic (Some "suspense"%string) lobby_playing))) = 1%N /\
  bgOscillators (eng (snd (startBgMusic (Some "suspense"%string) lobby_playing)))
    = [length (sources (env lobby_playing))].
Proof.
  assert (H1 : muted (eng lobby_playing) = false) by reflexivity.
  assert (H2 : bgPlaying (eng lobby_playing) = true) by reflexivity.
  assert (H3 : currentMusicType (eng lobby_playing) = Str "lobby") by reflexivity.
  assert (H4 : faults (env lobby_playing) = []) by reflexivity.
  pose proof (@lobby_to_suspense lobby_playing (reachable_run _) H1 H2 H3 H4)
    as (_ & _ & _ & A & B & _).
  split; [apply reachable_run|]. split; [exact H1|]. split; [exact H2|].
  split; [exact H3|]. split; [exact H4|]. split; [exact A | exact B].
Defined.

(** ** Failures of the audio backend *)










(** ** Time passing *)

Lemma dispatch_normal o w : fst (dispatch o w) = Normal tt.
Proof.
  expose w. unfold dispatch. cbn.
  destruct (negb (s_ended (nth o l new_oscillator)) &&
            ended_by rate (seconds clk) (nth o l new_oscillator)); cbn; auto.
  destruct (s_onended (nth o l new_oscillator)); reflexivity.
Qed.

Lemma fire_normal id w : fst (fire id w) = Normal tt.
Proof.
  unfold fire. cbn.
  destruct (find _ (timers (env w))) as [t0|]; cbn; auto.
  destruct (t_due t0 <=? clock (env w))%N; reflexivity.
Qed.

Lemma forEach_cons_normal {A} (x : A) l i body w :
  fst (body x i w) = Normal tt ->
  snd (forEach (x :: l) i body w) = snd (forEach l (S i) body (snd (body x i w))).
Proof.
  intros H. cbn [forEach]. unfold bind.
  destruct (body x i w) as [[[]|] w1]; [reflexivity | discriminate].
Qed.

Lemma fire_keeps_clock id c0 :
  preserves (fun w => clock (env w) = c0) (fire id).
Proof.
  unfold fire.
  apply preserves_bind; [apply preserves_getB|]. intros [t0|].
  - apply preserves_bind; [apply preserves_getB|]. intros now.
    destruct (t_due t0 <=? now)%N; [|apply preserves_ret].
    apply preserves_bind; [intros w H; exact H|]. intros _.
    apply preserves_tryCatch. destruct (t_callback t0); cbn [run_callback].
    + intros w H. now rewrite (gr_clock (heartbeat_Grows w)).
    + intros w H. now rewrite (gr_clock (playNote_Grows _ _ w)).
  - apply preserves_bind; [apply preserves_getB|]. intros _.
    apply preserves_ret.
Qed.

Lemma events_keep_clock c0 :
  preserves (fun w => clock (env w) = c0) (dispatch_ended ;; fire_timers).
Proof.
  apply preserves_bind.
  - intros w1 H. now rewrite (se_clock (dispatch_ended_Settles w1)).
  - intros _. unfold fire_timers.
    apply preserves_bind; [apply preserves_getB|]. intros ids.
    apply preserves_forEach. intros id _. apply fire_keeps_clock.
Qed.

(** A millisecond, once the clock has moved. *)
Definition tick_clock (w : World) : World :=
  on_env (fun b => set_clock (clock b + 1)%N b) w.

Lemma millisecond_eq w :
  millisecond w = snd ((dispatch_ended ;; fire_timers) (tick_clock w)).
Proof. reflexivity. Qed.

Lemma dispatch_ended_normal w : fst (dispatch_ended w) = Normal tt.
Proof.
  unfold dispatch_ended, bind, getB. cbn [fst snd].
  apply forEach_normal. intros; apply dispatch_normal.
Qed.

Lemma millisecond_steps w :
  millisecond w = snd (fire_timers (snd (dispatch_ended (tick_clock w)))).
Proof.
  rewrite millisecond_eq. unfold bind at 1.
  pose proof (dispatch_ended_normal (tick_clock w)) as H.
  destruct (dispatch_ended (tick_clock w)) as [[[]|] w1];
    [reflexivity | discriminate].
Qed.

Lemma clock_millisecond w :
  clock (env (millisecond w)) = (clock (env w) + 1)%N.
Proof. rewrite millisecond_eq. now apply events_keep_clock. Qed.

Lemma elapse_succ ms w : elapse (N.succ ms) w = millisecond (elapse ms w).
Proof. apply N.iter_succ. Qed.

Lemma elapse_add a b w : elapse (a + b) w = elapse a (elapse b w).
Proof. apply N.iter_add. Qed.

Lemma clock_elapse ms w : clock (env (elapse ms w)) = (clock (env w) + ms)%N.
Proof.
  induction ms using N.peano_ind.
  - cbn. now rewrite N.add_0_r.
  - rewrite elapse_succ, clock_millisecond, IHms. lia.
Qed.

(** ** The voice factory *)

(** The voice [n], created with stop time [T] and the handler that
    removes it from the effect registry: until its ended event it is as it
    was scheduled; after it, it is in the registry no more. *)
Definition awaiting_end (n : nat) (T : Q) (w : World) : Prop :=
  n < length (sources (env w)) /\
  (s_ended (node w n) = false ->
   started (node w n) = true /\ s_stop (node w n) = Some T /\
   s_onended (node w n) = Some (FilterActive n)) /\
  (s_ended (node w n) = true -> ~ In n (activeOscillators (eng w))).

(** The ended event of [n] has been dispatched if its stop time has come. *)
Definition end_dispatched (n : nat) (T : Q) (w : World) : Prop :=
  Qle_bool T (seconds (clock (env w))) = true -> s_ended (node w n) = true.


Lemma dispatch_keeps_node o n s :
  o <> n -> preserves (fun w => node w n = s) (dispatch o).
Proof.
  intros Hne w H. unfold node in *. expose w. unfold dispatch. cbn in *.
  destruct (negb (s_ended (nth o l new_oscillator)) &&
            ended_by rate (seconds clk) (nth o l new_oscillator)); cbn; auto.
  destruct (s_onended (nth o l new_oscillator)) as [[x|xs]|]; cbn;
    now rewrite nth_upd_other.
Qed.

Lemma dispatch_awaiting n T o :
  preserves (awaiting_end n T) (dispatch o).
Proof.
  intros w (Hn & H1 & H2). unfold awaiting_end, node in *.
  expose w. unfold dispatch. cbn in *.
  destruct (negb (s_ended (nth o l new_oscillator)) &&
            ended_by rate (seconds clk) (nth o l new_oscillator)) eqn:C; cbn;
    [|auto].
  apply andb_prop in C. destruct C as [C1 C2].
  apply negb_true_iff in C1.
  destruct (Nat.eq_dec o n) as [->|Hne].
  - destruct (H1 C1) as (_ & _ & Hh). rewrite Hh. cbn.
    rewrite upd_length, nth_upd_same by exact Hn. cbn.
    split; [exact Hn|]. split; [discriminate|].
    intros _ Hin. apply filter_In in Hin. destruct Hin as [_ Hin].
    now rewrite Nat.eqb_refl in Hin.
  - destruct (s_onended (nth o l new_oscillator)) as [[x|xs]|]; cbn;
      rewrite upd_length, nth_upd_other by exact Hne;
      (split; [exact Hn|]); (split; [exact H1|]); auto.
    intros He Hin. apply filter_In in Hin. now apply (H2 He).
Qed.

Lemma dispatch_self n T w :
  awaiting_end n T w -> end_dispatched n T (snd (dispatch n w)).
Proof.
  intros (Hn & H1 & H2). unfold end_dispatched, awaiting_end, node in *.
  expose w. unfold dispatch. cbn in *.
  destruct (s_ended (nth n l new_oscillator)) eqn:E; cbn.
  - now rewrite E.
  - destruct (H1 eq_refl) as (Hs & Hstop & Hh).
    unfold ended_by, started in *.
    destruct (s_start (nth n l new_oscillator)); [|discriminate].
    rewrite Hstop.
    destruct (Qle_bool T (seconds clk)) eqn:Q; cbn.
    + rewrite Hh. cbn. rewrite nth_upd_same by exact Hn. reflexivity.
    + destruct (match s_kind (nth n l new_oscillator) with
                | OscillatorNode => false
                | AudioBufferSourceNode => _
                end); cbn; [|now rewrite Q].
      rewrite Hh. cbn. rewrite nth_upd_same by exact Hn. reflexivity.
Qed.

Lemma dispatch_keeps_dispatched n T o :
  preserves (fun w => awaiting_end n T w /\ end_dispatched n T w) (dispatch o).
Proof.
  intros w [Ha Hd]. split; [now apply dispatch_awaiting|].
  destruct (Nat.eq_dec o n) as [->|Hne]; [now apply dispatch_self|].
  unfold end_dispatched in *.
  rewrite (se_clock (dispatch_Settles o w)).
  intros Hq. rewrite (@dispatch_keeps_node o n (node w n) Hne w eq_refl).
  now apply Hd.
Qed.

Lemma dispatch_loop n T l : forall i w,
  awaiting_end n T w -> In n l ->
  let w' := snd (forEach l i (fun o _ => dispatch o) w) in
  awaiting_end n T w' /\ end_dispatched n T w'.
Proof.
  induction l as [|x l IH]; intros i w Ha Hin; [destruct Hin|].
  cbv zeta. rewrite forEach_cons_normal by apply dispatch_normal.
  destruct (Nat.eq_dec x n) as [->|Hne].
  - assert (H1 : awaiting_end n T (snd (dispatch n w)) /\
                 end_dispatched n T (snd (dispatch n w)))
      by (split; [now apply dispatch_awaiting | now apply dispatch_self]).
    revert H1. generalize (snd (dispatch n w)).
    change (preserves (fun w => awaiting_end n T w /\ end_dispatched n T w)
              (forEach l (S i) (fun o _ => dispatch o))).
    apply preserves_forEach. intros o _. apply dispatch_keeps_dispatched.
  - destruct Hin as [Hx|Hin]; [contradiction|].
    apply IH; auto. now apply dispatch_awaiting.
Qed.

Lemma dispatch_ended_awaiting n T w :
  awaiting_end n T w ->
  awaiting_end n T (snd (dispatch_ended w)) /\
  end_dispatched n T (snd (dispatch_ended w)).
Proof.
  intros Ha. unfold dispatch_ended, bind, getB. cbn [fst snd].
  apply (dispatch_loop (seq 0 (length (sources (env w)))) 0 Ha).
  apply in_seq. destruct Ha as (Hn & _). lia.
Qed.












(** ** The heartbeat loop *)

(** A voice of a heartbeat unit: one tone set to 60 Hz. *)
Definition heartbeat_tone (fs : list Automation) : bool :=
  match fs with
  | [setValueAtTime f _] => Qeq_bool f 60
  | _ => false
  end.
Definition is_heartbeat_voice (s : Source) : bool := heartbeat_tone (s_frequency s).

Definition heartbeat_voices (w : World) : nat :=
  length (filter is_heartbeat_voice (sources (env w))).

(** Heartbeat units, of two voices each, created between two worlds. *)
Definition heartbeat_units (w w' : World) : nat :=
  (heartbeat_voices w' - heartbeat_voices w) / 2.

Lemma heartbeat_voices_statics w w' :
  statics w' = statics w -> heartbeat_voices w' = heartbeat_voices w.
Proof.
  unfold statics, heartbeat_voices. generalize (sources (env w)).
  induction (sources (env w')) as [|s l IH]; intros [|s' l'] H;
    try discriminate; auto.
  cbn [map] in H. injection H as _ _ _ Hq Hl. cbn [filter].
  assert (E : is_heartbeat_voice s = is_heartbeat_voice s')
    by (unfold is_heartbeat_voice; rewrite Hq; reflexivity).
  rewrite E. destruct (is_heartbeat_voice s'); cbn [length]; auto.
Qed.

(** The two voices of a heartbeat unit. *)
Definition heartbeat_voice (n g : nat) (t delay : Q) : Source :=
  mkSource OscillatorNode sine [setValueAtTime 60 (t + delay)%Q] None (Some g)
           (Some (t + delay)%Q) (Some (t + delay + 0.15)%Q)
           (Some (FilterActive n)) false.

Lemma heartbeat_ok w :
  faults (env w) = [] -> muted (eng w) = false ->
  let w' := snd (heartbeat w) in
  let n := length (sources (env w)) in
  let g := length (gains (env w)) in
  let t := seconds (clock (env w)) in
  sources (env w') =
    sources (env w) ++ [heartbeat_voice n g t 0; heartbeat_voice (n + 1) (g + 1) t 0.15] /\
  activeOscillators (eng w') = activeOscillators (eng w) ++ [n; n + 1] /\
  faults (env w') = [].
Proof.
  intros Hf Hm. expose_all w. cbn in Hf, Hm. subst fs m.
  unfold heartbeat, getCtx, heartbeat_voice. cbn.
  destruct c as [c0|]; cbn.
  - destruct (nth c0 cs running); cbn; norm; repeat split.
  - rewrite nth_app_0. cbn; norm; repeat split.
Qed.

Lemma heartbeat_adds_two w :
  faults (env w) = [] -> muted (eng w) = false ->
  heartbeat_voices (snd (heartbeat w)) = heartbeat_voices w + 2 /\
  faults (env (snd (heartbeat w))) = [].
Proof.
  intros Hf Hm. destruct (heartbeat_ok w Hf Hm) as (Hs & _ & Hf').
  split; [|exact Hf']. unfold heartbeat_voices. rewrite Hs, filter_app, length_app.
  reflexivity.
Qed.

(** No note of either sequence, nor its octave or double octave, is at
    60 Hz. *)
Lemma sequence_not_heartbeat type idx :
  let f := nth idx (sequence type) 0%Q in
  Qeq_bool f 60 = false /\ Qeq_bool (f * 2) 60 = false /\
  Qeq_bool (f * 4) 60 = false.
Proof.
  unfold sequence. destruct (String.eqb type "lobby").
  - do 17 (destruct idx as [|idx]; [vm_compute; auto|]).
    destruct idx; vm_compute; auto.
  - do 9 (destruct idx as [|idx]; [vm_compute; auto|]).
    destruct idx; vm_compute; auto.
Qed.

Lemma playNote_quiet c0 type w :
  faults (env w) = [] ->
  heartbeat_voices (snd (playNote c0 type w)) = heartbeat_voices w /\
  faults (env (snd (playNote c0 type w))) = [].
Proof.
  intros Hf. destruct (playNote c0 type w) as [r w'] eqn:E. revert E.
  expose_all w. cbn in Hf. subst fs.
  unfold playNote, playGuitarPluck, heartbeat_voices. cbn.
  destruct (m || negb p); cbn; [intros [= <- <-]; auto|].
  destruct (sequence_not_heartbeat type
              (N.to_nat (n mod N.of_nat (length (sequence type)))))
    as (H1 & H2 & H4).
  set (f := nth _ (sequence type) 0%Q) in *. clearbody f.
  destruct (String.eqb type "lobby"); cbn;
    [|destruct (n mod 4 =? 0)%N; cbn];
    repeat (norm; rewrite <- ?Nat.add_assoc; cbn).
  all: intros [= <- <-]; cbn.
  all: rewrite filter_app; cbn; unfold is_heartbeat_voice; cbn;
    rewrite ?H1, ?H2, ?H4; cbn; rewrite app_nil_r; auto.
Qed.

Lemma dispatch_keeps_faults o fs0 :
  preserves (fun w => faults (env w) = fs0) (dispatch o).
Proof.
  intros w H. expose w. unfold dispatch. cbn in *.
  destruct (negb (s_ended (nth o l new_oscillator)) &&
            ended_by rate (seconds clk) (nth o l new_oscillator)); cbn; auto.
  destruct (s_onended (nth o l new_oscillator)) as [[x|xs]|]; cbn; auto.
Qed.

Lemma dispatch_ended_keeps_faults fs0 :
  preserves (fun w => faults (env w) = fs0) dispatch_ended.
Proof.
  unfold dispatch_ended.
  apply preserves_bind; [apply preserves_getB|]. intros n.
  apply preserves_forEach. intros o _. apply dispatch_keeps_faults.
Qed.

(** The heartbeat trigger of handle [i] is live and next due at [D], the
    engine is unmuted, no Web Audio call fails, and [k] heartbeat voices
    have been created. *)
Record beating (i : positive) (D : N) (k : nat) (w : World) : Prop := mkBeating {
  bt_muted : muted (eng w) = false;
  bt_faults : faults (env w) = [];
  bt_timers : timers_ok w;
  bt_timer : heartbeat_timers w = [mkTimer i cbHeartbeat 800 D];
  bt_voices : heartbeat_voices w = k
}.

Lemma beating_handle i D k w :
  beating i D k w -> heartbeatInterval (eng w) = Some i.
Proof.
  intros [_ _ [_ T2 _ _] E _]. rewrite E in T2.
  destruct (heartbeatInterval (eng w)) as [j|]; [|discriminate].
  destruct T2 as [d T2]. congruence.
Qed.

Lemma beating_other_timer i D k w t0 :
  beating i D k w -> In t0 (timers (env w)) -> t_id t0 <> i ->
  exists c0 type, t_callback t0 = cbPlayNote c0 type.
Proof.
  intros B Hin Hid. destruct (t_callback t0) as [|c0 type] eqn:E; [|eauto].
  exfalso. apply Hid.
  assert (H : In t0 (heartbeat_timers w)).
  { apply filter_In. split; [exact Hin|]. unfold is_heartbeat_timer.
    now rewrite E. }
  rewrite (bt_timer B) in H. destruct H as [<-|[]]. reflexivity.
Qed.

Lemma beating_find i D k w :
  beating i D k w ->
  find (fun t => Pos.eqb (t_id t) i) (timers (env w)) =
  Some (mkTimer i cbHeartbeat 800 D).
Proof.
  intros B.
  assert (H : forall t0, In t0 (timers (env w)) ->
                         is_heartbeat_timer t0 = false -> t_id t0 <> i).
  { intros t0 Hin Hb Hid.
    pose proof (beating_handle B) as Hh.
    destruct (bt_timers B) as [_ _ T3 T4]. specialize (T4 i Hh).
    assert (Hbg : In t0 (bg_timers w)).
    { apply filter_In. split; [exact Hin | now rewrite Hb]. }
    destruct (bgInterval (eng w)) as [j|].
    - destruct T3 as (c0 & type & d & T3). rewrite T3 in Hbg.
      destruct Hbg as [<-|[]]. cbn in Hid. congruence.
    - rewrite T3 in Hbg. destruct Hbg. }
  pose proof (bt_timer B) as E. unfold heartbeat_timers in E.
  revert H E. generalize (timers (env w)) as ts.
  induction ts as [|t0 ts IH]; intros H E; [discriminate|].
  cbn [find filter] in *. destruct (is_heartbeat_timer t0) eqn:Hb.
  - injection E as -> E. cbn. now rewrite Pos.eqb_refl.
  - destruct (Pos.eqb (t_id t0) i) eqn:Hid.
    + apply Pos.eqb_eq in Hid. exfalso. apply (H t0); auto. now left.
    + apply IH; [|exact E]. intros t1 Hin. apply H. now right.
Qed.

Lemma beating_rearm_own i D k w :
  beating i D k w -> beating i (D + 800) k (on_env (rearm i) w).
Proof.
  intros [B1 B2 B3 B4 B5]. apply (rearm_timers_ok i) in B3.
  destruct w as [e b]. constructor; auto.
  unfold heartbeat_timers in *. cbn in *.
  rewrite rearm_filter by reflexivity. rewrite B4. cbn.
  now rewrite Pos.eqb_refl.
Qed.

Lemma beating_rearm_other i D k id w :
  Pos.eqb i id = false ->
  beating i D k w -> beating i D k (on_env (rearm id) w).
Proof.
  intros Hid [B1 B2 B3 B4 B5]. apply (rearm_timers_ok id) in B3.
  destruct w as [e b]. constructor; auto.
  unfold heartbeat_timers in *. cbn in *.
  rewrite rearm_filter by reflexivity. rewrite B4. cbn.
  now rewrite Hid.
Qed.

Lemma beating_Grows i D k k' w w' :
  Grows w w' -> faults (env w') = [] -> heartbeat_voices w' = k' ->
  beating i D k w -> beating i D k' w'.
Proof.
  intros G Hf Hk [B1 B2 B3 B4 B5]. constructor; auto.
  - now rewrite (gr_muted G).
  - revert B3. apply timers_ok_ext; apply G.
  - unfold heartbeat_timers in *. now rewrite (gr_timers G).
Qed.

Lemma beating_Settles i D k w w' :
  Settles w w' -> faults (env w') = faults (env w) ->
  beating i D k w -> beating i D k w'.
Proof.
  intros S Hf [B1 B2 B3 B4 B5]. constructor.
  - now rewrite (se_muted S).
  - now rewrite Hf.
  - revert B3. apply timers_ok_ext; apply S.
  - unfold heartbeat_timers in *. now rewrite (se_timers S).
  - now rewrite (heartbeat_voices_statics _ _ (se_statics S)).
Qed.

Lemma beating_heartbeat i D k w :
  beating i D k w -> beating i D (k + 2) (snd (heartbeat w)).
Proof.
  intros B.
  destruct (heartbeat_adds_two w (bt_faults B) (bt_muted B)) as [Hk Hf].
  apply (@beating_Grows i D k _ _ _ (heartbeat_Grows w) Hf); [|exact B].
  rewrite Hk. f_equal. exact (bt_voices B).
Qed.

Lemma beating_playNote i D k c0 type w :
  beating i D k w -> beating i D k (snd (playNote c0 type w)).
Proof.
  intros B.
  destruct (playNote_quiet c0 type w (bt_faults B)) as [Hk Hf].
  apply (@beating_Grows i D k _ _ _ (playNote_Grows c0 type w) Hf); [|exact B].
  rewrite Hk. exact (bt_voices B).
Qed.

(** One timer, visited by the event loop: the trigger fires when it is
    due, and a unit of two voices sounds; the sequencer adds none. *)
Lemma fire_beating i D k id w :
  beating i D k w -> (clock (env w) <= D)%N ->
  let fired := Pos.eqb id i && (D =? clock (env w))%N in
  beating i (if fired then D + 800 else D) (if fired then k + 2 else k)
          (snd (fire id w)).
Proof.
  intros B Hc. unfold fire, bind, getB, modB, task, tryCatch. cbn [fst snd].
  destruct (Pos.eqb id i) eqn:Hid; cbn [andb].
  - apply Pos.eqb_eq in Hid. subst id. rewrite (beating_find B). cbn [t_due t_callback].
    destruct (D =? clock (env w))%N eqn:HD.
    + apply N.eqb_eq in HD. rewrite <- HD, N.leb_refl. cbn [snd run_callback].
      apply beating_heartbeat. now apply beating_rearm_own.
    + apply N.eqb_neq in HD.
      destruct (D <=? clock (env w))%N eqn:Hle;
        [apply N.leb_le in Hle; lia | exact B].
  - destruct (find _ (timers (env w))) as [t0|] eqn:F; [|exact B].
    apply find_some in F. destruct F as [Hin Ht0]. apply Pos.eqb_eq in Ht0.
    destruct (t_due t0 <=? clock (env w))%N; [|exact B]. cbn [snd].
    assert (Hne : t_id t0 <> i).
    { rewrite Ht0. intros ->. rewrite Pos.eqb_refl in Hid. discriminate. }
    destruct (@beating_other_timer _ _ _ _ t0 B Hin Hne) as (c0 & type & ->).
    cbn [run_callback]. apply beating_playNote.
    apply beating_rearm_other; [|exact B].
    rewrite Pos.eqb_sym. exact Hid.
Qed.

Lemma fire_each_beating i ids :
  forall idx D k w,
  beating i D k w -> (clock (env w) <= D)%N ->
  let fired := existsb (fun id => Pos.eqb id i) ids && (D =? clock (env w))%N in
  beating i (if fired then D + 800 else D) (if fired then k + 2 else k)
          (snd (forEach ids idx (fun id _ => fire id) w)).
Proof.
  induction ids as [|x ids IH]; intros idx D k w B Hc.
  - exact B.
  - rewrite forEach_cons_normal by apply fire_normal.
    pose proof (fire_beating x B Hc) as B1.
    pose proof (fire_keeps_clock x (w := w) eq_refl) as Hclk.
    cbv zeta in *. cbn [existsb].
    destruct (Pos.eqb x i); cbn [orb andb] in *.
    + destruct (D =? clock (env w))%N eqn:HD.
      * apply N.eqb_eq in HD.
        assert (Hc1 : (clock (env (snd (fire x w))) <= D + 800)%N)
          by (rewrite Hclk; lia).
        specialize (IH (S idx) _ _ _ B1 Hc1). cbv zeta in IH.
        replace (D + 800 =? clock (env (snd (fire x w))))%N with false in IH
          by (symmetry; apply N.eqb_neq; rewrite Hclk; lia).
        rewrite andb_false_r in IH. exact IH.
      * assert (Hc1 : (clock (env (snd (fire x w))) <= D)%N)
          by (rewrite Hclk; lia).
        specialize (IH (S idx) _ _ _ B1 Hc1). cbv zeta in IH.
        rewrite Hclk, HD, andb_false_r in IH. exact IH.
    + assert (Hc1 : (clock (env (snd (fire x w))) <= D)%N)
        by (rewrite Hclk; lia).
      specialize (IH (S idx) _ _ _ B1 Hc1). cbv zeta in IH.
      rewrite Hclk in IH. exact IH.
Qed.

Lemma fire_timers_beating i D k w :
  beating i D k w -> (clock (env w) <= D)%N ->
  let fired := (D =? clock (env w))%N in
  beating i (if fired then D + 800 else D) (if fired then k + 2 else k)
          (snd (fire_timers w)).
Proof.
  intros B Hc. unfold fire_timers, bind, getB.
  pose proof (fire_each_beating (map t_id (timers (env w))) 0 B Hc) as H.
  cbv zeta in H.
  replace (existsb (fun id => Pos.eqb id i) (map t_id (timers (env w))))
    with true in H; [exact H|].
  symmetry. apply existsb_exists. exists i. split; [|apply Pos.eqb_refl].
  pose proof (beating_find B) as F. apply find_some in F.
  apply in_map_iff. eexists. split; [|exact (proj1 F)]. reflexivity.
Qed.

Lemma beating_tick_clock i D k w :
  beating i D k w -> beating i D k (tick_clock w).
Proof.
  intros [B1 B2 B3 B4 B5]. destruct w as [e b].
  constructor; auto. revert B3. apply timers_ok_ext; reflexivity.
Qed.

Lemma millisecond_beating i D k w :
  beating i D k w -> (clock (env w) < D)%N ->
  let fired := (D =? clock (env w) + 1)%N in
  beating i (if fired then D + 800 else D) (if fired then k + 2 else k)
          (millisecond w).
Proof.
  intros B Hc. rewrite millisecond_steps.
  apply beating_tick_clock in B.
  assert (B1 : beating i D k (snd (dispatch_ended (tick_clock w)))).
  { apply (beating_Settles (dispatch_ended_Settles _)); [|exact B].
    now apply dispatch_ended_keeps_faults. }
  assert (Hclk : clock (env (snd (dispatch_ended (tick_clock w)))) =
                 (clock (env w) + 1)%N).
  { rewrite (se_clock (dispatch_ended_Settles _)). now destruct w. }
  assert (Hc1 : (clock (env (snd (dispatch_ended (tick_clock w)))) <= D)%N)
    by (rewrite Hclk; lia).
  pose proof (fire_timers_beating B1 Hc1) as H. cbv zeta in H.
  rewrite Hclk in H. exact H.
Qed.

(** Until the trigger is due nothing beats. *)
Lemma elapse_quiet i D k r :
  forall w, beating i D k w -> (clock (env w) + r < D)%N ->
            beating i D k (elapse r w).
Proof.
  induction r as [|r IH] using N.peano_ind; intros w B Hc; [exact B|].
  rewrite elapse_succ.
  assert (B1 : beating i D k (elapse r w)) by (apply IH; [exact B | lia]).
  assert (Hc1 : (clock (env (elapse r w)) < D)%N) by (rewrite clock_elapse; lia).
  pose proof (millisecond_beating B1 Hc1) as H. cbv zeta in H.
  replace (D =? clock (env (elapse r w)) + 1)%N with false in H; [exact H|].
  symmetry. apply N.eqb_neq. rewrite clock_elapse. lia.
Qed.

(** A period of the trigger: one more unit, and the trigger is due again
    a period later. *)
Lemma elapse_period i k w :
  beating i (clock (env w) + 800) k w ->
  beating i (clock (env (elapse 800 w)) + 800) (k + 2) (elapse 800 w).
Proof.
  intros B.
  replace (elapse 800 w) with (millisecond (elapse 799 w))
    by (symmetry; apply (elapse_succ 799)).
  assert (B1 : beating i (clock (env w) + 800) k (elapse 799 w))
    by (apply elapse_quiet; [exact B | lia]).
  assert (Hc1 : (clock (env (elapse 799 w)) < clock (env w) + 800)%N)
    by (rewrite clock_elapse; lia).
  pose proof (millisecond_beating B1 Hc1) as H. cbv zeta in H.
  rewrite clock_millisecond.
  replace (clock (env w) + 800 =? clock (env (elapse 799 w)) + 1)%N
    with true in H by (symmetry; apply N.eqb_eq; rewrite clock_elapse; lia).
  replace (clock (env (elapse 799 w)) + 1 + 800)%N
    with (clock (env w) + 800 + 800)%N by (rewrite clock_elapse; lia).
  exact H.
Qed.

(** Whole periods, then the rest of a period: a unit per period. *)
Lemma elapse_periods i k w :
  beating i (clock (env w) + 800) k w ->
  forall q, beating i (clock (env w) + 800 * (q + 1)) (k + 2 * N.to_nat q)
                    (elapse (800 * q) w).
Proof.
  intros B q. induction q as [|q IH] using N.peano_ind.
  - cbn [N.mul elapse N.iter N.to_nat]. rewrite N.add_0_l, Nat.mul_0_r, Nat.add_0_r.
    exact B.
  - replace (800 * N.succ q)%N with (800 + 800 * q)%N by lia.
    rewrite elapse_add.
    replace (clock (env w) + 800 * (q + 1))%N
      with (clock (env (elapse (800 * q) w)) + 800)%N in IH
      by (rewrite clock_elapse; lia).
    apply elapse_period in IH.
    rewrite !clock_elapse in IH.
    replace (clock (env w) + 800 * (N.succ q + 1))%N
      with (clock (env w) + 800 * q + 800 + 800)%N by lia.
    replace (k + 2 * N.to_nat (N.succ q)) with (k + 2 * N.to_nat q + 2) by lia.
    exact IH.
Qed.

Lemma beating_elapse i k w ms :
  beating i (clock (env w) + 800) k w ->
  heartbeat_voices (elapse ms w) = k + 2 * N.to_nat (ms / 800).
Proof.
  intros B.
  pose proof (N.div_mod ms 800 ltac:(discriminate)) as E.
  pose proof (N.mod_lt ms 800 ltac:(discriminate)) as Hr.
  rewrite E at 1. rewrite N.add_comm, elapse_add.
  apply bt_voices with (i := i) (D := (clock (env w) + 800 * (ms / 800 + 1))%N).
  apply elapse_quiet; [now apply elapse_periods|].
  rewrite clock_elapse. lia.
Qed.

Lemma heartbeat_installed_timers w :
  timers_ok w -> heartbeatInterval (eng w) = None ->
  heartbeat_timers (heartbeat_installed w) =
  [mkTimer (next_timer (env w)) cbHeartbeat 800 (clock (env w) + 800)].
Proof.
  intros [_ T2 _ _] H. rewrite H in T2. unfold heartbeat_timers in *.
  destruct w as [e b]. cbn in *. rewrite filter_app, T2. reflexivity.
Qed.

Lemma units_of_voices k v q : v = k + 2 * q -> (v - k) / 2 = q.
Proof.
  intros ->. replace (k + 2 * q - k) with (q * 2) by lia.
  apply Nat.div_mul. discriminate.
Qed.

(** C5.  [startHeartbeatLoop] does nothing when the handle of the trigger
    is set.  Otherwise, on an unmuted engine whose Web Audio calls do not
    fail, it plays one unit, the two 60 Hz voices at the current time and
    150 ms later, and installs one trigger of period 800 ms, first due
    800 ms later; a second call changes nothing.  From then on
    [1 + ms / 800] units have sounded after [ms] milliseconds: five
    throughout the fifth period, until just before 4000 ms, the sixth
    being due at 4000 ms sharp. *)
Theorem startHeartbeatLoop_one_trigger (w : World) (Hw : reachable w) :
  (heartbeatInterval (eng w) <> None -> startHeartbeatLoop w = (Normal tt, w)) /\
  (heartbeatInterval (eng w) = None -> muted (eng w) = false ->
   faults (env w) = [] ->
   let w1 := snd (startHeartbeatLoop w) in
   let w2 := snd (startHeartbeatLoop w1) in
   let n := length (sources (env w)) in
   let g := length (gains (env w)) in
   let t := seconds (clock (env w)) in
   sources (env w1) =
     sources (env w) ++ [heartbeat_voice n g t 0; heartbeat_voice (n + 1) (g + 1) t 0.15] /\
   timers (env w1) =
     timers (env w) ++ [mkTimer (next_timer (env w)) cbHeartbeat 800
                                (clock (env w) + 800)] /\
   heartbeat_timers w1 =
     [mkTimer (next_timer (env w)) cbHeartbeat 800 (clock (env w) + 800)] /\
   startHeartbeatLoop w1 = (Normal tt, w1) /\
   (forall ms, heartbeat_units w (elapse ms w2) = 1 + N.to_nat (ms / 800)) /\
   (forall ms, (3200 <= ms < 4000)%N -> heartbeat_units w (elapse ms w2) = 5) /\
   heartbeat_units w (elapse 4000 w2) = 6).
Proof.
  split; [apply startHeartbeatLoop_running|].
  intros Hh Hm Hf. rewrite (startHeartbeatLoop_stopped _ Hh). cbn [snd].
  set (w0 := snd (heartbeat w)).
  pose proof (heartbeat_Grows w) as G. fold w0 in G.
  destruct (heartbeat_ok w Hf Hm) as (Hs & _ & Hf0). fold w0 in Hs, Hf0.
  destruct (heartbeat_adds_two w Hf Hm) as (Hk & _). fold w0 in Hk.
  assert (I0 : Inv w0) by (apply Inv_heartbeat, reachable_Inv, Hw).
  assert (Hh0 : heartbeatInterval (eng w0) = None)
    by (rewrite (gr_heartbeatInterval G); exact Hh).
  pose proof (heartbeat_installed_timers (inv_timers I0) Hh0) as Ht.
  rewrite (gr_next_timer G), (gr_clock G) in Ht.
  assert (Hrun : startHeartbeatLoop (heartbeat_installed w0) =
                 (Normal tt, heartbeat_installed w0)).
  { apply startHeartbeatLoop_running. destruct w0 as [e b]. discriminate. }
  rewrite Hrun. cbn [snd].
  assert (B : beating (next_timer (env w))
                      (clock (env (heartbeat_installed w0)) + 800)
                      (heartbeat_voices w + 2) (heartbeat_installed w0)).
  { replace (clock (env (heartbeat_installed w0))) with (clock (env w))
      by (rewrite <- (gr_clock G); now destruct w0).
    constructor.
    - rewrite <- Hm, <- (gr_muted G). now destruct w0.
    - rewrite <- Hf0. now destruct w0.
    - apply Inv_heartbeat_installed; assumption.
    - exact Ht.
    - rewrite <- Hk. now destruct w0. }
  assert (U : forall ms, heartbeat_units w (elapse ms (heartbeat_installed w0)) =
                         1 + N.to_nat (ms / 800)).
  { intros ms. apply units_of_voices. rewrite (beating_elapse ms B).
    generalize (N.to_nat (ms / 800)). intros q. lia. }
  repeat split.
  - rewrite <- Hs. now destruct w0.
  - rewrite <- (gr_timers G), <- (gr_next_timer G), <- (gr_clock G).
    now destruct w0.
  - exact Ht.
  - exact U.
  - intros ms Hms. rewrite U.
    replace (ms / 800)%N with 4%N; [reflexivity|].
    apply N.div_unique with (r := (ms - 3200)%N); lia.
  - rewrite U. reflexivity.
Qed.

Lemma startHeartbeatLoop_one_trigger_witness :
  reachable fresh /\
  heartbeatInterval (eng fresh) = None /\ muted (eng fresh) = false /\
  faults (env fresh) = [] /\
  heartbeat_units fresh
    (elapse 3999 (snd (startHeartbeatLoop (snd (startHeartbeatLoop fresh))))) = 5.
Proof.
  assert (H1 : heartbeatInterval (eng fresh) = None) by reflexivity.
  assert (H2 : muted (eng fresh) = false) by reflexivity.
  assert (H3 : faults (env fresh) = []) by reflexivity.
  pose proof (proj2 (@startHeartbeatLoop_one_trigger fresh (reachable_run []))
                H1 H2 H3) as (_ & _ & _ & _ & _ & H & _).
  split; [apply (reachable_run [])|]. split; [exact H1|]. split; [exact H2|].
  split; [exact H3|]. apply H. split; [discriminate | reflexivity].
Defined.

(** ** Starting a loop while muted *)

(** The heartbeat trigger of handle [i] is the one live timer of a muted
    engine, next due at [D]; the outcomes of the Web Audio calls to come
    are [fs0] and the scheduled nodes are [s0]. *)
Record waiting (i : positive) (D : N) (fs0 : list bool)
    (s0 : list (SourceKind * OscillatorType * bool * list Automation))
    (w : World) : Prop := mkWaiting {
  wt_muted : muted (eng w) = true;
  wt_timers : timers (env w) = [mkTimer i cbHeartbeat 800 D];
  wt_faults : faults (env w) = fs0;
  wt_statics : statics w = s0
}.

(** A millisecond of muted time: the trigger fires when it is due, its
    callback returns at once, and it is armed for the next period. *)
Lemma millisecond_waiting i D fs0 s0 w :
  waiting i D fs0 s0 w -> (clock (env w) < D)%N ->
  waiting i (if (D =? clock (env w) + 1)%N then D + 800 else D)%N fs0 s0
          (millisecond w).
Proof.
  intros [W1 W2 W3 W4] Hc. rewrite millisecond_steps.
  pose proof (dispatch_ended_Settles (tick_clock w)) as S.
  assert (F : faults (env (snd (dispatch_ended (tick_clock w)))) = fs0)
    by (apply dispatch_ended_keeps_faults; rewrite <- W3; now destruct w).
  set (w1 := snd (dispatch_ended (tick_clock w))) in *.
  assert (M1 : muted (eng w1) = true)
    by (rewrite (se_muted S), <- W1; now destruct w).
  assert (T1 : timers (env w1) = [mkTimer i cbHeartbeat 800 D])
    by (rewrite (se_timers S), <- W2; now destruct w).
  assert (S1 : statics w1 = s0)
    by (rewrite (se_statics S), <- W4; now destruct w).
  assert (C1 : clock (env w1) = (clock (env w) + 1)%N)
    by (rewrite (se_clock S); now destruct w).
  unfold fire_timers, bind, getB. rewrite T1. cbn [map t_id forEach fst snd].
  unfold fire, bind, getB, modB, task, tryCatch, ret. rewrite T1.
  cbn [find t_id fst snd]. rewrite Pos.eqb_refl. cbn [t_due t_callback].
  rewrite C1.
  destruct (D =? clock (env w) + 1)%N eqn:E.
  - apply N.eqb_eq in E. rewrite <- E, N.leb_refl. cbn [fst snd run_callback].
    assert (M2 : muted (eng (on_env (rearm i) w1)) = true) by now destruct w1.
    rewrite (heartbeat_muted _ M2). cbn [snd].
    constructor; try (now destruct w1).
    destruct w1 as [e1 b1]. cbn in *. rewrite T1. cbn.
    now rewrite Pos.eqb_refl.
  - apply N.eqb_neq in E.
    destruct (D <=? clock (env w) + 1)%N eqn:L; [apply N.leb_le in L; lia|].
    cbn [fst snd]. now constructor.
Qed.

Lemma elapse_waiting_rest i D fs0 s0 r :
  forall w, waiting i D fs0 s0 w -> (clock (env w) + r < D)%N ->
            waiting i D fs0 s0 (elapse r w).
Proof.
  induction r as [|r IH] using N.peano_ind; intros w W Hc; [exact W|].
  rewrite elapse_succ.
  assert (W1 : waiting i D fs0 s0 (elapse r w)) by (apply IH; [exact W | lia]).
  assert (Hc1 : (clock (env (elapse r w)) < D)%N) by (rewrite clock_elapse; lia).
  pose proof (millisecond_waiting W1 Hc1) as H.
  replace (D =? clock (env (elapse r w)) + 1)%N with false in H; [exact H|].
  symmetry. apply N.eqb_neq. rewrite clock_elapse. lia.
Qed.

Lemma elapse_waiting_period i fs0 s0 w :
  waiting i (clock (env w) + 800) fs0 s0 w ->
  waiting i (clock (env (elapse 800 w)) + 800) fs0 s0 (elapse 800 w).
Proof.
  intros W.
  replace (elapse 800 w) with (millisecond (elapse 799 w))
    by (symmetry; apply (elapse_succ 799)).
  assert (W1 : waiting i (clock (env w) + 800) fs0 s0 (elapse 799 w))
    by (apply elapse_waiting_rest; [exact W | lia]).
  assert (Hc1 : (clock (env (elapse 799 w)) < clock (env w) + 800)%N)
    by (rewrite clock_elapse; lia).
  pose proof (millisecond_waiting W1 Hc1) as H.
  rewrite clock_millisecond.
  replace (clock (env w) + 800 =? clock (env (elapse 799 w)) + 1)%N
    with true in H by (symmetry; apply N.eqb_eq; rewrite clock_elapse; lia).
  replace (clock (env (elapse 799 w)) + 1 + 800)%N
    with (clock (env w) + 800 + 800)%N by (rewrite clock_elapse; lia).
  exact H.
Qed.

(** However long the engine stays muted, the trigger stays installed, due
    at the end of the period that is running. *)
Lemma elapse_waiting i fs0 s0 w d :
  waiting i (clock (env w) + 800) fs0 s0 w ->
  waiting i (clock (env w) + 800 * (d / 800 + 1)) fs0 s0 (elapse d w).
Proof.
  intros W.
  assert (P : forall q, waiting i (clock (env w) + 800 * (q + 1)) fs0 s0
                                (elapse (800 * q) w)).
  { intros q. induction q as [|q IH] using N.peano_ind; [exact W|].
    replace (800 * N.succ q)%N with (800 + 800 * q)%N by lia.
    rewrite elapse_add.
    replace (clock (env w) + 800 * (q + 1))%N
      with (clock (env (elapse (800 * q) w)) + 800)%N in IH
      by (rewrite clock_elapse; lia).
    apply elapse_waiting_period in IH. rewrite !clock_elapse in IH.
    replace (clock (env w) + 800 * (N.succ q + 1))%N
      with (clock (env w) + 800 * q + 800 + 800)%N by lia.
    exact IH. }
  pose proof (N.div_mod d 800 ltac:(discriminate)) as E.
  pose proof (N.mod_lt d 800 ltac:(discriminate)) as Hr.
  replace (elapse d w) with (elapse (d mod 800) (elapse (800 * (d / 800)) w))
    by (rewrite <- elapse_add; f_equal; lia).
  apply elapse_waiting_rest; [apply P|]. rewrite clock_elapse. lia.
Qed.

(** The units of a trigger that is due within its period. *)
Lemma beating_elapse_from i D k w ms :
  beating i D k w -> (clock (env w) < D <= clock (env w) + 800)%N ->
  heartbeat_voices (elapse ms w) =
  k + 2 * N.to_nat ((ms + (clock (env w) + 800 - D)) / 800).
Proof.
  intros B [H1 H2]. set (r := (D - clock (env w))%N).
  destruct (N.lt_ge_cases ms r) as [Hlt|Hge].
  - rewrite N.div_small by (unfold r in Hlt; lia).
    rewrite Nat.mul_0_r, Nat.add_0_r.
    apply bt_voices with (i := i) (D := D).
    apply elapse_quiet; [exact B | unfold r in Hlt; lia].
  - replace ms with ((ms - r) + N.succ (N.pred r))%N at 1 by (unfold r in *; lia).
    rewrite elapse_add, elapse_succ.
    assert (B1 : beating i D k (elapse (N.pred r) w))
      by (apply elapse_quiet; [exact B | unfold r; lia]).
    assert (Hc1 : (clock (env (elapse (N.pred r) w)) < D)%N)
      by (rewrite clock_elapse; unfold r; lia).
    pose proof (millisecond_beating B1 Hc1) as H. cbv zeta in H.
    replace (D =? clock (env (elapse (N.pred r) w)) + 1)%N with true in H
      by (symmetry; apply N.eqb_eq; rewrite clock_elapse; unfold r; lia).
    replace D with (clock (env (millisecond (elapse (N.pred r) w)))) in H at 1
      by (rewrite clock_millisecond, clock_elapse; unfold r; lia).
    rewrite (beating_elapse (ms - r) H).
    replace (ms + (clock (env w) + 800 - D))%N with ((ms - r) + 1 * 800)%N
      by (unfold r in *; lia).
    rewrite N.div_add by discriminate.
    rewrite N2Nat.inj_add. change (N.to_nat 1) with 1. lia.
Qed.

Lemma periods_between d ms :
  ((d + ms) / 800 - d / 800 = (ms + d mod 800) / 800)%N.
Proof.
  pose proof (N.div_mod d 800 ltac:(discriminate)) as E.
  replace (d + ms)%N with ((ms + d mod 800) + d / 800 * 800)%N
    by (revert E; generalize (d / 800)%N (d mod 800)%N; intros; lia).
  rewrite N.div_add by discriminate.
  generalize ((ms + d mod 800) / 800)%N (d / 800)%N. intros; lia.
Qed.

(** C10.  On a muted engine whose heartbeat loop is stopped,
    [startHeartbeatLoop] plays nothing and still installs the trigger and
    keeps its handle: the loop runs.  However long the engine then stays
    muted, the trigger stays installed with its handle, fires in silence
    every 800 ms and no node is created.  When [toggleMute] unmutes after
    [d] milliseconds, with no further call, a unit sounds at every multiple
    of 800 ms since the start of the loop: [(d + ms) / 800 - d / 800] of
    them in the [ms] milliseconds after the unmute.  [startBgMusic] on a
    muted engine returns at once: the world is unchanged, and no sequence
    is playing in it. *)
Theorem muted_startHeartbeatLoop_still_runs (w : World) (Hw : reachable w)
  (Hm : muted (eng w) = true) (Hh : heartbeatInterval (eng w) = None) :
  let w1 := snd (startHeartbeatLoop w) in
  let i := next_timer (env w) in
  fst (startHeartbeatLoop w) = Normal tt /\
  sources (env w1) = sources (env w) /\
  activeOscillators (eng w1) = [] /\
  heartbeatInterval (eng w1) = Some i /\
  timers (env w1) = [mkTimer i cbHeartbeat 800 (clock (env w) + 800)] /\
  (forall d,
     let wd := elapse d w1 in
     let w2 := snd (toggleMute wd) in
     muted (eng wd) = true /\
     statics wd = statics w /\
     heartbeatInterval (eng wd) = Some i /\
     timers (env wd) =
       [mkTimer i cbHeartbeat 800 (clock (env w) + 800 * (d / 800 + 1))] /\
     fst (toggleMute wd) = Normal false /\
     muted (eng w2) = false /\
     (faults (env w) = [] ->
      forall ms, heartbeat_units w (elapse ms w2) =
                 N.to_nat ((d + ms) / 800 - d / 800))) /\
  (forall type, startBgMusic type w = (Normal tt, w)) /\
  bgPlaying (eng w) = false /\ bgInterval (eng w) = None.
Proof.
  pose proof (reachable_Inv Hw) as I.
  destruct (inv_muted I Hm) as (Ha & _ & Hp).
  pose proof (inv_playing I Hp) as Hi.
  pose proof (no_handle_no_timer (inv_timers I) Hh Hi) as Hts.
  rewrite (startHeartbeatLoop_stopped _ Hh), (heartbeat_muted _ Hm). cbn [fst snd].
  pose proof (Inv_heartbeat_installed I Hh) as I1.
  set (w1 := heartbeat_installed w) in *.
  assert (T1 : timers (env w1) =
               [mkTimer (next_timer (env w)) cbHeartbeat 800 (clock (env w) + 800)])
    by (unfold w1; destruct w as [e b]; cbn in *; now rewrite Hts).
  assert (W : waiting (next_timer (env w)) (clock (env w1) + 800)
                      (faults (env w)) (statics w) w1).
  { constructor.
    - rewrite <- Hm. unfold w1. now destruct w.
    - rewrite T1. unfold w1. now destruct w.
    - unfold w1. now destruct w.
    - unfold w1. now destruct w. }
  assert (C1 : clock (env w1) = clock (env w)) by (unfold w1; now destruct w).
  split; [reflexivity|]. split; [unfold w1; now destruct w|].
  split; [rewrite <- Ha; unfold w1; now destruct w|].
  split; [unfold w1; now destruct w|]. split; [exact T1|].
  split; [|split; [intros type; now apply startBgMusic_muted | auto]].
  intros d. cbv zeta.
  pose proof (elapse_waiting d W) as [D1 D2 D3 D4]. rewrite C1 in D2.
  pose proof (Inv_elapse d I1) as Id.
  set (wd := elapse d w1) in *.
  assert (Hid : heartbeatInterval (eng wd) = Some (next_timer (env w))).
  { pose proof (to_heartbeat (inv_timers Id)) as T.
    unfold heartbeat_timers in T. rewrite D2 in T. cbn in T.
    destruct (heartbeatInterval (eng wd)) as [j|]; [|discriminate].
    destruct T as [due T]. congruence. }
  rewrite toggleMute_eq, D1. cbn [fst snd negb].
  split; [reflexivity|]. split; [exact D4|]. split; [exact Hid|].
  split; [exact D2|]. split; [reflexivity|]. split; [now destruct wd|].
  intros Hf ms.
  assert (B : beating (next_timer (env w))
                (clock (env w) + 800 * (d / 800 + 1))
                (heartbeat_voices w) (on_eng (set_muted false) wd)).
  { constructor.
    - now destruct wd.
    - rewrite <- Hf, <- D3. now destruct wd.
    - generalize (inv_timers Id). apply timers_ok_ext; now destruct wd.
    - unfold heartbeat_timers.
      replace (timers (env (on_eng (set_muted false) wd))) with (timers (env wd))
        by now destruct wd.
      rewrite D2. reflexivity.
    - rewrite <- (heartbeat_voices_statics _ _ D4). now destruct wd. }
  assert (Cd : clock (env (on_eng (set_muted false) wd)) = (clock (env w) + d)%N)
    by (unfold wd; rewrite <- C1, <- clock_elapse; now destruct (elapse d w1)).
  pose proof (N.div_mod d 800 ltac:(discriminate)) as E.
  pose proof (N.mod_lt d 800 ltac:(discriminate)) as Hr.
  assert (Hd : (clock (env w) + d < clock (env w) + 800 * (d / 800 + 1)
                <= clock (env w) + d + 800)%N /\
               (clock (env w) + d + 800
                - (clock (env w) + 800 * (d / 800 + 1)) = d mod 800)%N)
    by (revert E Hr; generalize (d / 800)%N (d mod 800)%N; intros; lia).
  destruct Hd as [Hd He].
  apply units_of_voices.
  rewrite (@beating_elapse_from _ _ _ _ ms B) by (rewrite Cd; exact Hd).
  rewrite Cd, periods_between, He. reflexivity.
Qed.

Lemma muted_startHeartbeatLoop_still_runs_witness :
  reachable muted_engine /\
  muted (eng muted_engine) = true /\
  heartbeatInterval (eng muted_engine) = None /\
  heartbeatInterval (eng (snd (startHeartbeatLoop muted_engine))) = Some 1%positive /\
  heartbeatInterval (eng (elapse 2000 (snd (startHeartbeatLoop muted_engine))))
    = Some 1%positive /\
  heartbeat_units muted_engine
    (elapse 800 (snd (toggleMute
                        (elapse 2000 (snd (startHeartbeatLoop muted_engine))))))
    = 1.
Proof.
  assert (H1 : muted (eng muted_engine) = true) by reflexivity.
  assert (H2 : heartbeatInterval (eng muted_engine) = None) by reflexivity.
  assert (H3 : faults (env muted_engine) = []) by reflexivity.
  pose proof (@muted_startHeartbeatLoop_still_runs muted_engine (reachable_run _)
                H1 H2) as (_ & _ & _ & A & _ & B & _).
  destruct (B 2000%N) as (_ & _ & B3 & _ & _ & _ & B7).
  split; [apply reachable_run|]. split; [exact H1|]. split; [exact H2|].
  split; [exact A|]. split; [exact B3 | exact (B7 H3 800%N)].
Defined.

(** ** Time without the heartbeat trigger *)

(** No voice at 60 Hz is added. *)
Record Quiet (w w' : World) : Prop := mkQuiet {
  qu_voices : heartbeat_voices w' = heartbeat_voices w
}.

Lemma Quiet_refl w : Quiet w w.
Proof. now constructor. Qed.

Lemma Quiet_trans a b c : Quiet a b -> Quiet b c -> Quiet a c.
Proof. intros [H1] [H2]. constructor. congruence. Qed.

Definition Quiet_bind {A B} (m : JS A) (k : A -> JS B) :=
  @relates_bind Quiet Quiet_trans A B m k.
Definition Quiet_ret {A} (a : A) := @relates_ret Quiet Quiet_refl A a.
Definition Quiet_getE {A} (f : Engine -> A) := @relates_getE Quiet Quiet_refl A f.

Ltac quiet_leaf H1 H2 H4 :=
  constructor; unfold heartbeat_voices; cbn;
  rewrite ?filter_app; cbn; unfold is_heartbeat_voice; cbn;
  rewrite ?H1, ?H2, ?H4; cbn; rewrite ?app_nil_r; reflexivity.

(** Whatever the browser refuses, a step of the sequencer builds no voice
    at 60 Hz. *)
Lemma playNote_Quiet c0 type : relates Quiet (playNote c0 type).
Proof.
  unfold playNote.
  apply Quiet_bind; [apply Quiet_getE|]. intros m.
  apply Quiet_bind; [apply Quiet_getE|]. intros p.
  destruct (m || negb p); [apply Quiet_ret|].
  apply Quiet_bind; [apply Quiet_getE|]. intros step.
  destruct (sequence_not_heartbeat type
              (N.to_nat (step mod N.of_nat (length (sequence type)))))
    as (H1 & H2 & H4).
  set (f := nth _ (sequence type) 0%Q) in *. clearbody f.
  apply Quiet_bind.
  - destruct (String.eqb type "lobby").
    + intros w. expose w. unfold playGuitarPluck. execute; quiet_leaf H1 H2 H4.
    + intros w. expose w.
      destruct (step mod 4 =? 0)%N; execute; quiet_leaf H1 H2 H4.
  - intros _ w. expose w. cbn. now constructor.
Qed.

Lemma rearm_heartbeat_timers id w :
  heartbeat_timers (on_env (rearm id) w) =
  map (fun t => if Pos.eqb (t_id t) id
                then mkTimer (t_id t) (t_callback t) (t_interval t)
                             (t_due t + t_interval t)
                else t) (heartbeat_timers w).
Proof.
  destruct w as [e b]. unfold heartbeat_timers. cbn.
  now rewrite rearm_filter by reflexivity.
Qed.

(** The trigger gone, a timer that fires is the sequencer's. *)
Lemma fire_silent id k :
  preserves (fun w => heartbeat_timers w = [] /\ heartbeat_voices w = k) (fire id).
Proof.
  intros w [Ht Hk]. unfold fire, bind, getB, modB, task, tryCatch. cbn [fst snd].
  destruct (find _ (timers (env w))) as [t0|] eqn:F; [|auto].
  destruct (t_due t0 <=? clock (env w))%N; [|auto]. cbn [snd].
  apply find_some in F. destruct F as [Hin _].
  assert (Ht1 : heartbeat_timers (on_env (rearm id) w) = [])
    by (rewrite rearm_heartbeat_timers, Ht; reflexivity).
  assert (Hk1 : heartbeat_voices (on_env (rearm id) w) = k)
    by (rewrite <- Hk; now destruct w).
  destruct (t_callback t0) as [|c0 type] eqn:E; cbn [run_callback].
  - exfalso. assert (H : In t0 (heartbeat_timers w)).
    { apply filter_In. split; [exact Hin|]. unfold is_heartbeat_timer.
      now rewrite E. }
    rewrite Ht in H. destruct H.
  - split.
    + unfold heartbeat_timers in *.
      now rewrite (gr_timers (playNote_Grows c0 type _)).
    + now rewrite (qu_voices (playNote_Quiet c0 type _)).
Qed.

Lemma millisecond_silent k w :
  heartbeat_timers w = [] /\ heartbeat_voices w = k ->
  heartbeat_timers (millisecond w) = [] /\ heartbeat_voices (millisecond w) = k.
Proof.
  intros [Ht Hk]. rewrite millisecond_steps.
  unfold fire_timers, bind, getB. cbn [fst snd].
  apply preserves_forEach; [intros id _; apply fire_silent|].
  pose proof (dispatch_ended_Settles (tick_clock w)) as S. split.
  - unfold heartbeat_timers in *. rewrite (se_timers S). now destruct w.
  - rewrite (heartbeat_voices_statics _ _ (se_statics S)), <- Hk. now destruct w.
Qed.

Lemma elapse_silent k ms w :
  heartbeat_timers w = [] -> heartbeat_voices w = k ->
  heartbeat_voices (elapse ms w) = k.
Proof.
  intros Ht Hk.
  enough (heartbeat_timers (elapse ms w) = [] /\ heartbeat_voices (elapse ms w) = k)
    as H by apply H.
  induction ms as [|ms IH] using N.peano_ind; [now split|].
  rewrite elapse_succ. now apply millisecond_silent.
Qed.

Lemma heartbeat_stopped_twice w :
  heartbeat_stopped (heartbeat_stopped w) = heartbeat_stopped w.
Proof. expose_all w. now destruct h. Qed.

(** [stopHeartbeatLoop] (lines 147-149), in every reachable state: it
    returns normally; it cancels the heartbeat trigger and drops its
    handle, and touches nothing else: the sequencer's timer, every node,
    voices that are sounding included, both registries and the clock are as
    before.  A second call changes nothing.  From then on, whatever the
    browser refuses, the passing of time adds no heartbeat voice. *)
Theorem stopHeartbeatLoop_stops_the_beat (w : World) (Hw : reachable w) :
  let w' := snd (stopHeartbeatLoop w) in
  fst (stopHeartbeatLoop w) = Normal tt /\
  heartbeatInterval (eng w') = None /\
  heartbeat_timers w' = [] /\
  bg_timers w' = bg_timers w /\
  sources (env w') = sources (env w) /\
  gains (env w') = gains (env w) /\
  activeOscillators (eng w') = activeOscillators (eng w) /\
  bgOscillators (eng w') = bgOscillators (eng w) /\
  bgPlaying (eng w') = bgPlaying (eng w) /\
  stopHeartbeatLoop w' = (Normal tt, w') /\
  forall ms, heartbeat_voices (elapse ms w') = heartbeat_voices w.
Proof.
  rewrite stopHeartbeatLoop_eq. cbn [fst snd].
  pose proof (reachable_Inv Hw) as I.
  pose proof (inv_timers (Inv_heartbeat_stopped I)) as T'.
  assert (Hh : heartbeatInterval (eng (heartbeat_stopped w)) = None)
    by (expose_all w; now destruct h).
  assert (Ht : heartbeat_timers (heartbeat_stopped w) = []).
  { pose proof (to_heartbeat T') as H. now rewrite Hh in H. }
  split; [reflexivity|]. split; [exact Hh|]. split; [exact Ht|].
  split.
  { destruct (inv_timers I) as [_ T2 T3 T4]. expose_all w.
    unfold bg_timers, heartbeat_timers in *. cbn in *.
    destruct h as [j|]; cbn; [|reflexivity].
    rewrite filter_comm. destruct i as [k|].
    - destruct T3 as (c0 & type & d & ->).
      apply keep_other_timer with (j := k); auto.
      intros ->. now apply (T4 j).
    - now rewrite T3. }
  split; [now expose_all w; destruct h|]. split; [now expose_all w; destruct h|].
  split; [now expose_all w; destruct h|]. split; [now expose_all w; destruct h|].
  split; [now expose_all w; destruct h|].
  split; [rewrite stopHeartbeatLoop_eq; now rewrite heartbeat_stopped_twice|].
  intros ms. apply elapse_silent; [exact Ht|]. now expose_all w; destruct h.
Qed.

Lemma stopHeartbeatLoop_stops_the_beat_witness :
  reachable busy /\
  length (heartbeat_timers busy) = 1 /\
  heartbeat_timers (snd (stopHeartbeatLoop busy)) = [] /\
  heartbeat_voices (elapse 5000 (snd (stopHeartbeatLoop busy))) = heartbeat_voices busy.
Proof.
  pose proof (@stopHeartbeatLoop_stops_the_beat busy (reachable_run _))
    as (_ & _ & A & _ & _ & _ & _ & _ & _ & _ & B).
  split; [apply reachable_run|]. split; [reflexivity|].
  split; [exact A | exact (B 5000%N)].
Defined.

(** ** Time on a muted engine *)

Lemma fire_muted id n :
  preserves (fun w => muted (eng w) = true /\ sources (env w) = n) (fire id).
Proof.
  intros w [Hm Hs]. unfold fire, bind, getB, modB, task, tryCatch. cbn [fst snd].
  destruct (find _ (timers (env w))) as [t0|]; [|auto].
  destruct (t_due t0 <=? clock (env w))%N; [|auto]. cbn [snd].
  assert (Hm1 : muted (eng (on_env (rearm id) w)) = true) by now destruct w.
  assert (Hs1 : sources (env (on_env (rearm id) w)) = n) by now destruct w.
  destruct (t_callback t0) as [|c0 type]; cbn [run_callback].
  - rewrite heartbeat_muted by exact Hm1. auto.
  - rewrite playNote_muted by exact Hm1. auto.
Qed.

(** While the mute flag is set, the passing of time starts nothing: a
    trigger that is still installed fires, and its callback returns at
    once.  No node is created and none is started or retuned; the flag
    stays set. *)
Theorem muted_time_creates_nothing (w : World) (Hm : muted (eng w) = true) :
  forall ms,
    muted (eng (elapse ms w)) = true /\
    length (sources (env (elapse ms w))) = length (sources (env w)) /\
    statics (elapse ms w) = statics w.
Proof.
  intros ms.
  enough (muted (eng (elapse ms w)) = true /\ statics (elapse ms w) = statics w)
    as [H1 H2].
  { split; [exact H1|]. split; [|exact H2].
    unfold statics in H2. apply (f_equal (@length _)) in H2.
    now rewrite !length_map in H2. }
  induction ms as [|ms [IH1 IH2]] using N.peano_ind; [now split|].
  rewrite elapse_succ, millisecond_steps.
  set (w0 := elapse ms w) in *.
  pose proof (dispatch_ended_Settles (tick_clock w0)) as S.
  set (w1 := snd (dispatch_ended (tick_clock w0))) in *.
  assert (H : muted (eng w1) = true /\ sources (env w1) = sources (env w1))
    by (split; [rewrite (se_muted S), <- IH1; now destruct w0 | reflexivity]).
  unfold fire_timers, bind, getB. cbn [fst snd].
  apply (@preserves_forEach
           (fun w => muted (eng w) = true /\ sources (env w) = sources (env w1))
           _ (map t_id (timers (env w1))) (fun id _ => fire id)
           (fun id _ => @fire_muted id _) 0) in H.
  destruct H as [H1 H2]. split; [exact H1|].
  unfold statics at 1. rewrite H2. fold (statics w1).
  rewrite (se_statics S), <- IH2. now destruct w0.
Qed.

Lemma muted_time_creates_nothing_witness :
  muted (eng (snd (startHeartbeatLoop muted_engine))) = true /\
  length (heartbeat_timers (snd (startHeartbeatLoop muted_engine))) = 1 /\
  length (sources (env (elapse 2000 (snd (startHeartbeatLoop muted_engine))))) =
  length (sources (env (snd (startHeartbeatLoop muted_engine)))).
Proof.
  assert (Hm : muted (eng (snd (startHeartbeatLoop muted_engine))) = true)
    by reflexivity.
  split; [exact Hm|]. split; [reflexivity|].
  exact (proj1 (proj2 (@muted_time_creates_nothing _ Hm 2000%N))).
Defined.

(** ** Stop-all silences what it tracks *)

Lemma stop_each_keeps_force_stopped os o w :
  force_stopped w o = true -> force_stopped (stop_each os w) o = true.
Proof.
  revert w. unfold stop_each.
  change (preserves (fun w => force_stopped w o = true)
            (forEach os 0 (fun o _ => tryCatch (stop o None)))).
  apply preserves_forEach. intros x _.
  apply preserves_tryCatch, stop_keeps_force_stopped.
Qed.

Lemma stopAll_twice w : stopAll (snd (stopAll w)) = (Normal tt, snd (stopAll w)).
Proof.
  destruct (stopAll_engine w) as (A1 & A2 & A3 & A4 & A5 & A6 & _ & _).
  destruct (snd (stopAll w)) as [[c m a b p h i n t] bb]. cbn in *. subst.
  reflexivity.
Qed.

(** [stopAll] (lines 310-315), in every reachable state: it returns
    normally; when the browser accepts the [stop()] calls, every voice held
    in the effect registry or in the background registry is force-stopped
    (it has ended or its stop time is now); no node is created; the mute
    flag is as before; and a second call changes nothing. *)
Theorem stopAll_force_stops_tracked (w : World) (Hw : reachable w) :
  let w' := snd (stopAll w) in
  fst (stopAll w) = Normal tt /\
  (faults (env w) = [] ->
   forall o, In o (activeOscillators (eng w)) \/ In o (bgOscillators (eng w)) ->
             force_stopped w' o = true) /\
  statics w' = statics w /\
  muted (eng w') = muted (eng w) /\
  stopAll w' = (Normal tt, w').
Proof.
  intros w'. pose proof (stopAll_twice w) as Htwice.
  destruct (stopAll_engine w) as (_ & _ & _ & _ & _ & _ & Hmuted & _).
  assert (Hn : fst (stopAll w) = Normal tt) by now rewrite stopAll_eq.
  fold w' in Htwice, Hmuted.
  pose proof (Inv_heartbeat_stopped (reachable_Inv Hw)) as I0.
  set (w0 := heartbeat_stopped w) in *.
  assert (E0 : faults (env w0) = faults (env w) /\
               activeOscillators (eng w0) = activeOscillators (eng w) /\
               bgOscillators (eng w0) = bgOscillators (eng w) /\
               statics w0 = statics w)
    by (unfold w0; expose_all w; now destruct h).
  destruct E0 as (E1 & E2 & E3 & E4).
  pose proof (Inv_stopBgMusic I0) as I1.
  destruct (stopBgMusic_effect I0) as (_ & _ & _ & _ & _ & _ & _ & B8 & _ & _).
  destruct (stopBgMusic_frame w0) as (_ & F2 & _ & _ & F5 & F6 & F7).
  set (w1 := snd (stopBgMusic w0)) in *.
  pose proof (stop_each_Settles' (activeOscillators (eng w1)) w1) as S.
  assert (E : w' = on_eng (set_activeOscillators [])
                          (stop_each (activeOscillators (eng w1)) w1))
    by (unfold w'; now rewrite stopAll_eq).
  clearbody w'.
  split; [exact Hn|]. split; [|split; [|split; [exact Hmuted | exact Htwice]]].
  - intros Hf o Ho. rewrite E.
    change (force_stopped (stop_each (activeOscillators (eng w1)) w1) o = true).
    rewrite <- E1 in Hf. destruct Ho as [Ho|Ho].
    + apply stop_each_force_stops; [now apply F6| |now rewrite F2, E2].
      intros y Hy. apply effect_voice_started.
      destruct (inv_registries I1) as [R _]. rewrite Forall_forall in R.
      now apply R.
    + apply stop_each_keeps_force_stopped, B8; [exact Hf | now rewrite E3].
  - rewrite E.
    change (statics (stop_each (activeOscillators (eng w1)) w1) = statics w).
    rewrite (se_statics S), <- E4. unfold statics.
    apply nth_ext with (d := static new_oscillator) (d' := static new_oscillator).
    + now rewrite !length_map, F5.
    + intros n _. rewrite !map_nth. apply F7.
Qed.

(** An engine with voices of both registries sounding. *)
Definition sounding : World :=
  run [Call startHeartbeatLoop'; Call (startBgMusic' None); Call click';
       Elapse 20] fresh.

Lemma stopAll_force_stops_tracked_witness :
  reachable sounding /\ faults (env sounding) = [] /\
  activeOscillators (eng sounding) = [0; 1; 5] /\
  bgOscillators (eng sounding) = [2; 3] /\
  force_stopped sounding 0 = false /\
  force_stopped (snd (stopAll sounding)) 0 = true /\
  force_stopped (snd (stopAll sounding)) 3 = true.
Proof.
  assert (Hf : faults (env sounding) = []) by reflexivity.
  assert (Ha : activeOscillators (eng sounding) = [0; 1; 5])
    by (vm_compute; reflexivity).
  assert (Hb : bgOscillators (eng sounding) = [2; 3]) by (vm_compute; reflexivity).
  pose proof (@stopAll_force_stops_tracked sounding (reachable_run _))
    as (_ & A & _).
  split; [apply reachable_run|]. split; [exact Hf|]. split; [exact Ha|].
  split; [exact Hb|]. split; [vm_compute; reflexivity|]. split.
  - apply (A Hf). left. rewrite Ha. now left.
  - apply (A Hf). right. rewrite Hb. now right; left.
Defined.

(** ** The audio context *)

(** The engine holds the one context the browser has made for it, or none
    has been made yet. *)
Definition ctx_ok (w : World) : Prop :=
  match ctx (eng w) with
  | None => contexts (env w) = []
  | Some c => c = 0 /\ length (contexts (env w)) = 1
  end.

(** [getCtx] makes the context when there is none, and only then. *)
Lemma getCtx_ctx_ok : preserves ctx_ok getCtx.
Proof.
  intros w H. unfold ctx_ok in *. expose_all w. unfold getCtx. cbn in *.
  destruct c as [c1|]; cbn.
  - destruct H as [-> H]. destruct cs as [|[] [|]]; try discriminate; cbn; auto.
    fault; cbn; auto.
  - subst cs. cbn. fault; cbn; auto.
Qed.

(** Nothing else in the engine touches the handle or the contexts: a
    walk through the statements, down to the single calls. *)
Ltac ctx_step :=
  match goal with
  | |- preserves _ getCtx => apply getCtx_ctx_ok
  | |- preserves _ (bind _ _) => apply preserves_bind; [|intros ?]
  | |- preserves _ (tryCatch _) => apply preserves_tryCatch
  | |- preserves _ (forEach _ _ _) => apply preserves_forEach; intros ? ?
  | |- preserves _ (let _ := _ in _) => cbv zeta
  | |- preserves _ (match ?x with _ => _ end) => destruct x
  | |- preserves _ _ =>
      progress unfold osc, click, correct, wrong, tick, heartbeat,
        startHeartbeatLoop, stopHeartbeatLoop, lightBeep, goBurst, falseStart,
        fanfare, playGuitarPluck, playNote, stopBgMusic, startBgMusic, stopAll,
        toggleMute, dispatch_ended, dispatch, fire_timers, fire, task,
        run_handler, run_callback,
        createOscillator, createBufferSource, createGain, createBuffer,
        getChannelData, frequency, gain, connect, connect_destination, start,
        stop, set_type, set_buffer, set_onended, currentTime, getSampleRate,
        push_active, push_bg, upd_source, upd_gain, source, setInterval,
        clearInterval
  | |- preserves _ _ =>
      solve [intros [[] []] H; unfold ctx_ok in *; cbn in *; exact H]
  end.

Lemma ctx_ok_invoke m : preserves ctx_ok (invoke m).
Proof. destruct m; cbn [invoke]; repeat ctx_step. Qed.

Lemma ctx_ok_millisecond w : ctx_ok w -> ctx_ok (millisecond w).
Proof.
  unfold millisecond. revert w.
  change (preserves ctx_ok (modB (fun b => set_clock (clock b + 1)%N b) ;;
                            dispatch_ended ;; fire_timers)).
  repeat ctx_step.
Qed.

Lemma ctx_ok_step e w : ctx_ok w -> ctx_ok (step w e).
Proof.
  destruct e as [m|ms|]; cbn [step].
  - apply ctx_ok_invoke.
  - apply N.iter_invariant. intros x. apply ctx_ok_millisecond.
  - unfold ctx_ok. expose_all w. cbn. destruct c as [c|].
    + now rewrite length_map.
    + now intros ->.
Qed.

Lemma reachable_ctx_ok w : reachable w -> ctx_ok w.
Proof.
  intros (rate & fs & es & ->).
  assert (H : ctx_ok (init rate fs)) by reflexivity.
  revert H. generalize (init rate fs).
  induction es as [|e es IH]; intros w H; [exact H|].
  apply IH, ctx_ok_step, H.
Qed.

(** [getCtx] (lines 53-57) keeps a single context.  In every reachable
    state the browser has made at most one audio context for the engine,
    and the engine's handle is unset exactly when none has been made. *)
Theorem one_audio_context (w : World) (Hw : reachable w) :
  length (contexts (env w)) <= 1 /\
  (ctx (eng w) = None <-> contexts (env w) = []) /\
  (forall c, ctx (eng w) = Some c -> c = 0 /\ length (contexts (env w)) = 1).
Proof.
  pose proof (reachable_ctx_ok Hw) as H. unfold ctx_ok in H.
  destruct (ctx (eng w)) as [c|].
  - destruct H as [-> H]. rewrite H. split; [lia|]. split.
    + split; [discriminate|]. intros E. rewrite E in H. discriminate.
    + intros c [= <-]. auto.
  - rewrite H. split; [cbn; lia|]. split; [tauto|]. discriminate.
Qed.

Lemma one_audio_context_witness :
  reachable busy /\ ctx (eng busy) = Some 0 /\ length (contexts (env busy)) = 1.
Proof.
  assert (H : ctx (eng busy) = Some 0) by reflexivity.
  pose proof (@one_audio_context busy (reachable_run _)) as (_ & _ & A).
  split; [apply reachable_run|]. split; [exact H|]. exact (proj2 (A 0 H)).
Defined.

(** [getCtx] (lines 53-57), when it returns: in every reachable state the
    context it returns is the one the engine holds afterwards, the only
    context there is, and the one the engine held before if it held one;
    a context that is not suspended is left as it is, the whole state with
    it; in no case is a node, a timer or a registry touched.  For a
    suspended context [getCtx] only asks for it to be resumed: the state
    the context is in when [getCtx] returns is not part of the statement. *)
Theorem getCtx_returns_the_one_context (w w' : World) (c0 : nat)
    (Hw : reachable w) (H : getCtx w = (Normal c0, w')) :
  ctx (eng w') = Some c0 /\ length (contexts (env w')) = 1 /\
  (forall c1, ctx (eng w) = Some c1 -> c1 = c0) /\
  (forall c1, ctx (eng w) = Some c1 ->
              nth c1 (contexts (env w)) running <> suspended -> w' = w) /\
  sources (env w') = sources (env w) /\ gains (env w') = gains (env w) /\
  timers (env w') = timers (env w) /\
  activeOscillators (eng w') = activeOscillators (eng w) /\
  bgOscillators (eng w') = bgOscillators (eng w).
Proof.
  pose proof (reachable_ctx_ok Hw) as K. unfold ctx_ok in K.
  revert H. expose_all w. unfold getCtx. cbn in *.
  destruct c as [c1|]; cbn.
  - destruct K as [-> K]. destruct cs as [|[] [|]]; try discriminate; cbn;
      try (fault; cbn; [discriminate|]); intros [= <- <-]; cbn;
      (split; [reflexivity|]); (split; [reflexivity|]);
      (split; [now intros ? [= <-]|]);
      (split; [intros ? [= <-] N; cbn in N; try reflexivity; now elim N|]);
      repeat split.
  - subst cs. cbn. fault; cbn; [discriminate|].
    intros [= <- <-]. cbn. repeat split; discriminate.
Qed.

(** An engine that has sounded, its context suspended by the browser. *)
Definition suspended_engine : World := run [Call click'; Suspend] fresh.

Lemma getCtx_returns_the_one_context_witness :
  reachable suspended_engine /\
  ctx (eng suspended_engine) = Some 0 /\
  fst (getCtx suspended_engine) = Normal 0 /\
  ctx (eng (snd (getCtx suspended_engine))) = Some 0 /\
  length (contexts (env (snd (getCtx suspended_engine)))) = 1.
Proof.
  assert (E : getCtx suspended_engine = (Normal 0, snd (getCtx suspended_engine)))
    by reflexivity.
  pose proof (@getCtx_returns_the_one_context _ _ _ (reachable_run _) E)
    as (A & B & _).
  split; [apply reachable_run|]. split; [reflexivity|].
  split; [reflexivity|]. split; [exact A | exact B].
Defined.

(** ** The voices of the one-shot effects *)

(** The number of oscillators an effect schedules (lines 88-181). *)
Definition voices (m : Method) : nat :=
  match m with
  | click' | wrong' | tick' | lightBeep' | goBurst' | falseStart' => 1
  | correct' | heartbeat' => 2
  | fanfare' => 4
  | _ => 0
  end.

(** A node that has been scheduled to its end and has not ended. *)
Definition scheduled_oscillator (s : Source) : bool :=
  is_oscillator s && started s &&
  match s_stop s with Some _ => true | None => false end && negb (s_ended s).

(** [k] oscillators and [k] gain nodes were created, and the nodes there
    were are as they were.  The oscillators are all scheduled, all in the
    effect registry, each with the handler that removes it, each connected
    to the gain node created with it; the gain nodes are all connected to
    the destination.  No timer is installed. *)
Record adds_tracked (k : nat) (w w' : World) : Prop := mkAddsTracked {
  at_sources : exists new,
      sources (env w') = sources (env w) ++ new /\ length new = k /\
      forallb scheduled_oscillator new = true /\
      map s_onended new =
        map (fun o => Some (FilterActive o)) (seq (length (sources (env w))) k) /\
      map s_out new = map Some (seq (length (gains (env w))) k);
  at_gains : exists made,
      gains (env w') = gains (env w) ++ made /\ length made = k /\
      forallb g_out made = true;
  at_active : activeOscillators (eng w') =
              activeOscillators (eng w) ++ seq (length (sources (env w))) k;
  at_bg : bgOscillators (eng w') = bgOscillators (eng w);
  at_timers : timers (env w') = timers (env w);
  at_faults : faults (env w') = []
}.

Lemma seq_from n k : seq n k = map (Nat.add n) (seq 0 k).
Proof.
  revert n. induction k as [|k IH]; intros n; [reflexivity|].
  cbn [seq map]. rewrite Nat.add_0_r. f_equal.
  rewrite (IH (S n)), (IH 1), map_map. apply map_ext. intros i. lia.
Qed.

Ltac same_refs :=
  rewrite seq_from; cbn; rewrite ?Nat.add_0_r; reflexivity.

Ltac tracked_leaf :=
  constructor;
  [ eexists; split; [cbn; reflexivity|]; split; [reflexivity|];
    split; [reflexivity|]; split; same_refs
  | eexists; split; [cbn; reflexivity|]; split; reflexivity
  | same_refs
  | reflexivity
  | reflexivity
  | reflexivity ].

Lemma osc_adds_tracked w type freq duration volume rampFreq :
  faults (env w) = [] -> muted (eng w) = false ->
  adds_tracked 1 w (snd (osc type freq duration volume rampFreq w)).
Proof.
  intros Hf Hm. expose_all w. cbn in Hf, Hm. subst fs m.
  unfold osc, getCtx. cbn.
  destruct c as [c0|]; cbn.
  - destruct (nth c0 cs running), rampFreq; cbn; norm; tracked_leaf.
  - rewrite nth_app_0. destruct rampFreq; cbn; norm; tracked_leaf.
Qed.

Lemma correct_adds_tracked w :
  faults (env w) = [] -> muted (eng w) = false ->
  adds_tracked 2 w (snd (correct w)).
Proof.
  intros Hf Hm. expose_all w. cbn in Hf, Hm. subst fs m.
  unfold correct, getCtx. cbn.
  destruct c as [c0|]; cbn.
  - destruct (nth c0 cs running); cbn; norm; tracked_leaf.
  - rewrite nth_app_0. cbn; norm; tracked_leaf.
Qed.

Lemma heartbeat_adds_tracked w :
  faults (env w) = [] -> muted (eng w) = false ->
  adds_tracked 2 w (snd (heartbeat w)).
Proof.
  intros Hf Hm. expose_all w. cbn in Hf, Hm. subst fs m.
  unfold heartbeat, getCtx. cbn.
  destruct c as [c0|]; cbn.
  - destruct (nth c0 cs running); cbn; norm; tracked_leaf.
  - rewrite nth_app_0. cbn; norm; tracked_leaf.
Qed.

Lemma fanfare_adds_tracked w :
  faults (env w) = [] -> muted (eng w) = false ->
  adds_tracked 4 w (snd (fanfare w)).
Proof.
  intros Hf Hm. expose_all w. cbn in Hf, Hm. subst fs m.
  unfold fanfare, getCtx. cbn.
  destruct c as [c0|]; cbn.
  - destruct (nth c0 cs running); cbn; norm; tracked_leaf.
  - rewrite nth_app_0. cbn; norm; tracked_leaf.
Qed.

(** The one-shot effects (lines 88-181), on an unmuted engine whose Web
    Audio calls do not fail: the effect creates its oscillators ([voices],
    one to four), one gain node for each of them, and no other node; the
    nodes there were are left as they were.  Every new oscillator is
    scheduled with a stop time, is connected to the gain node created with
    it, is appended to the effect registry, and carries the handler that
    removes it from the registry when it ends; every new gain node is
    connected to the destination.  The background registry and the timers
    are untouched. *)
Theorem one_shot_voices_are_tracked (w : World) (m : Method)
    (Hm : one_shot m = true) (Hmuted : muted (eng w) = false)
    (Hf : faults (env w) = []) :
  adds_tracked (voices m) w (snd (invoke m w)) /\ 1 <= voices m.
Proof.
  destruct m; try discriminate; cbn [invoke voices]; (split; [|lia]);
    [ apply osc_adds_tracked | apply correct_adds_tracked
    | apply osc_adds_tracked | apply osc_adds_tracked
    | apply heartbeat_adds_tracked | apply osc_adds_tracked
    | apply osc_adds_tracked | apply osc_adds_tracked
    | apply fanfare_adds_tracked ]; assumption.
Qed.

Lemma one_shot_voices_are_tracked_witness :
  one_shot fanfare' = true /\ muted (eng lobby_playing) = false /\
  faults (env lobby_playing) = [] /\
  activeOscillators (eng (snd (invoke fanfare' lobby_playing))) =
  activeOscillators (eng lobby_playing) ++
  seq (length (sources (env lobby_playing))) 4 /\
  length (gains (env (snd (invoke fanfare' lobby_playing)))) =
  length (gains (env lobby_playing)) + 4.
Proof.
  assert (H1 : muted (eng lobby_playing) = false) by reflexivity.
  assert (H2 : faults (env lobby_playing) = []) by reflexivity.
  pose proof (@one_shot_voices_are_tracked lobby_playing fanfare' eq_refl H1 H2)
    as [[_ (made & G & L & _) A _ _ _] _].
  split; [reflexivity|]. split; [exact H1|]. split; [exact H2|].
  split; [exact A|]. rewrite G, length_app, L. reflexivity.
Defined.

(** ** The sequencer of the background music *)

(** A step of the sequencer when nothing fails: it returns, and the step
    cursor has moved by one. *)
Lemma playNote_ok c0 type w :
  faults (env w) = [] -> muted (eng w) = false -> bgPlaying (eng w) = true ->
  fst (playNote c0 type w) = Normal tt /\
  faults (env (snd (playNote c0 type w))) = [] /\
  bgStep (eng (snd (playNote c0 type w))) = (bgStep (eng w) + 1)%N.
Proof.
  intros Hf Hm Hp. destruct (playNote c0 type w) as [r w'] eqn:E. revert E.
  expose_all w. cbn in Hf, Hm, Hp. subst fs m p.
  unfold playNote, playGuitarPluck. cbn.
  destruct (String.eqb type "lobby"); cbn;
    [|destruct (n mod 4 =? 0)%N; cbn];
    repeat (norm; rewrite <- ?Nat.add_assoc; cbn).
  all: intros [= <- <-]; cbn; auto.
Qed.

(** What the synthesis recipes leave alone: a walk through their
    statements, down to the single calls. *)
Ltac frame_step :=
  match goal with
  | |- preserves _ (bind _ _) => apply preserves_bind; [|intros ?]
  | |- preserves _ (tryCatch _) => apply preserves_tryCatch
  | |- preserves _ (forEach _ _ _) => apply preserves_forEach; intros ? ?
  | |- preserves _ (let _ := _ in _) => cbv zeta
  | |- preserves _ (match ?x with _ => _ end) => destruct x
  | |- preserves _ _ =>
      progress unfold osc, correct, heartbeat, fanfare, playGuitarPluck,
        playNote, getCtx, newAudioContext, state, resume,
        createOscillator, createBufferSource, createGain, createBuffer,
        getChannelData, frequency, gain, connect, connect_destination, start,
        stop, set_type, set_buffer, set_onended, currentTime, getSampleRate,
        push_active, push_bg, upd_source, upd_gain, source
  | |- preserves _ _ => solve [intros [[] []] H; cbn in *; exact H]
  end.

Lemma heartbeat_keeps_bgStep k :
  preserves (fun w => bgStep (eng w) = k) heartbeat.
Proof. repeat frame_step. Qed.

Lemma getCtx_keeps_active a0 :
  preserves (fun w => activeOscillators (eng w) = a0) getCtx.
Proof. repeat frame_step. Qed.

Lemma playNote_keeps_active a0 c0 type :
  preserves (fun w => activeOscillators (eng w) = a0) (playNote c0 type).
Proof. repeat frame_step. Qed.

(** The sequencer of handle [i] is live and next due at [D]: music of the
    mode [type] plays on an unmuted engine, no Web Audio call fails, and the
    step cursor is [k]. *)
Record playing (i : positive) (c0 : nat) (type : string) (D k : N)
    (w : World) : Prop := mkPlaying {
  pl_muted : muted (eng w) = false;
  pl_faults : faults (env w) = [];
  pl_playing : bgPlaying (eng w) = true;
  pl_timers : timers_ok w;
  pl_timer : bg_timers w = [mkTimer i (cbPlayNote c0 type) (interval type) D];
  pl_step : bgStep (eng w) = k
}.

Lemma interval_pos type : (0 < interval type)%N.
Proof. unfold interval. now destruct (String.eqb type "lobby"). Qed.

Lemma playing_handle i c0 type D k w :
  playing i c0 type D k w -> bgInterval (eng w) = Some i.
Proof.
  intros [_ _ _ [_ _ T3 _] E _]. rewrite E in T3.
  destruct (bgInterval (eng w)) as [j|]; [|discriminate].
  destruct T3 as (c1 & ty & d & T3). congruence.
Qed.

Lemma playing_other_timer i c0 type D k w t0 :
  playing i c0 type D k w -> In t0 (timers (env w)) -> t_id t0 <> i ->
  t_callback t0 = cbHeartbeat.
Proof.
  intros B Hin Hid. destruct (t_callback t0) as [|c1 ty] eqn:E; [reflexivity|].
  exfalso. apply Hid.
  assert (H : In t0 (bg_timers w)).
  { apply filter_In. split; [exact Hin|]. unfold is_heartbeat_timer.
    now rewrite E. }
  rewrite (pl_timer B) in H. destruct H as [<-|[]]. reflexivity.
Qed.

Lemma playing_find i c0 type D k w :
  playing i c0 type D k w ->
  find (fun t => Pos.eqb (t_id t) i) (timers (env w)) =
  Some (mkTimer i (cbPlayNote c0 type) (interval type) D).
Proof.
  intros B.
  assert (H : forall t0, In t0 (timers (env w)) ->
                         is_heartbeat_timer t0 = true -> t_id t0 <> i).
  { intros t0 Hin Hb Hid.
    pose proof (playing_handle B) as Hh.
    destruct (pl_timers B) as [_ T2 _ T4].
    assert (Hhb : In t0 (heartbeat_timers w)).
    { apply filter_In. split; [exact Hin | exact Hb]. }
    destruct (heartbeatInterval (eng w)) as [j|] eqn:Ej.
    - destruct T2 as (d & T2). rewrite T2 in Hhb.
      destruct Hhb as [<-|[]]. cbn in Hid. subst j.
      now apply (T4 i).
    - rewrite T2 in Hhb. destruct Hhb. }
  pose proof (pl_timer B) as E. unfold bg_timers in E.
  revert H E. generalize (timers (env w)) as ts.
  induction ts as [|t0 ts IH]; intros H E; [discriminate|].
  cbn [find filter] in *. destruct (is_heartbeat_timer t0) eqn:Hb; cbn [negb] in E.
  - destruct (Pos.eqb (t_id t0) i) eqn:Hid.
    + apply Pos.eqb_eq in Hid. exfalso. apply (H t0); auto. now left.
    + apply IH; [|exact E]. intros t1 Hin. apply H. now right.
  - injection E as -> E. cbn. now rewrite Pos.eqb_refl.
Qed.

Lemma rearm_bg_timers id w :
  bg_timers (on_env (rearm id) w) =
  map (fun t => if Pos.eqb (t_id t) id
                then mkTimer (t_id t) (t_callback t) (t_interval t)
                             (t_due t + t_interval t)
                else t) (bg_timers w).
Proof.
  destruct w as [e b]. unfold bg_timers. cbn.
  now rewrite rearm_filter by reflexivity.
Qed.

Lemma playing_rearm_own i c0 type D k w :
  playing i c0 type D k w ->
  playing i c0 type (D + interval type) k (on_env (rearm i) w).
Proof.
  intros [B1 B2 B3 B4 B5 B6]. apply (rearm_timers_ok i) in B4.
  constructor; try (now destruct w).
  rewrite rearm_bg_timers, B5. cbn. now rewrite Pos.eqb_refl.
Qed.

Lemma playing_rearm_other i c0 type D k id w :
  Pos.eqb i id = false ->
  playing i c0 type D k w -> playing i c0 type D k (on_env (rearm id) w).
Proof.
  intros Hid [B1 B2 B3 B4 B5 B6]. apply (rearm_timers_ok id) in B4.
  constructor; try (now destruct w).
  rewrite rearm_bg_timers, B5. cbn. now rewrite Hid.
Qed.

Lemma playing_Grows i c0 type D k k' w w' :
  Grows w w' -> faults (env w') = [] -> bgStep (eng w') = k' ->
  playing i c0 type D k w -> playing i c0 type D k' w'.
Proof.
  intros G Hf Hk [B1 B2 B3 B4 B5 B6]. constructor; auto.
  - now rewrite (gr_muted G).
  - now rewrite (gr_bgPlaying G).
  - revert B4. apply timers_ok_ext; apply G.
  - unfold bg_timers in *. now rewrite (gr_timers G).
Qed.

Lemma playing_playNote i c0 type D k c1 ty w :
  playing i c0 type D k w -> playing i c0 type D (k + 1) (snd (playNote c1 ty w)).
Proof.
  intros B.
  destruct (playNote_ok c1 ty w (pl_faults B) (pl_muted B) (pl_playing B))
    as (_ & Hf & Hk).
  apply (@playing_Grows i c0 type D k _ _ _ (playNote_Grows c1 ty w) Hf); [|exact B].
  rewrite Hk. f_equal. exact (pl_step B).
Qed.

Lemma playing_heartbeat i c0 type D k w :
  playing i c0 type D k w -> playing i c0 type D k (snd (heartbeat w)).
Proof.
  intros B.
  destruct (heartbeat_adds_two w (pl_faults B) (pl_muted B)) as [_ Hf].
  apply (@playing_Grows i c0 type D k _ _ _ (heartbeat_Grows w) Hf); [|exact B].
  apply heartbeat_keeps_bgStep. exact (pl_step B).
Qed.

(** One timer, visited by the event loop: the sequencer plays a step when
    it is due; the heartbeat trigger leaves the cursor alone. *)
Lemma fire_playing i c0 type D k id w :
  playing i c0 type D k w -> (clock (env w) <= D)%N ->
  let fired := Pos.eqb id i && (D =? clock (env w))%N in
  playing i c0 type (if fired then D + interval type else D)
          (if fired then k + 1 else k) (snd (fire id w)).
Proof.
  intros B Hc. unfold fire, bind, getB, modB, task, tryCatch. cbn [fst snd].
  destruct (Pos.eqb id i) eqn:Hid; cbn [andb].
  - apply Pos.eqb_eq in Hid. subst id. rewrite (playing_find B).
    cbn [t_due t_callback].
    destruct (D =? clock (env w))%N eqn:HD.
    + apply N.eqb_eq in HD. rewrite <- HD, N.leb_refl. cbn [snd run_callback].
      apply playing_playNote. now apply playing_rearm_own.
    + apply N.eqb_neq in HD.
      destruct (D <=? clock (env w))%N eqn:Hle;
        [apply N.leb_le in Hle; lia | exact B].
  - destruct (find _ (timers (env w))) as [t0|] eqn:F; [|exact B].
    apply find_some in F. destruct F as [Hin Ht0]. apply Pos.eqb_eq in Ht0.
    destruct (t_due t0 <=? clock (env w))%N; [|exact B]. cbn [snd].
    assert (Hne : t_id t0 <> i).
    { rewrite Ht0. intros ->. rewrite Pos.eqb_refl in Hid. discriminate. }
    rewrite (@playing_other_timer _ _ _ _ _ _ t0 B Hin Hne).
    cbn [run_callback]. apply playing_heartbeat.
    apply playing_rearm_other; [|exact B].
    rewrite Pos.eqb_sym. exact Hid.
Qed.

Lemma fire_each_playing i c0 type ids :
  forall idx D k w,
  playing i c0 type D k w -> (clock (env w) <= D)%N ->
  let fired := existsb (fun id => Pos.eqb id i) ids && (D =? clock (env w))%N in
  playing i c0 type (if fired then D + interval type else D)
          (if fired then k + 1 else k)
          (snd (forEach ids idx (fun id _ => fire id) w)).
Proof.
  pose proof (interval_pos type) as Hpos.
  induction ids as [|x ids IH]; intros idx D k w B Hc.
  - exact B.
  - rewrite forEach_cons_normal by apply fire_normal.
    pose proof (fire_playing x B Hc) as B1.
    pose proof (fire_keeps_clock x (w := w) eq_refl) as Hclk.
    cbv zeta in *. cbn [existsb].
    destruct (Pos.eqb x i); cbn [orb andb] in *.
    + destruct (D =? clock (env w))%N eqn:HD.
      * apply N.eqb_eq in HD.
        assert (Hc1 : (clock (env (snd (fire x w))) <= D + interval type)%N)
          by (rewrite Hclk; lia).
        specialize (IH (S idx) _ _ _ B1 Hc1). cbv zeta in IH.
        replace (D + interval type =? clock (env (snd (fire x w))))%N
          with false in IH
          by (symmetry; apply N.eqb_neq; rewrite Hclk; lia).
        rewrite andb_false_r in IH. exact IH.
      * assert (Hc1 : (clock (env (snd (fire x w))) <= D)%N)
          by (rewrite Hclk; lia).
        specialize (IH (S idx) _ _ _ B1 Hc1). cbv zeta in IH.
        rewrite Hclk, HD, andb_false_r in IH. exact IH.
    + assert (Hc1 : (clock (env (snd (fire x w))) <= D)%N)
        by (rewrite Hclk; lia).
      specialize (IH (S idx) _ _ _ B1 Hc1). cbv zeta in IH.
      rewrite Hclk in IH. exact IH.
Qed.

Lemma fire_timers_playing i c0 type D k w :
  playing i c0 type D k w -> (clock (env w) <= D)%N ->
  let fired := (D =? clock (env w))%N in
  playing i c0 type (if fired then D + interval type else D)
          (if fired then k + 1 else k) (snd (fire_timers w)).
Proof.
  intros B Hc. unfold fire_timers, bind, getB.
  pose proof (fire_each_playing (map t_id (timers (env w))) 0 B Hc) as H.
  cbv zeta in H.
  replace (existsb (fun id => Pos.eqb id i) (map t_id (timers (env w))))
    with true in H; [exact H|].
  symmetry. apply existsb_exists. exists i. split; [|apply Pos.eqb_refl].
  pose proof (playing_find B) as F. apply find_some in F.
  apply in_map_iff. eexists. split; [|exact (proj1 F)]. reflexivity.
Qed.

Lemma millisecond_playing i c0 type D k w :
  playing i c0 type D k w -> (clock (env w) < D)%N ->
  let fired := (D =? clock (env w) + 1)%N in
  playing i c0 type (if fired then D + interval type else D)
          (if fired then k + 1 else k) (millisecond w).
Proof.
  intros B Hc. rewrite millisecond_steps.
  assert (B0 : playing i c0 type D k (tick_clock w)).
  { destruct B as [B1 B2 B3 B4 B5 B6]. destruct w as [e b].
    constructor; auto. revert B4. apply timers_ok_ext; reflexivity. }
  pose proof (dispatch_ended_Settles (tick_clock w)) as S.
  assert (B1 : playing i c0 type D k (snd (dispatch_ended (tick_clock w)))).
  { destruct B0 as [B1 B2 B3 B4 B5 B6]. constructor.
    - now rewrite (se_muted S).
    - now apply dispatch_ended_keeps_faults.
    - now rewrite (se_bgPlaying S).
    - revert B4. apply timers_ok_ext; apply S.
    - unfold bg_timers in *. now rewrite (se_timers S).
    - now rewrite (se_bgStep S). }
  assert (Hclk : clock (env (snd (dispatch_ended (tick_clock w)))) =
                 (clock (env w) + 1)%N).
  { rewrite (se_clock S). now destruct w. }
  assert (Hc1 : (clock (env (snd (dispatch_ended (tick_clock w)))) <= D)%N)
    by (rewrite Hclk; lia).
  pose proof (fire_timers_playing B1 Hc1) as H. cbv zeta in H.
  rewrite Hclk in H. exact H.
Qed.

Lemma elapse_rest i c0 type D k r :
  forall w, playing i c0 type D k w -> (clock (env w) + r < D)%N ->
            playing i c0 type D k (elapse r w).
Proof.
  induction r as [|r IH] using N.peano_ind; intros w B Hc; [exact B|].
  rewrite elapse_succ.
  assert (B1 : playing i c0 type D k (elapse r w)) by (apply IH; [exact B | lia]).
  assert (Hc1 : (clock (env (elapse r w)) < D)%N) by (rewrite clock_elapse; lia).
  pose proof (millisecond_playing B1 Hc1) as H. cbv zeta in H.
  replace (D =? clock (env (elapse r w)) + 1)%N with false in H; [exact H|].
  symmetry. apply N.eqb_neq. rewrite clock_elapse. lia.
Qed.

Lemma elapse_interval i c0 type k w :
  playing i c0 type (clock (env w) + interval type) k w ->
  playing i c0 type (clock (env (elapse (interval type) w)) + interval type)
          (k + 1) (elapse (interval type) w).
Proof.
  intros B. pose proof (interval_pos type) as Hpos.
  set (r := N.pred (interval type)).
  assert (Hr : (r + 1 = interval type)%N) by (unfold r; lia).
  assert (E : elapse (interval type) w = millisecond (elapse r w))
    by (rewrite <- elapse_succ; f_equal; lia).
  rewrite E.
  assert (B1 : playing i c0 type (clock (env w) + interval type) k (elapse r w))
    by (apply elapse_rest; [exact B | lia]).
  assert (Hc1 : (clock (env (elapse r w)) < clock (env w) + interval type)%N)
    by (rewrite clock_elapse; lia).
  pose proof (millisecond_playing B1 Hc1) as H. cbv zeta in H.
  rewrite clock_millisecond.
  replace (clock (env w) + interval type =? clock (env (elapse r w)) + 1)%N
    with true in H by (symmetry; apply N.eqb_eq; rewrite clock_elapse; lia).
  replace (clock (env (elapse r w)) + 1 + interval type)%N
    with (clock (env w) + interval type + interval type)%N
    by (rewrite clock_elapse; lia).
  exact H.
Qed.

Lemma elapse_intervals i c0 type k w :
  playing i c0 type (clock (env w) + interval type) k w ->
  forall q, playing i c0 type (clock (env w) + interval type * (q + 1)) (k + q)
                    (elapse (interval type * q) w).
Proof.
  intros B q. induction q as [|q IH] using N.peano_ind.
  - rewrite N.mul_0_r, N.add_0_r, N.add_0_l, N.mul_1_r. exact B.
  - replace (interval type * N.succ q)%N
      with (interval type + interval type * q)%N by lia.
    rewrite elapse_add.
    replace (clock (env w) + interval type * (q + 1))%N
      with (clock (env (elapse (interval type * q) w)) + interval type)%N in IH
      by (rewrite clock_elapse; lia).
    apply elapse_interval in IH.
    rewrite !clock_elapse in IH.
    replace (clock (env w) + interval type * (N.succ q + 1))%N
      with (clock (env w) + interval type * q + interval type + interval type)%N
      by lia.
    replace (k + N.succ q)%N with (k + q + 1)%N by lia.
    exact IH.
Qed.

Lemma playing_elapse i c0 type k w ms :
  playing i c0 type (clock (env w) + interval type) k w ->
  bgStep (eng (elapse ms w)) = (k + ms / interval type)%N /\
  bgPlaying (eng (elapse ms w)) = true.
Proof.
  intros B. pose proof (interval_pos type) as Hpos.
  pose proof (N.div_mod ms (interval type) ltac:(lia)) as E.
  pose proof (N.mod_lt ms (interval type) ltac:(lia)) as Hr.
  rewrite E at 1 3. rewrite N.add_comm, elapse_add.
  assert (H : playing i c0 type
                (clock (env w) + interval type * (ms / interval type + 1))
                (k + ms / interval type)
                (elapse (ms mod interval type)
                   (elapse (interval type * (ms / interval type)) w))).
  { apply elapse_rest; [now apply elapse_intervals|].
    rewrite clock_elapse. lia. }
  split; [exact (pl_step H) | exact (pl_playing H)].
Qed.

(** The body of [startBgMusic] when nothing fails: the sequencer is
    installed, one step played. *)
Lemma begin_music_playing type w :
  Inv w -> faults (env w) = [] -> muted (eng w) = false ->
  bgInterval (eng w) = None ->
  let w' := snd (begin_music type w) in
  (exists c0, playing (next_timer (env w)) c0 type
                      (clock (env w') + interval type) 1 w') /\
  currentMusicType (eng w') = Str type /\
  clock (env w') = clock (env w) /\
  heartbeat_timers w' = heartbeat_timers w /\
  heartbeatInterval (eng w') = heartbeatInterval (eng w).
Proof.
  intros I Hf Hm Hi w'.
  pose proof (Inv_begin_music type I Hm Hi) as I'. fold w' in I'.
  assert (E : w' = snd (begin_music type w)) by reflexivity.
  clearbody w'. rewrite begin_music_eq in E.
  destruct (getCtx_ok w Hf) as (c0 & cs' & Eg).
  pose proof (getCtx_Grows w) as G1. rewrite Eg in E, G1. cbn [snd] in G1.
  set (w1 := on_env (set_contexts cs') (on_eng (set_ctx (Some c0)) w)) in *.
  assert (Hf1 : faults (env (music_begun c0 type w1)) = [])
    by (rewrite <- Hf; unfold w1; now destruct w as [[] []]).
  assert (Hm1 : muted (eng (music_begun c0 type w1)) = false)
    by (rewrite <- Hm; unfold w1; now destruct w as [[] []]).
  assert (Hp1 : bgPlaying (eng (music_begun c0 type w1)) = true)
    by (unfold w1; now destruct w as [[] []]).
  destruct (playNote_ok c0 type _ Hf1 Hm1 Hp1) as (Hn & Hf2 & Hs2).
  pose proof (playNote_Grows c0 type (music_begun c0 type w1)) as G2.
  destruct (playNote c0 type (music_begun c0 type w1)) as [[[]|] w2];
    [|discriminate]. cbn [fst snd] in *. subst w'.
  assert (Hclk : clock (env w2) = clock (env w))
    by (rewrite (gr_clock G2); unfold w1; now destruct w as [[] []]).
  assert (Hnt : next_timer (env w2) = next_timer (env w))
    by (rewrite (gr_next_timer G2); unfold w1; now destruct w as [[] []]).
  assert (Hts : timers (env w2) = timers (env w))
    by (rewrite (gr_timers G2); unfold w1; now destruct w as [[] []]).
  assert (Hbg : bg_timers w = []).
  { pose proof (to_bg (inv_timers I)) as T. now rewrite Hi in T. }
  split; [exists c0; constructor|repeat split].
  - rewrite <- Hm1, <- (gr_muted G2). now destruct w2.
  - rewrite <- Hf2. now destruct w2.
  - rewrite <- Hp1, <- (gr_bgPlaying G2). now destruct w2.
  - exact (inv_timers I').
  - unfold bg_timers in *. destruct w2 as [e2 b2]. cbn in *.
    rewrite filter_app, Hts, Hbg, Hnt, Hclk. reflexivity.
  - replace 1%N with (bgStep (eng (music_begun c0 type w1)) + 1)%N
      by (unfold w1; now destruct w as [[] []]).
    rewrite <- Hs2. now destruct w2.
  - replace (Str type) with (currentMusicType (eng (music_begun c0 type w1)))
      by (unfold w1; now destruct w as [[] []]).
    rewrite <- (gr_currentMusicType G2). now destruct w2.
  - rewrite <- Hclk. now destruct w2.
  - unfold heartbeat_timers. destruct w2 as [e2 b2]. cbn in *.
    rewrite filter_app, Hts. cbn. now rewrite app_nil_r.
  - transitivity (heartbeatInterval (eng w2)); [now destruct w2|].
    rewrite (gr_heartbeatInterval G2). unfold w1. now destruct w as [[] []].
Qed.

(** The sequencer that [startBgMusic] installs, in a world that satisfies
    the invariant. *)
Lemma startBgMusic_sequencer (w : World) (type : option string)
    (I : Inv w) (Hm : muted (eng w) = false) (Hf : faults (env w) = [])
    (Hnew : bgPlaying (eng w) &&
            same_type (currentMusicType (eng w)) (requested type) = false) :
  let ty := requested type in
  let w1 := snd (startBgMusic type w) in
  bgPlaying (eng w1) = true /\
  currentMusicType (eng w1) = Str ty /\
  bgStep (eng w1) = 1%N /\
  (exists c0, bg_timers w1 =
     [mkTimer (next_timer (env w)) (cbPlayNote c0 ty) (interval ty)
              (clock (env w) + interval ty)]) /\
  heartbeat_timers w1 = heartbeat_timers w /\
  heartbeatInterval (eng w1) = heartbeatInterval (eng w) /\
  forall ms, bgStep (eng (elapse ms w1)) = (1 + ms / interval ty)%N /\
             bgPlaying (eng (elapse ms w1)) = true.
Proof.
  intros ty w1.
  assert (E : w1 = snd (begin_music ty
                          (if bgPlaying (eng w) then snd (stopBgMusic w) else w))).
  { unfold w1. rewrite startBgMusic_eq. cbn [snd]. now rewrite Hm, Hnew. }
  clearbody w1.
  set (w0 := if bgPlaying (eng w) then snd (stopBgMusic w) else w) in *.
  assert (H0 : Inv w0 /\ faults (env w0) = [] /\ muted (eng w0) = false /\
               bgInterval (eng w0) = None /\ clock (env w0) = clock (env w) /\
               next_timer (env w0) = next_timer (env w) /\
               heartbeat_timers w0 = heartbeat_timers w /\
               heartbeatInterval (eng w0) = heartbeatInterval (eng w)).
  { unfold w0. destruct (bgPlaying (eng w)) eqn:Hp.
    - destruct (stopBgMusic_effect I) as (_ & B2 & _ & B4 & _).
      destruct (stopBgMusic_frame w) as (F1 & _ & F3 & F4 & _ & F6 & _).
      split; [now apply Inv_stopBgMusic|]. split; [now apply F6|].
      split; [now rewrite F1|]. split; [exact B2|]. split; [exact F3|].
      split; [exact F4|]. split; [exact B4|].
      rewrite stopBgMusic_eq. cbn [snd].
      change (heartbeatInterval
                (eng (stop_each (bgOscillators (eng w)) (bg_cancelled w))) =
              heartbeatInterval (eng w)).
      rewrite (se_heartbeatInterval (stop_each_Settles' _ _)).
      expose_all w. now destruct i.
    - split; [exact I|]. split; [exact Hf|]. split; [exact Hm|].
      split; [now apply (inv_playing I)|]. repeat split. }
  destruct H0 as (I0 & Hf0 & Hm0 & Hi0 & Hc0 & Hn0 & Hh0 & Hhi0).
  destruct (begin_music_playing ty I0 Hf0 Hm0 Hi0)
    as ((c0 & B) & A2 & A3 & A4 & A5).
  rewrite <- E in *. rewrite Hn0 in B.
  split; [exact (pl_playing B)|]. split; [exact A2|]. split; [exact (pl_step B)|].
  split; [exists c0; rewrite (pl_timer B), A3, Hc0; reflexivity|].
  split; [now rewrite A4|]. split; [now rewrite A5|].
  intros ms. exact (playing_elapse ms B).
Qed.

(** [startBgMusic] (lines 184-300) and its sequencer (lines 214-298), on a
    reachable, unmuted engine whose Web Audio calls do not fail, when music
    of the requested mode is not already playing: the call leaves music of
    that mode playing with the cursor at 1 and one sequencer timer, of
    period 250 ms for the lobby and 1500 ms otherwise, first due one
    period later; the heartbeat trigger is untouched.  From then on the
    cursor moves by one every period: after [ms] milliseconds it is
    [1 + ms / period], and the music still plays. *)
Theorem startBgMusic_sequencer_advances (w : World) (type : option string)
    (Hw : reachable w) (Hm : muted (eng w) = false) (Hf : faults (env w) = [])
    (Hnew : bgPlaying (eng w) &&
            same_type (currentMusicType (eng w)) (requested type) = false) :
  let ty := requested type in
  let w1 := snd (startBgMusic type w) in
  bgPlaying (eng w1) = true /\
  currentMusicType (eng w1) = Str ty /\
  bgStep (eng w1) = 1%N /\
  (exists c0, bg_timers w1 =
     [mkTimer (next_timer (env w)) (cbPlayNote c0 ty) (interval ty)
              (clock (env w) + interval ty)]) /\
  heartbeat_timers w1 = heartbeat_timers w /\
  heartbeatInterval (eng w1) = heartbeatInterval (eng w) /\
  forall ms, bgStep (eng (elapse ms w1)) = (1 + ms / interval ty)%N /\
             bgPlaying (eng (elapse ms w1)) = true.
Proof. exact (startBgMusic_sequencer type (reachable_Inv Hw) Hm Hf Hnew). Qed.

Lemma startBgMusic_sequencer_advances_witness :
  reachable fresh /\ muted (eng fresh) = false /\ faults (env fresh) = [] /\
  bgPlaying (eng fresh) = false /\
  bgStep (eng (elapse 1000 (snd (startBgMusic (Some "lobby"%string) fresh)))) = 5%N /\
  bgStep (eng (elapse 3000 (snd (startBgMusic (Some "suspense"%string) fresh)))) = 3%N.
Proof.
  assert (H1 : muted (eng fresh) = false) by reflexivity.
  assert (H2 : faults (env fresh) = []) by reflexivity.
  assert (H3 : forall type,
             bgPlaying (eng fresh) &&
             same_type (currentMusicType (eng fresh)) (requested type) = false)
    by reflexivity.
  pose proof (@startBgMusic_sequencer_advances fresh (Some "lobby"%string)
                (reachable_run []) H1 H2 (H3 _)) as (_ & _ & _ & _ & _ & _ & A).
  pose proof (@startBgMusic_sequencer_advances fresh (Some "suspense"%string)
                (reachable_run []) H1 H2 (H3 _)) as (_ & _ & _ & _ & _ & _ & B).
  split; [apply (reachable_run [])|]. split; [exact H1|]. split; [exact H2|].
  split; [reflexivity|]. split; [exact (proj1 (A 1000%N)) | exact (proj1 (B 3000%N))].
Defined.

(** ** Calls in sequence *)

Lemma reachable_step w e : reachable w -> reachable (step w e).
Proof.
  intros (rate & fs & es & ->). exists rate, fs, (es ++ [e]).
  unfold run. now rewrite fold_left_app.
Qed.

Lemma stopAll_keeps_faults w :
  faults (env w) = [] -> faults (env (snd (stopAll w))) = [].
Proof.
  intros Hf. rewrite stopAll_eq. cbn [snd]. cbv zeta.
  destruct (stopBgMusic_frame (heartbeat_stopped w)) as (_ & _ & _ & _ & _ & F6 & _).
  set (w1 := snd (stopBgMusic (heartbeat_stopped w))) in *.
  change (faults (env (stop_each (activeOscillators (eng w1)) w1)) = []).
  apply stop_each_keeps_faults, F6.
  rewrite <- Hf. expose_all w. now destruct h.
Qed.

(** [stopAll()] followed by [startBgMusic('lobby')], the calls [goBack]
    makes when a game is left for its lobby (lines 484-487), on a
    reachable, unmuted engine whose Web Audio calls do not fail: whatever
    was playing, the lobby music plays from the start (cursor 1 after the
    first step), its sequencer is the only timer, the heartbeat loop is
    stopped and the effect registry is empty. *)
Theorem stopAll_then_lobby (w : World) (Hw : reachable w)
    (Hm : muted (eng w) = false) (Hf : faults (env w) = []) :
  let w1 := snd (stopAll w) in
  let w2 := snd (startBgMusic (Some "lobby"%string) w1) in
  bgPlaying (eng w2) = true /\
  currentMusicType (eng w2) = Str "lobby" /\
  bgStep (eng w2) = 1%N /\
  heartbeatInterval (eng w2) = None /\
  (exists c0, timers (env w2) =
     [mkTimer (next_timer (env w)) (cbPlayNote c0 "lobby") 250
              (clock (env w) + 250)]) /\
  activeOscillators (eng w2) = [].
Proof.
  intros w1 w2.
  assert (R1 : reachable w1) by apply (reachable_step (Call stopAll') Hw).
  destruct (stopAll_engine w) as (A1 & A2 & A3 & A4 & A5 & A6 & A7 & _).
  fold w1 in A1, A2, A3, A4, A5, A6, A7.
  assert (Hm1 : muted (eng w1) = false) by congruence.
  assert (Hf1 : faults (env w1) = []) by now apply stopAll_keeps_faults.
  assert (Hnew : bgPlaying (eng w1) &&
                 same_type (currentMusicType (eng w1))
                           (requested (Some "lobby"%string)) = false)
    by now rewrite A5.
  destruct (@startBgMusic_sequencer w1 (Some "lobby"%string)
              (reachable_Inv R1) Hm1 Hf1 Hnew)
    as (B1 & B2 & B3 & (c0 & B4) & B5 & B6 & _).
  fold w2 in B1, B2, B3, B4, B5, B6.
  pose proof (no_handle_no_timer (inv_timers (reachable_Inv R1)) A3 A4) as Ht1.
  assert (Hht : heartbeat_timers w2 = [])
    by (rewrite B5; unfold heartbeat_timers; now rewrite Ht1).
  assert (E1 : next_timer (env w1) = next_timer (env w) /\
               clock (env w1) = clock (env w)).
  { unfold w1. rewrite stopAll_eq. cbn [snd]. cbv zeta.
    destruct (stopBgMusic_frame (heartbeat_stopped w)) as (_ & _ & F3 & F4 & _).
    set (w0 := snd (stopBgMusic (heartbeat_stopped w))) in *.
    pose proof (stop_each_Settles' (activeOscillators (eng w0)) w0) as S.
    change (next_timer (env (stop_each (activeOscillators (eng w0)) w0)) =
              next_timer (env w) /\
            clock (env (stop_each (activeOscillators (eng w0)) w0)) =
              clock (env w)).
    rewrite (se_next_timer S), (se_clock S), F3, F4.
    expose_all w. now destruct h. }
  destruct E1 as [E1 E2]. rewrite E1, E2 in B4.
  split; [exact B1|]. split; [exact B2|]. split; [exact B3|].
  split; [now rewrite B6|]. split.
  - exists c0. transitivity (bg_timers w2); [|exact B4].
    unfold bg_timers, heartbeat_timers in *.
    clear - Hht. induction (timers (env w2)) as [|t0 ts IH]; [reflexivity|].
    cbn in *. destruct (is_heartbeat_timer t0); [discriminate|].
    cbn. f_equal. now apply IH.
  - unfold w2. rewrite startBgMusic_eq. cbn [snd requested].
    rewrite Hm1, A5. cbn [andb].
    rewrite begin_music_eq.
    pose proof (@getCtx_keeps_active [] w1 A1) as K1.
    destruct (getCtx w1) as [[c1|] w3]; cbn [snd] in K1; [|exact K1].
    pose proof (@playNote_keeps_active [] c1 "lobby" (music_begun c1 "lobby" w3) K1)
      as K2.
    destruct (playNote c1 "lobby" (music_begun c1 "lobby" w3)) as [[[]|] w4];
      cbn [snd] in K2; [now destruct w4 | exact K2].
Qed.

Lemma stopAll_then_lobby_witness :
  reachable busy /\ muted (eng busy) = false /\ faults (env busy) = [] /\
  length (timers (env busy)) = 2 /\
  length (timers (env (snd (startBgMusic (Some "lobby"%string)
                                         (snd (stopAll busy)))))) = 1.
Proof.
  assert (H1 : muted (eng busy) = false) by reflexivity.
  assert (H2 : faults (env busy) = []) by reflexivity.
  pose proof (@stopAll_then_lobby busy (reachable_run _) H1 H2)
    as (_ & _ & _ & _ & (c0 & A) & _).
  split; [apply reachable_run|]. split; [exact H1|]. split; [exact H2|].
  split; [reflexivity|]. now rewrite A.
Defined.

(** ** Time without timers *)

Lemma millisecond_idle w :
  timers (env w) = [] ->
  timers (env (millisecond w)) = [] /\ statics (millisecond w) = statics w /\
  incl (activeOscillators (eng (millisecond w))) (activeOscillators (eng w)).
Proof.
  intros Ht. rewrite millisecond_steps.
  pose proof (dispatch_ended_Settles (tick_clock w)) as S.
  assert (Ht1 : timers (env (snd (dispatch_ended (tick_clock w)))) = [])
    by (rewrite (se_timers S), <- Ht; now destruct w).
  unfold fire_timers, bind, getB. rewrite Ht1. cbn [map forEach ret fst snd].
  split; [exact Ht1|]. split.
  - rewrite (se_statics S). now destruct w.
  - intros o Ho. apply (se_active S) in Ho. now destruct w.
Qed.

(** [toggleMute] (lines 81-85), twice in a row on a reachable, unmuted
    engine: the calls return true, then false, and the flag is clear
    again; but what the first call stopped is not started again.  No
    timer is live, both registries are empty, no music plays and the mode
    is null; and as time passes no node is created or started. *)
Theorem toggleMute_twice_restores_nothing (w : World) (Hw : reachable w)
    (Hm : muted (eng w) = false) :
  let w1 := snd (toggleMute w) in
  let w2 := snd (toggleMute w1) in
  fst (toggleMute w) = Normal true /\ fst (toggleMute w1) = Normal false /\
  muted (eng w2) = false /\
  timers (env w2) = [] /\
  activeOscillators (eng w2) = [] /\ bgOscillators (eng w2) = [] /\
  bgPlaying (eng w2) = false /\ currentMusicType (eng w2) = Null /\
  forall ms, timers (env (elapse ms w2)) = [] /\
             statics (elapse ms w2) = statics w2 /\
             activeOscillators (eng (elapse ms w2)) = [].
Proof.
  intros w1 w2.
  assert (E1 : toggleMute w = (Normal true, on_eng (set_muted true) (snd (stopAll w))))
    by (rewrite toggleMute_eq, Hm; reflexivity).
  assert (Ew1 : w1 = on_eng (set_muted true) (snd (stopAll w)))
    by (unfold w1; now rewrite E1).
  assert (E2 : toggleMute w1 = (Normal false, on_eng (set_muted false) w1))
    by (rewrite toggleMute_eq, Ew1; now destruct (snd (stopAll w))).
  assert (Ew2 : w2 = on_eng (set_muted false) w1) by (unfold w2; now rewrite E2).
  destruct (stopAll_engine w) as (A1 & A2 & A3 & A4 & A5 & A6 & _).
  pose proof (Inv_stopAll (reachable_Inv Hw)) as I.
  pose proof (no_handle_no_timer (inv_timers I) A3 A4) as Ht.
  assert (F : timers (env w2) = [] /\ activeOscillators (eng w2) = [] /\
              bgOscillators (eng w2) = [] /\ bgPlaying (eng w2) = false /\
              currentMusicType (eng w2) = Null /\ muted (eng w2) = false).
  { rewrite Ew2, Ew1. revert A1 A2 A5 A6 Ht. clear.
    generalize (snd (stopAll w)). intros [[] []]. cbn. intros; subst.
    repeat split. }
  destruct F as (F1 & F2 & F3 & F4 & F5 & F6).
  clearbody w1 w2.
  split; [now rewrite E1|]. split; [now rewrite E2|]. split; [exact F6|].
  split; [exact F1|]. split; [exact F2|]. split; [exact F3|].
  split; [exact F4|]. split; [exact F5|].
  intros ms. induction ms as [|ms (IH1 & IH2 & IH3)] using N.peano_ind.
  - repeat split; auto.
  - rewrite elapse_succ.
    destruct (millisecond_idle _ IH1) as (M1 & M2 & M3).
    split; [exact M1|]. split; [now rewrite M2|].
    rewrite IH3 in M3. now apply incl_l_nil.
Qed.

Lemma toggleMute_twice_restores_nothing_witness :
  reachable busy /\ muted (eng busy) = false /\
  length (timers (env busy)) = 2 /\
  timers (env (elapse 3000 (snd (toggleMute (snd (toggleMute busy)))))) = [].
Proof.
  assert (H1 : muted (eng busy) = false) by reflexivity.
  pose proof (@toggleMute_twice_restores_nothing busy (reachable_run _) H1)
    as (_ & _ & _ & _ & _ & _ & _ & _ & A).
  split; [apply reachable_run|]. split; [exact H1|]. split; [reflexivity|].
  exact (proj1 (A 3000%N)).
Defined.

(** ** The effect registry holds live voices only *)

(** The handler of a voice of the background music, if it has one, is not
    one of the effect registry's. *)
Definition bg_handler (s : Source) : bool :=
  match s_onended s with Some (FilterActive _) => false | _ => true end.

(** A voice that is to end: it has started and not ended, its stop time
    is still to come, and its ended event removes it from the effect
    registry. *)
Definition scheduled (w : World) (o : nat) : Prop :=
  started (node w o) = true /\ s_ended (node w o) = false /\
  s_onended (node w o) = Some (FilterActive o) /\
  exists T, s_stop (node w o) = Some T /\
            Qle_bool T (seconds (clock (env w))) = false.

Definition backed (w : World) (o : nat) : Prop :=
  started (node w o) = true /\ bg_handler (node w o) = true.

(** What a synthesis recipe does to the registries, whether it completes
    or throws half way: the voices it registers are scheduled. *)
Record Sched (w w' : World) : Prop := mkSched {
  sc_clock : clock (env w') = clock (env w);
  sc_sources : exists new, sources (env w') = sources (env w) ++ new;
  sc_active : exists la,
      activeOscillators (eng w') = activeOscillators (eng w) ++ la /\
      Forall (scheduled w') la;
  sc_bg : exists lb,
      bgOscillators (eng w') = bgOscillators (eng w) ++ lb /\
      Forall (backed w') lb
}.

Lemma Sched_refl w : Sched w w.
Proof.
  constructor; auto.
  - exists []; now rewrite app_nil_r.
  - exists []; split; [now rewrite app_nil_r | constructor].
  - exists []; split; [now rewrite app_nil_r | constructor].
Qed.

Lemma Sched_node w w' o :
  Sched w w' -> started (node w o) = true -> node w' o = node w o.
Proof.
  intros [_ [new E] _ _] H. unfold node at 1. rewrite E. now apply node_app_old.
Qed.

Lemma scheduled_stable w w' o : Sched w w' -> scheduled w o -> scheduled w' o.
Proof.
  intros S (H1 & H2 & H3 & T & H4 & H5). unfold scheduled.
  rewrite (Sched_node o S H1), (sc_clock S). eauto 6.
Qed.

Lemma backed_stable w w' o : Sched w w' -> backed w o -> backed w' o.
Proof.
  intros S (H1 & H2). unfold backed. now rewrite (Sched_node o S H1).
Qed.

Lemma Sched_trans a b c : Sched a b -> Sched b c -> Sched a c.
Proof.
  intros Hab Hbc.
  pose proof (@scheduled_stable b c) as Hs.
  pose proof (@backed_stable b c) as Hb.
  destruct Hab as [C1 [n1 E1] [la1 [A1 F1]] [lb1 [B1 G1]]].
  specialize (fun o => Hs o Hbc). specialize (fun o => Hb o Hbc).
  destruct Hbc as [C2 [n2 E2] [la2 [A2 F2]] [lb2 [B2 G2]]].
  constructor.
  - congruence.
  - exists (n1 ++ n2). now rewrite E2, E1, app_assoc.
  - exists (la1 ++ la2). split; [now rewrite A2, A1, app_assoc|].
    apply Forall_app; split; [|exact F2].
    eapply Forall_impl; [|exact F1]. exact Hs.
  - exists (lb1 ++ lb2). split; [now rewrite B2, B1, app_assoc|].
    apply Forall_app; split; [|exact G2].
    eapply Forall_impl; [|exact G1]. exact Hb.
Qed.

Definition Sched_bind {A B} (m : JS A) (k : A -> JS B) :=
  @relates_bind Sched Sched_trans A B m k.
Definition Sched_ret {A} (a : A) := @relates_ret Sched Sched_refl A a.
Definition Sched_getE {A} (f : Engine -> A) := @relates_getE Sched Sched_refl A f.

(** A loop whose steps read the audio clock once, before the loop. *)
Lemma Sched_forEach_at {A} (t : Q) (l : list A) body :
  (forall x i w, In x l -> seconds (clock (env w)) = t ->
                 Sched w (snd (body x i w))) ->
  forall i w, seconds (clock (env w)) = t -> Sched w (snd (forEach l i body w)).
Proof.
  induction l as [|x l IH]; intros Hb i w Ht; [apply Sched_refl|].
  cbn [forEach]. unfold bind.
  pose proof (Hb x i w (or_introl eq_refl) Ht) as S1.
  destruct (body x i w) as [[[]|] w1]; cbn [snd] in *; [|exact S1].
  apply (Sched_trans S1). apply IH.
  - intros y j w2 Hy. apply Hb. now right.
  - now rewrite (sc_clock S1).
Qed.

Lemma Qle_bool_later t x : (t < x)%Q -> Qle_bool x t = false.
Proof.
  intros H. destruct (Qle_bool x t) eqn:E; [|reflexivity].
  apply Qle_bool_iff in E. lra.
Qed.

Lemma num_nonneg i : (0 <= num i)%Q.
Proof. unfold num, Qle. cbn. lia. Qed.

Ltac sched_voice :=
  unfold scheduled, backed, node, started, bg_handler; cbn; norm;
  repeat split;
  try (eexists; split; [reflexivity|]; apply Qle_bool_later;
       repeat match goal with
              | |- context [num ?i] =>
                  lazymatch goal with
                  | H : (0 <= num i)%Q |- _ => fail
                  | _ => pose proof (num_nonneg i)
                  end
              end; lra).

Ltac sched_registry :=
  first [ exists []; split; [now rewrite app_nil_r | constructor]
        | eexists; split; [reflexivity|];
          repeat constructor; sched_voice ].

Ltac sched_leaf :=
  constructor; cbn;
  [ reflexivity
  | first [exists []; now rewrite app_nil_r | eexists; reflexivity]
  | sched_registry
  | sched_registry ].

Lemma getCtx_Sched : relates Sched getCtx.
Proof.
  intros w. expose w. unfold getCtx. cbn.
  destruct (ctx e); cbn.
  - destruct (nth n cs running); cbn; execute; sched_leaf.
  - execute; [sched_leaf|].
    destruct (nth (length cs) (cs ++ [running]) running); execute; sched_leaf.
Qed.

Lemma osc_Sched ty f d v r :
  (0 < d)%Q -> relates Sched (osc ty f d v r).
Proof.
  intros Hd. unfold osc.
  apply Sched_bind; [apply Sched_getE |].
  intros [|]; [apply Sched_ret|].
  apply relates_tryCatch.
  apply Sched_bind; [apply getCtx_Sched |].
  intros c w. expose w. destruct r; execute; sched_leaf.
Qed.

Lemma correct_Sched : relates Sched correct.
Proof.
  unfold correct.
  apply Sched_bind; [apply Sched_getE |].
  intros [|]; [apply Sched_ret|].
  apply relates_tryCatch.
  apply Sched_bind; [apply getCtx_Sched |]. intros c w.
  unfold bind at 1, currentTime, getB. cbn [fst snd].
  apply Sched_forEach_at with (t := seconds (clock (env w))); [|reflexivity].
  intros f i w1 _ Ht. rewrite <- Ht. expose w1. execute; sched_leaf.
Qed.

Lemma heartbeat_Sched : relates Sched heartbeat.
Proof.
  unfold heartbeat.
  apply Sched_bind; [apply Sched_getE |].
  intros [|]; [apply Sched_ret|].
  apply relates_tryCatch.
  apply Sched_bind; [apply getCtx_Sched |]. intros c w.
  unfold bind at 1, currentTime, getB. cbn [fst snd].
  apply Sched_forEach_at with (t := seconds (clock (env w))); [|reflexivity].
  intros f i w1 Hf Ht. rewrite <- Ht. expose w1.
  destruct Hf as [<-|[<-|[]]]; execute; sched_leaf.
Qed.

Lemma fanfare_Sched : relates Sched fanfare.
Proof.
  unfold fanfare.
  apply Sched_bind; [apply Sched_getE |].
  intros [|]; [apply Sched_ret|].
  apply relates_tryCatch.
  apply Sched_bind; [apply getCtx_Sched |]. intros c w.
  unfold bind at 1, currentTime, getB. cbn [fst snd].
  apply Sched_forEach_at with (t := seconds (clock (env w))); [|reflexivity].
  intros f i w1 _ Ht. rewrite <- Ht. expose w1. execute; sched_leaf.
Qed.

Lemma playNote_Sched c type : relates Sched (playNote c type).
Proof.
  unfold playNote.
  apply Sched_bind; [apply Sched_getE |]. intros m.
  apply Sched_bind; [apply Sched_getE |]. intros p.
  destruct (m || negb p); [apply Sched_ret|].
  apply Sched_bind; [apply Sched_getE |]. intros step.
  apply Sched_bind.
  - destruct (String.eqb type "lobby").
    + intros w. expose w. unfold playGuitarPluck. execute; sched_leaf.
    + intros w. expose w. destruct (step mod 4 =? 0)%N; execute; sched_leaf.
  - intros _ w. expose w. cbn. sched_leaf.
Qed.

(** The registries of a world: the effect registry holds voices that are
    still to end, the background registry voices that the effect
    registry's handlers do not know. *)
Definition Live (w : World) : Prop :=
  Forall (scheduled w) (activeOscillators (eng w)) /\
  Forall (backed w) (bgOscillators (eng w)).

Lemma Live_Sched w w' : Sched w w' -> Live w -> Live w'.
Proof.
  intros S [K B].
  destruct (sc_active S) as (la & A & Fa). destruct (sc_bg S) as (lb & Eb & Fb).
  split.
  - rewrite A. apply Forall_app; split; [|exact Fa].
    eapply Forall_impl; [|exact K]. intros o. now apply scheduled_stable.
  - rewrite Eb. apply Forall_app; split; [|exact Fb].
    eapply Forall_impl; [|exact B]. intros o. now apply backed_stable.
Qed.

Lemma Live_ext w w' :
  sources (env w') = sources (env w) -> clock (env w') = clock (env w) ->
  activeOscillators (eng w') = activeOscillators (eng w) ->
  bgOscillators (eng w') = bgOscillators (eng w) ->
  Live w -> Live w'.
Proof.
  intros H1 H2 H3 H4 [K B].
  unfold Live, scheduled, backed, node in *. now rewrite H1, H2, H3, H4.
Qed.

Lemma Live_empty w :
  activeOscillators (eng w) = [] -> bgOscillators (eng w) = [] -> Live w.
Proof. intros H1 H2. unfold Live. rewrite H1, H2. split; constructor. Qed.

Lemma Live_preserves {A} (m : JS A) : relates Sched m -> preserves Live m.
Proof. intros H w L. exact (Live_Sched (H w) L). Qed.

(** A voice of the effect registry is not in the background registry. *)
Lemma Live_disjoint w o :
  Live w -> In o (activeOscillators (eng w)) -> ~ In o (bgOscillators (eng w)).
Proof.
  intros [K B] Ha Hb. rewrite Forall_forall in K, B.
  destruct (K o Ha) as (_ & _ & Hh & _). destruct (B o Hb) as (_ & Hg).
  unfold bg_handler in Hg. rewrite Hh in Hg. discriminate.
Qed.

Lemma Live_stopBgMusic : preserves Live stopBgMusic.
Proof.
  intros w L. rewrite stopBgMusic_eq. cbn [snd].
  set (w0 := bg_cancelled w).
  assert (L0 : Live w0)
    by (revert L; apply Live_ext; unfold w0; expose_all w; now destruct i).
  assert (Eb : bgOscillators (eng w0) = bgOscillators (eng w))
    by (unfold w0; expose_all w; now destruct i).
  rewrite <- Eb.
  pose proof (stop_each_Settles' (bgOscillators (eng w0)) w0) as S.
  split; [|constructor].
  change (Forall (scheduled (on_eng bg_idle (stop_each (bgOscillators (eng w0)) w0)))
            (activeOscillators (eng (stop_each (bgOscillators (eng w0)) w0)))).
  rewrite stop_each_eng. apply Forall_forall. intros o Ho.
  pose proof (@Live_disjoint w0 o L0 Ho) as Hout.
  destruct L0 as [K _]. rewrite Forall_forall in K. specialize (K o Ho).
  unfold scheduled in *.
  change (node (on_eng bg_idle (stop_each (bgOscillators (eng w0)) w0)) o)
    with (node (stop_each (bgOscillators (eng w0)) w0) o).
  change (clock (env (on_eng bg_idle (stop_each (bgOscillators (eng w0)) w0))))
    with (clock (env (stop_each (bgOscillators (eng w0)) w0))).
  now rewrite (@stop_each_keeps_node _ _ w0 Hout), (se_clock S).
Qed.

Lemma Live_stopAll : preserves Live stopAll.
Proof.
  intros w _. destruct (stopAll_engine w) as (A1 & A2 & _).
  now apply Live_empty.
Qed.

Lemma Live_toggleMute : preserves Live toggleMute.
Proof.
  intros w L. rewrite toggleMute_eq. cbn [snd].
  destruct (muted (eng w)).
  - revert L. apply Live_ext; now destruct w.
  - generalize (@Live_stopAll w L). apply Live_ext; now destruct (snd (stopAll w)).
Qed.

Lemma Live_startHeartbeatLoop : preserves Live startHeartbeatLoop.
Proof.
  intros w L. destruct (heartbeatInterval (eng w)) eqn:H.
  - rewrite startHeartbeatLoop_running; [exact L | congruence].
  - rewrite startHeartbeatLoop_stopped by exact H. cbn [snd].
    generalize (Live_Sched (heartbeat_Sched w) L).
    apply Live_ext; now destruct (snd (heartbeat w)).
Qed.

Lemma Live_stopHeartbeatLoop : preserves Live stopHeartbeatLoop.
Proof.
  intros w L. rewrite stopHeartbeatLoop_eq. cbn [snd]. revert L.
  apply Live_ext; expose_all w; now destruct h.
Qed.

Lemma Live_begin_music type w : Live w -> Live (snd (begin_music type w)).
Proof.
  intros L. rewrite begin_music_eq.
  pose proof (Live_Sched (getCtx_Sched w) L) as L1.
  destruct (getCtx w) as [[c|] w1]; cbn [snd] in L1; [|exact L1].
  assert (L2 : Live (music_begun c type w1))
    by (revert L1; apply Live_ext; now destruct w1).
  pose proof (Live_Sched (playNote_Sched c type _) L2) as L3.
  destruct (playNote c type (music_begun c type w1)) as [[[]|] w2];
    cbn [snd] in L3; [|exact L3].
  revert L3. apply Live_ext; now destruct w2.
Qed.

Lemma Live_startBgMusic type : preserves Live (startBgMusic type).
Proof.
  intros w L. rewrite startBgMusic_eq. cbn [snd].
  destruct (muted (eng w)); [exact L|].
  destruct (bgPlaying (eng w) && same_type _ _); [exact L|].
  apply Live_begin_music.
  destruct (bgPlaying (eng w)); [now apply Live_stopBgMusic | exact L].
Qed.

Lemma Live_invoke m : preserves Live (invoke m).
Proof.
  destruct m; cbn [invoke];
    try (apply Live_preserves, osc_Sched; reflexivity).
  - apply preserves_bind; [apply Live_toggleMute | intros; apply preserves_ret].
  - apply Live_preserves, correct_Sched.
  - apply Live_preserves, heartbeat_Sched.
  - apply Live_startHeartbeatLoop.
  - apply Live_stopHeartbeatLoop.
  - apply Live_preserves, fanfare_Sched.
  - apply Live_startBgMusic.
  - apply Live_stopBgMusic.
  - apply Live_stopAll.
Qed.

(** Ended events leave the handlers as they are. *)
Lemma dispatch_keeps_onended x o h :
  preserves (fun w => s_onended (node w o) = h) (dispatch x).
Proof.
  intros w H. unfold node in *. expose w. unfold dispatch. cbn in *.
  destruct (negb (s_ended (nth x l new_oscillator)) &&
            ended_by rate (seconds clk) (nth x l new_oscillator)); cbn; auto.
  assert (E : s_onended (nth o (upd x (with_ended true) l) new_oscillator) = h).
  { rewrite nth_upd. destruct (Nat.eqb_spec x o) as [->|]; cbn [andb]; auto.
    destruct (Nat.ltb o (length l)); auto. }
  destruct (s_onended (nth x l new_oscillator)) as [[y|ys]|]; cbn; exact E.
Qed.

Lemma dispatch_ended_keeps_onended o h :
  preserves (fun w => s_onended (node w o) = h) dispatch_ended.
Proof.
  unfold dispatch_ended.
  apply preserves_bind; [apply preserves_getB|]. intros n.
  apply preserves_forEach. intros x _. apply dispatch_keeps_onended.
Qed.

(** The clock moves on, the ended events that are due are dispatched:
    what stays in the effect registry is still to end. *)
Lemma Live_dispatch_ended w :
  Live w -> Live (snd (dispatch_ended (tick_clock w))).
Proof.
  intros [K B].
  pose proof (dispatch_ended_Settles (tick_clock w)) as S.
  set (w1 := snd (dispatch_ended (tick_clock w))) in *.
  rewrite Forall_forall in K, B. split; apply Forall_forall; intros o Ho.
  - pose proof (se_active S o Ho) as Ho0.
    assert (Ho' : In o (activeOscillators (eng w))) by now destruct w.
    destruct (K o Ho') as (H1 & H2 & H3 & T & H4 & _).
    assert (Ha : awaiting_end o T (tick_clock w)).
    { unfold awaiting_end.
      replace (node (tick_clock w) o) with (node w o) by now destruct w.
      split; [|split].
      - replace (sources (env (tick_clock w))) with (sources (env w))
          by now destruct w.
        now apply started_in_range.
      - auto.
      - rewrite H2. discriminate. }
    destruct (dispatch_ended_awaiting Ha) as [(_ & A1 & A2) A3].
    fold w1 in A1, A2, A3. unfold end_dispatched in A3.
    destruct (s_ended (node w1 o)) eqn:E; [exfalso; exact (A2 eq_refl Ho)|].
    destruct (A1 eq_refl) as (Hs & Hstop & Hh).
    split; [exact Hs|]. split; [exact E|]. split; [exact Hh|].
    exists T. split; [exact Hstop|].
    destruct (Qle_bool T (seconds (clock (env w1)))); [|reflexivity].
    discriminate (A3 eq_refl).
  - pose proof (se_bg S o Ho) as Ho0.
    assert (Ho' : In o (bgOscillators (eng w))) by now destruct w.
    destruct (B o Ho') as (H1 & H2). unfold backed, bg_handler in *.
    rewrite (started_static (Settles_node o S)).
    pose proof (@dispatch_ended_keeps_onended o _ (tick_clock w) eq_refl) as Hh.
    fold w1 in Hh. cbv beta in Hh. rewrite Hh.
    split; now destruct w.
Qed.

Lemma Live_fire id : preserves Live (fire id).
Proof.
  unfold fire.
  apply preserves_bind; [apply preserves_getB|]. intros [t0|].
  - apply preserves_bind; [apply preserves_getB|]. intros now.
    destruct (t_due t0 <=? now)%N; [|apply preserves_ret].
    apply preserves_bind.
    + intros w. apply Live_ext; now destruct w.
    + intros _. apply preserves_tryCatch.
      destruct (t_callback t0); cbn [run_callback]; apply Live_preserves;
        [apply heartbeat_Sched | apply playNote_Sched].
  - apply preserves_bind; [apply preserves_getB|]. intros _.
    apply preserves_ret.
Qed.

Lemma Live_millisecond w : Live w -> Live (millisecond w).
Proof.
  intros L. rewrite millisecond_steps. apply Live_dispatch_ended in L.
  revert L. generalize (snd (dispatch_ended (tick_clock w))).
  unfold fire_timers. change (preserves Live (ids <- getB (fun b => map t_id (timers b)) ;;
                                              forEach ids 0 (fun id _ => fire id))).
  apply preserves_bind; [apply preserves_getB|]. intros ids.
  apply preserves_forEach. intros id _. apply Live_fire.
Qed.

Lemma Live_step e w : Live w -> Live (step w e).
Proof.
  destruct e as [m|ms|]; cbn [step].
  - apply Live_invoke.
  - apply N.iter_invariant. intros x. apply Live_millisecond.
  - apply Live_ext; now destruct w.
Qed.

Lemma reachable_Live w : reachable w -> Live w.
Proof.
  intros (rate & fs & es & ->).
  assert (H : Live (init rate fs)) by (split; constructor).
  revert H. generalize (init rate fs).
  induction es as [|e es IH]; intros w H; [exact H|].
  apply IH, Live_step, H.
Qed.

(** The effect registry (lines 44, 72-73 and the handlers of the
    effects), in every reachable state and whatever the browser has
    refused: every voice it holds has started and has not ended, its stop
    time is still to come, and its ended event will remove it, and it
    alone; none of them is in the background registry.  No voice stays in
    the registry past its end. *)
Theorem active_voices_are_to_end (w : World) (Hw : reachable w) :
  forall o, In o (activeOscillators (eng w)) ->
    started (node w o) = true /\ s_ended (node w o) = false /\
    s_onended (node w o) = Some (FilterActive o) /\
    (exists T, s_stop (node w o) = Some T /\
               Qle_bool T (seconds (clock (env w))) = false) /\
    ~ In o (bgOscillators (eng w)).
Proof.
  intros o Ho. pose proof (reachable_Live Hw) as L.
  pose proof (@Live_disjoint w o L Ho) as Hd.
  destruct L as [K _]. rewrite Forall_forall in K.
  destruct (K o Ho) as (H1 & H2 & H3 & H4). auto.
Qed.

Lemma active_voices_are_to_end_witness :
  reachable sounding /\ In 5 (activeOscillators (eng sounding)) /\
  s_ended (node sounding 5) = false /\
  s_onended (node sounding 5) = Some (FilterActive 5).
Proof.
  assert (H : In 5 (activeOscillators (eng sounding)))
    by (vm_compute; auto).
  pose proof (@active_voices_are_to_end sounding (reachable_run _) 5 H)
    as (_ & A & B & _).
  split; [apply reachable_run|]. split; [exact H|]. split; [exact A | exact B].
Defined.

(** ** Time without the sequencer *)

Lemma heartbeat_keeps_bg b0 k :
  preserves (fun w => bgOscillators (eng w) = b0 /\ bgStep (eng w) = k) heartbeat.
Proof. repeat frame_step. Qed.

Lemma fire_still id k :
  preserves (fun w => bg_timers w = [] /\ bgOscillators (eng w) = [] /\
                      bgStep (eng w) = k) (fire id).
Proof.
  intros w (Ht & Hb & Hk). unfold fire, bind, getB, modB, task, tryCatch.
  cbn [fst snd].
  destruct (find _ (timers (env w))) as [t0|] eqn:F; [|auto].
  destruct (t_due t0 <=? clock (env w))%N; [|auto]. cbn [snd].
  apply find_some in F. destruct F as [Hin _].
  assert (Ht1 : bg_timers (on_env (rearm id) w) = [])
    by (rewrite rearm_bg_timers, Ht; reflexivity).
  destruct (t_callback t0) as [|c0 type] eqn:E; cbn [run_callback].
  - split.
    + unfold bg_timers in *. now rewrite (gr_timers (heartbeat_Grows _)).
    + apply heartbeat_keeps_bg. split; [rewrite <- Hb | rewrite <- Hk]; now destruct w.
  - exfalso. assert (H : In t0 (bg_timers w)).
    { apply filter_In. split; [exact Hin|]. unfold is_heartbeat_timer.
      now rewrite E. }
    rewrite Ht in H. destruct H.
Qed.

Lemma millisecond_still k w :
  bg_timers w = [] /\ bgOscillators (eng w) = [] /\ bgStep (eng w) = k ->
  bg_timers (millisecond w) = [] /\ bgOscillators (eng (millisecond w)) = [] /\
  bgStep (eng (millisecond w)) = k.
Proof.
  intros (Ht & Hb & Hk). rewrite millisecond_steps.
  unfold fire_timers, bind, getB. cbn [fst snd].
  apply preserves_forEach; [intros id _; apply fire_still|].
  pose proof (dispatch_ended_Settles (tick_clock w)) as S. split; [|split].
  - unfold bg_timers in *. rewrite (se_timers S). now destruct w.
  - apply incl_l_nil. rewrite <- Hb. intros o Ho.
    apply (se_bg S) in Ho. now destruct w.
  - rewrite (se_bgStep S), <- Hk. now destruct w.
Qed.

(** [stopBgMusic] (lines 301-307) cancels what is to come: after it, in
    every reachable state and whatever the browser refuses, the passing of
    time plays no step of the sequence.  The cursor stays where it was,
    the background registry stays empty and no music plays, while a
    heartbeat loop goes on. *)
Theorem stopBgMusic_stops_the_sequencer (w : World) (Hw : reachable w) :
  let w' := snd (stopBgMusic w) in
  forall ms,
    bgStep (eng (elapse ms w')) = bgStep (eng w) /\
    bgOscillators (eng (elapse ms w')) = [] /\
    bg_timers (elapse ms w') = [] /\
    heartbeatInterval (eng (elapse ms w')) = heartbeatInterval (eng w).
Proof.
  intros w' ms.
  destruct (stopBgMusic_effect (reachable_Inv Hw)) as (_ & _ & B3 & _ & B5 & _).
  fold w' in B3, B5.
  assert (Hk : bgStep (eng w') = bgStep (eng w)).
  { unfold w'. rewrite stopBgMusic_eq. cbn [snd].
    change (bgStep (eng (stop_each (bgOscillators (eng w)) (bg_cancelled w))) =
            bgStep (eng w)).
    rewrite stop_each_eng. expose_all w. now destruct i. }
  assert (Hh : heartbeatInterval (eng w') = heartbeatInterval (eng w)).
  { unfold w'. rewrite stopBgMusic_eq. cbn [snd].
    change (heartbeatInterval
              (eng (stop_each (bgOscillators (eng w)) (bg_cancelled w))) =
            heartbeatInterval (eng w)).
    rewrite stop_each_eng. expose_all w. now destruct i. }
  clearbody w'.
  assert (H : (bg_timers (elapse ms w') = [] /\
               bgOscillators (eng (elapse ms w')) = [] /\
               bgStep (eng (elapse ms w')) = bgStep (eng w)) /\
              heartbeatInterval (eng (elapse ms w')) = heartbeatInterval (eng w)).
  { induction ms as [|ms [IH1 IH2]] using N.peano_ind; [auto|].
    rewrite elapse_succ. split; [now apply millisecond_still|].
    rewrite <- IH2, millisecond_steps.
    set (w0 := elapse ms w').
    pose proof (dispatch_ended_Settles (tick_clock w0)) as S.
    transitivity (heartbeatInterval (eng (snd (dispatch_ended (tick_clock w0)))));
      [|rewrite (se_heartbeatInterval S); now destruct w0].
    generalize (snd (dispatch_ended (tick_clock w0))). intros w1.
    unfold fire_timers, bind, getB. cbn [fst snd].
    apply (@preserves_forEach
             (fun x => heartbeatInterval (eng x) = heartbeatInterval (eng w1))
             _ (map t_id (timers (env w1))) (fun id _ => fire id));
      [|reflexivity].
    intros id _. unfold fire.
    apply preserves_bind; [apply preserves_getB|]. intros [t0|].
    - apply preserves_bind; [apply preserves_getB|]. intros now.
      destruct (t_due t0 <=? now)%N; [|apply preserves_ret].
      apply preserves_bind; [intros [] H; exact H|]. intros _.
      apply preserves_tryCatch. destruct (t_callback t0); cbn [run_callback].
      + intros x H. now rewrite (gr_heartbeatInterval (heartbeat_Grows x)).
      + intros x H. now rewrite (gr_heartbeatInterval (playNote_Grows _ _ x)).
    - apply preserves_bind; [apply preserves_getB|]. intros _.
      apply preserves_ret. }
  destruct H as [(H1 & H2 & H3) H4]. auto.
Qed.

Lemma stopBgMusic_stops_the_sequencer_witness :
  reachable busy /\ bgPlaying (eng busy) = true /\
  bgStep (eng (elapse 5000 (snd (stopBgMusic busy)))) = bgStep (eng busy) /\
  bgOscillators (eng (elapse 5000 (snd (stopBgMusic busy)))) = [].
Proof.
  pose proof (@stopBgMusic_stops_the_sequencer busy (reachable_run _) 5000%N)
    as (A & B & _).
  split; [apply reachable_run|]. split; [reflexivity|].
  split; [exact A | exact B].
Defined.

(** ** A start that fails *)

(** Where [startBgMusic] starts from once the mode that was playing, if
    any, has been stopped (line 188). *)
Definition cleared (w : World) : World :=
  if bgPlaying (eng w) then snd (stopBgMusic w) else w.

Lemma cleared_idle w :
  Inv w ->
  bgInterval (eng (cleared w)) = None /\
  bg_timers (cleared w) = [] /\
  heartbeat_timers (cleared w) = heartbeat_timers w /\
  heartbeatInterval (eng (cleared w)) = heartbeatInterval (eng w).
Proof.
  intros I. unfold cleared. destruct (bgPlaying (eng w)) eqn:P.
  - destruct (stopBgMusic_effect I) as (_ & A & B & C & _).
    split; [exact A|]. split; [exact B|]. split; [exact C|].
    rewrite stopBgMusic_eq. cbn [snd].
    pose proof (stop_each_Settles' (bgOscillators (eng w)) (bg_cancelled w)) as S.
    transitivity (heartbeatInterval
                    (eng (stop_each (bgOscillators (eng w)) (bg_cancelled w)))).
    + now destruct (stop_each (bgOscillators (eng w)) (bg_cancelled w)).
    + rewrite (se_heartbeatInterval S). unfold bg_cancelled.
      expose_all w. now destruct i.
  - pose proof (inv_playing I P) as Hi.
    pose proof (to_bg (inv_timers I)) as T. rewrite Hi in T. auto.
Qed.

(** [startBgMusic] (lines 184-300) on an unmuted engine, asked for a mode
    that is not the one playing, when the context is acquired and the
    first step of the sequence throws.  The exception is swallowed; the
    playing flag and the mode, set before that step, stay set; no
    sequencer is installed: the handle is unset and no sequencer timer is
    live, the one of a mode that was playing before having been cancelled;
    the heartbeat trigger and its handle are as they were.  When no mode
    was playing the timers and the handle are unchanged.  A further call
    for the same mode then finds the music marked as playing and returns
    at once: it does not retry. *)
Theorem startBgMusic_failed_start_is_not_retried (w w1 : World) (c0 : nat)
    (type : option string) (Hw : reachable w)
    (Hm : muted (eng w) = false)
    (Hnew : bgPlaying (eng w) &&
            same_type (currentMusicType (eng w)) (requested type) = false)
    (Hc : getCtx (cleared w) = (Normal c0, w1))
    (Hn : fst (playNote c0 (requested type) (music_begun c0 (requested type) w1))
          = Throw) :
  let w' := snd (startBgMusic type w) in
  fst (startBgMusic type w) = Normal tt /\
  bgPlaying (eng w') = true /\
  currentMusicType (eng w') = Str (requested type) /\
  bgInterval (eng w') = None /\
  bg_timers w' = [] /\
  heartbeat_timers w' = heartbeat_timers w /\
  heartbeatInterval (eng w') = heartbeatInterval (eng w) /\
  (bgPlaying (eng w) = false ->
   bgInterval (eng w') = bgInterval (eng w) /\
   timers (env w') = timers (env w)) /\
  startBgMusic type w' = (Normal tt, w').
Proof.
  intros w'. pose proof (reachable_Inv Hw) as I.
  assert (E : w' = snd (playNote c0 (requested type)
                          (music_begun c0 (requested type) w1))).
  { unfold w'. rewrite startBgMusic_eq. cbn [snd]. rewrite Hm, Hnew.
    fold (cleared w). rewrite begin_music_eq, Hc.
    destruct (playNote c0 (requested type) (music_begun c0 (requested type) w1))
      as [[[]|] w2]; [discriminate | reflexivity]. }
  destruct (cleared_idle I) as (K1 & K2 & K3 & K4).
  pose proof (getCtx_Grows (cleared w)) as G1. rewrite Hc in G1. cbn [snd] in G1.
  pose proof (playNote_Grows c0 (requested type)
                (music_begun c0 (requested type) w1)) as G2.
  rewrite <- E in G2. clearbody w'.
  assert (Hp' : bgPlaying (eng w') = true)
    by (rewrite (gr_bgPlaying G2); now destruct w1).
  assert (Ht' : currentMusicType (eng w') = Str (requested type))
    by (rewrite (gr_currentMusicType G2); now destruct w1).
  assert (Hi' : bgInterval (eng w') = bgInterval (eng (cleared w)))
    by (rewrite (gr_bgInterval G2), <- (gr_bgInterval G1); now destruct w1).
  assert (Hts : timers (env w') = timers (env (cleared w)))
    by (rewrite (gr_timers G2), <- (gr_timers G1); now destruct w1).
  assert (Hh' : heartbeatInterval (eng w') = heartbeatInterval (eng (cleared w)))
    by (rewrite (gr_heartbeatInterval G2), <- (gr_heartbeatInterval G1);
        now destruct w1).
  split; [now rewrite startBgMusic_eq|]. split; [exact Hp'|]. split; [exact Ht'|].
  split; [now rewrite Hi'|].
  split; [unfold bg_timers in *; now rewrite Hts|].
  split; [unfold heartbeat_timers in *; now rewrite Hts|].
  split; [now rewrite Hh'|]. split.
  - intros P. rewrite Hi', Hts. unfold cleared. rewrite P. split; reflexivity.
  - rewrite startBgMusic_eq, Hp', Ht'. cbn [andb same_type].
    rewrite String.eqb_refl. now destruct (muted (eng w')).
Qed.

(** The lobby sequence is playing; the browser will refuse the first call
    made after the two voices of the sequence have been stopped. *)
Definition failing_switch : World :=
  run [Call (startBgMusic' None)] (init 44100%Q (repeat false 32 ++ [true])).

Lemma startBgMusic_failed_start_is_not_retried_witness :
  reachable failing_switch /\
  muted (eng failing_switch) = false /\
  bgPlaying (eng failing_switch) = true /\
  currentMusicType (eng failing_switch) = Str "lobby" /\
  bgInterval (eng failing_switch) = Some 1%positive /\
  fst (getCtx (cleared failing_switch)) = Normal 0 /\
  bgPlaying (eng (snd (startBgMusic (Some "suspense"%string) failing_switch)))
    = true /\
  bgInterval (eng (snd (startBgMusic (Some "suspense"%string) failing_switch)))
    = None /\
  bg_timers (snd (startBgMusic (Some "suspense"%string) failing_switch)) = [] /\
  startBgMusic (Some "suspense"%string)
    (snd (startBgMusic (Some "suspense"%string) failing_switch)) =
    (Normal tt, snd (startBgMusic (Some "suspense"%string) failing_switch)).
Proof.
  assert (H0 : reachable failing_switch)
    by (exists 44100%Q, (repeat false 32 ++ [true]), [Call (startBgMusic' None)];
        reflexivity).
  assert (H1 : muted (eng failing_switch) = false) by (vm_compute; reflexivity).
  assert (H2 : bgPlaying (eng failing_switch) &&
               same_type (currentMusicType (eng failing_switch))
                         (requested (Some "suspense"%string)) = false)
    by (vm_compute; reflexivity).
  assert (H3 : getCtx (cleared failing_switch) =
               (Normal 0, snd (getCtx (cleared failing_switch))))
    by (vm_compute; reflexivity).
  assert (H4 : fst (playNote 0 (requested (Some "suspense"%string))
                      (music_begun 0 (requested (Some "suspense"%string))
                         (snd (getCtx (cleared failing_switch)))))
               = Throw) by (vm_compute; reflexivity).
  pose proof (@startBgMusic_failed_start_is_not_retried failing_switch _ 0
                (Some "suspense"%string) H0 H1 H2 H3 H4)
    as (_ & A & _ & B & C & _ & _ & _ & D).
  split; [exact H0|]. split; [exact H1|].
  split; [vm_compute; reflexivity|]. split; [vm_compute; reflexivity|].
  split; [vm_compute; reflexivity|]. split; [vm_compute; reflexivity|].
  split; [exact A|]. split; [exact B|]. split; [exact C | exact D].
Defined.

(** ** Effects and loops *)

(** What an effect could disturb: the flags, the handles and the cursor of
    the two loops, the background registry, the timers and the clock. *)
Definition loops (w : World) :=
  (muted (eng w), bgOscillators (eng w), bgPlaying (eng w),
   heartbeatInterval (eng w), bgInterval (eng w), bgStep (eng w),
   currentMusicType (eng w), timers (env w), next_timer (env w),
   clock (env w)).

Lemma one_shot_keeps_loops m v :
  one_shot m = true -> preserves (fun w => loops w = v) (invoke m).
Proof.
  intros Hm. unfold loops.
  destruct m; try discriminate; cbn [invoke];
    unfold click, wrong, tick, lightBeep, goBurst, falseStart;
    repeat frame_step.
Qed.

(** The one-shot effects (lines 88-181), in any state and whatever the
    browser refuses: an effect returns normally and leaves the two loops
    alone.  The mute flag, the playing flag, mode and cursor of the music,
    both timer handles, the timers themselves, the background registry and
    the clock are as before, and so is every node that existed: an effect
    only adds nodes. *)
Theorem one_shot_effects_leave_loops_alone (w : World) (m : Method)
    (Hm : one_shot m = true) :
  let w' := snd (invoke m w) in
  fst (invoke m w) = Normal tt /\
  loops w' = loops w /\
  exists new, sources (env w') = sources (env w) ++ new.
Proof.
  intros w'.
  assert (G : Grows w w').
  { unfold w'. destruct m; try discriminate; cbn [invoke];
      unfold click, wrong, tick, lightBeep, goBurst, falseStart;
      [ refine (@osc_Grows _ _ _ _ _ _ w) | exact (correct_Grows w)
      | refine (@osc_Grows _ _ _ _ _ _ w) | refine (@osc_Grows _ _ _ _ _ _ w)
      | exact (heartbeat_Grows w) | refine (@osc_Grows _ _ _ _ _ _ w)
      | refine (@osc_Grows _ _ _ _ _ _ w) | refine (@osc_Grows _ _ _ _ _ _ w)
      | exact (fanfare_Grows w) ]; discriminate. }
  split; [|split].
  - destruct m; try discriminate; cbn [invoke];
      unfold click, wrong, tick, lightBeep, goBurst, falseStart;
      [ rewrite osc_eq | rewrite correct_eq | rewrite osc_eq | rewrite osc_eq
      | rewrite heartbeat_eq | rewrite osc_eq | rewrite osc_eq | rewrite osc_eq
      | rewrite fanfare_eq ]; reflexivity.
  - now apply one_shot_keeps_loops.
  - exact (gr_sources G).
Qed.

Lemma one_shot_effects_leave_loops_alone_witness :
  one_shot fanfare' = true /\
  timers (env (snd (invoke fanfare' busy))) = timers (env busy) /\
  bgStep (eng (snd (invoke fanfare' busy))) = bgStep (eng busy).
Proof.
  pose proof (@one_shot_effects_leave_loops_alone busy fanfare' eq_refl)
    as (_ & A & _).
  unfold loops in A. split; [reflexivity|]. split; congruence.
Defined.

(** ** Nodes that no registry holds *)

(** The node [n], which has no handler, is to end at [T] at the latest:
    until then it is as it was scheduled. *)
Definition self_ending (n : nat) (T : Q) (w : World) : Prop :=
  n < length (sources (env w)) /\
  (s_ended (node w n) = false ->
   s_onended (node w n) = None /\
   forall now, Qle_bool T now = true ->
               ended_by (sampleRate (env w)) now (node w n) = true).


Lemma ended_by_started rate now s : ended_by rate now s = true -> started s = true.
Proof. unfold ended_by, started. now destruct (s_start s). Qed.

Lemma self_ending_started n T w :
  self_ending n T w -> s_ended (node w n) = false -> started (node w n) = true.
Proof.
  intros (_ & H) E. destruct (H E) as (_ & H2).
  eapply ended_by_started. apply (H2 T (Qle_bool_refl T)).
Qed.














(* ================================================================== *)
(** * The room of the memory game (src/app.js, lines 809-820) *)

Module Room.

Local Open Scope string_scope.
Local Open Scope Z_scope.

(** [themes], the backgrounds of the room. *)
Definition themes : list string :=
  [ "#f8fafc";
    "linear-gradient(135deg, #1a1a2e 0%, #16213e 100%)";
    "linear-gradient(135deg, #4b6cb7 0%, #182848 100%)";
    "linear-gradient(135deg, #0f2027 0%, #2c5364 100%)";
    "linear-gradient(135deg, #373b44 0%, #4286f4 100%)";
    "linear-gradient(135deg, #833ab4 0%, #fd1d1d 100%)" ].

(** [a[i]] for an integer [i]: undefined out of the array. *)
Definition item (a : list string) (i : Z) : option string :=
  if i <? 0 then None else nth_error a (Z.to_nat i).

(** [x || y] on strings: undefined and the empty string are falsy. *)
Definition or_else (x : option string) (y : string) : string :=
  match x with
  | Some s => if String.eqb s EmptyString then y else s
  | None => y
  end.

(** [getRoomTheme(level)], for a level that is an integer;
    [Math.floor((level - 1) / 50)] is the quotient rounded down. *)
Definition getRoomTheme (level : Z) : string :=
  let index := (level - 1) / 50 in
  or_else (item themes index) (hd EmptyString themes).

(** [getRoomTheme] (lines 809-820): the levels 1 to 300 fall into six
    blocks of fifty, each with its own background; every other level, zero
    and negative ones included, gets the background of the first block
    instead of an undefined value. *)
Theorem getRoomTheme_blocks_of_fifty (level : Z) :
  (1 <= level <= 300 ->
   getRoomTheme level = nth (Z.to_nat ((level - 1) / 50)) themes EmptyString /\
   (forall level', 1 <= level' <= 300 ->
      (getRoomTheme level = getRoomTheme level' <->
       (level - 1) / 50 = (level' - 1) / 50))) /\
  (level < 1 \/ 300 < level -> getRoomTheme level = "#f8fafc").
Proof.
  assert (block : forall l, 1 <= l <= 300 ->
            exists k, (k < 6)%nat /\ (l - 1) / 50 = Z.of_nat k /\
                      getRoomTheme l = nth k themes EmptyString).
  { intros l Hl.
    assert (H0 : 0 <= (l - 1) / 50) by (apply Z.div_pos; lia).
    assert (H5 : (l - 1) / 50 < 6) by (apply Z.div_lt_upper_bound; lia).
    exists (Z.to_nat ((l - 1) / 50)).
    split; [lia|]. split; [lia|].
    unfold getRoomTheme, item. cbv zeta.
    destruct ((l - 1) / 50 <? 0) eqn:E; [apply Z.ltb_lt in E; lia|].
    assert (Hk : (Z.to_nat ((l - 1) / 50) < 6)%nat) by lia.
    revert Hk. generalize (Z.to_nat ((l - 1) / 50)). intros k Hk.
    do 6 (destruct k as [|k]; [reflexivity|]). lia. }
  split.
  - intros Hl. destruct (block level Hl) as (k & Hk & Ek & Tk).
    split; [rewrite Ek, Nat2Z.id; exact Tk|].
    intros l' Hl'. destruct (block l' Hl') as (k' & Hk' & Ek' & Tk').
    rewrite Ek, Ek', Tk, Tk'. split.
    + intros H. f_equal. revert H. clear - Hk Hk'.
      do 6 (destruct k as [|k]; [do 6 (destruct k' as [|k'];
              [first [reflexivity | discriminate]|]); lia|]). lia.
    + intros H. apply Nat2Z.inj in H. now subst.
  - intros Hl. unfold getRoomTheme, item. cbv zeta.
    destruct ((level - 1) / 50 <? 0) eqn:E; [reflexivity|].
    apply Z.ltb_ge in E.
    assert (H6 : 6 <= (level - 1) / 50).
    { destruct Hl as [Hl|Hl].
      - assert ((level - 1) / 50 < 0) by (apply Z.div_lt_upper_bound; lia). lia.
      - apply Z.div_le_lower_bound; lia. }
    assert (Hn : nth_error themes (Z.to_nat ((level - 1) / 50)) = None)
      by (apply nth_error_None; cbn; lia).
    now rewrite Hn.
Qed.

End Room.
